(** * Surface water network: a shallow embedding of [swn.py]

    The development follows [SurfaceWaterNetwork] of [src/swn.py]: the
    connectivity pass that fills [to_segnum], the upstream recursion
    [resurse_upstream], the downstream sequencer with its stream order,
    [accumulate_values] and [adjust_elevation_profile].

    What the program takes from its host (CPython floats, shapely, pandas,
    the iteration order of a [set]) is gathered in the class [Host]; every
    theorem holds for any host, and [PyHost] gives one built on binary64
    floats to evaluate the definitions on concrete networks. *)

From Stdlib Require Import ZArith List Lia Floats.
From stdpp Require Import gmap list sorting.

Set Default Proof Using "Type".
Local Open Scope Z_scope.

(** ** Exceptions and results *)

Inductive Exn :=
  | ValueError | AttributeError | KeyError | ZeroDivisionError
  | OverflowError | RecursionError | UnboundLocalError.

Inductive result (A : Type) :=
  | Ok (a : A)
  | Raise (e : Exn).
Arguments Ok {A} a.
Arguments Raise {A} e.

#[global] Instance Exn_eq_dec : EqDecision Exn.
Proof. solve_decision. Defined.

#[global] Instance result_ret : MRet result := fun A a => Ok a.
#[global] Instance result_bind : MBind result := fun A B f m =>
  match m with
  | Ok a => f a
  | Raise e => Raise e
  end.

(** [for x in l: acc = f acc x], stopping at the first exception. *)
Fixpoint foldM {A B} (f : B -> A -> result B) (l : list A) (acc : B) : result B :=
  match l with
  | [] => Ok acc
  | x :: l' => acc' ← f acc x; foldM f l' acc'
  end.

Definition from_option {A} (e : Exn) (o : option A) : result A :=
  match o with
  | Some a => Ok a
  | None => Raise e
  end.

(** ** Geometry *)

(** A coordinate tuple of shapely: two or three floats. *)
Inductive Coord (F : Type) :=
  | Coord2 (x y : F)
  | Coord3 (x y z : F).
Arguments Coord2 {F} x y.
Arguments Coord3 {F} x y z.

(** A line string is its coordinate sequence [coords]; the empty line string
    is left out by the type. *)
Record LineString (F : Type) := mkLineString {
  ls_first : Coord F;
  ls_rest : list (Coord F)
}.
Arguments mkLineString {F} ls_first ls_rest.
Arguments ls_first {F} l.
Arguments ls_rest {F} l.

Definition coords {F} (g : LineString F) : list (Coord F) :=
  ls_first g :: ls_rest g.
(** [geom.coords[0]] and [geom.coords[-1]] *)
Definition coords_start {F} (g : LineString F) : Coord F := ls_first g.
Definition coords_end {F} (g : LineString F) : Coord F :=
  List.last (ls_rest g) (ls_first g).

Definition coord_has_z {F} (c : Coord F) : bool :=
  match c with Coord2 _ _ => false | Coord3 _ _ _ => true end.
Definition geom_has_z {F} (g : LineString F) : bool :=
  forallb coord_has_z (coords g).

(** A pandas Series: labels with their values, in index order. *)
Definition Series (A : Type) := list (Z * A).

Definition series_index {A} (s : Series A) : list Z := s.*1.
Fixpoint series_get {A} (k : Z) (s : Series A) : option A :=
  match s with
  | [] => None
  | (k', v) :: s' => if k' =? k then Some v else series_get k s'
  end.
Definition series_set {A} (k : Z) (v : A) (s : Series A) : Series A :=
  (fun r : Z * A => if r.1 =? k then (r.1, v) else r) <$> s.

(** ** The host *)

Class Host := {
  (** Python's [float] with the operations the program applies to it.
      [x ** 2] and [math.sqrt] may raise; [/] raises on a zero divisor, which
      the program's model tests with [feq _ fzero] before [fdiv]. *)
  F : Type;
  fzero : F;
  ftol : F;                       (* the literal 1e-6 *)
  fadd : F -> F -> F;
  fsub : F -> F -> F;
  fmul : F -> F -> F;
  fdiv : F -> F -> F;
  flt : F -> F -> bool;
  feq : F -> F -> bool;
  fpow2 : F -> result F;
  fsqrt : F -> result F;
  (** shapely: [geom.length], [geom.distance(pt)], [Point(..).distance(pt)] *)
  geom_length : LineString F -> F;
  geom_distance : LineString F -> Coord F -> F;
  point_distance : Coord F -> Coord F -> F;
  (** [get_sindex] with the row selection
      [segments.iloc[sorted(sindex.intersection(p))]]; [None] when no spatial
      index is built. *)
  sindex_sub :
    list (Z * LineString F) -> option (F * F -> list (Z * LineString F));
  sindex_sub_sublist : forall rows q p,
    sindex_sub rows = Some q -> q p `sublist_of` rows;
  (** [list(s)] for a Python set [s] *)
  list_of_set : gset Z -> list Z;
  list_of_set_perm : forall s, list_of_set s ≡ₚ elements s;
  (** pandas: [sort_values(['num_to_outlet', 'length_to_outlet'],
      ascending=False).index] over rows (segnum, (num, length)) *)
  sort_values_desc : list (Z * (Z * F)) -> list Z;
  sort_values_desc_perm : forall l, sort_values_desc l ≡ₚ l.*1;
  (** pandas: [sort_values('sequence').index] over rows (segnum, sequence) *)
  sort_values_asc : list (Z * Z) -> list (Z * Z);
  sort_values_asc_perm : forall l, sort_values_asc l ≡ₚ l;
  sort_values_asc_sorted : forall l,
    Sorted (fun a b => a.2 <= b.2) (sort_values_asc l);
  (** the element type of the Series given to [accumulate_values], with its
      [+] and the [sum()] of a selection *)
  V : Type;
  vadd : V -> V -> V;
  vsum : list V -> V
}.

(** ** A host on binary64 floats

    [PyHost.pyhost] takes Python's [float] as Rocq's primitive binary64
    floats, no spatial index (the full scan of [get_sindex]'s last branch),
    a set listed in increasing order of its elements, stable sorts, and a
    Series of integers for [accumulate_values]. *)
Module PyHost.

(** [x ** 2]: the rounded square, [OverflowError] when a finite [x] has a
    square out of range. *)
Definition pow2 (x : float) : result float :=
  let y := PrimFloat.mul x x in
  if PrimFloat.is_finite x && PrimFloat.is_infinity y
  then Raise OverflowError else Ok y.

(** [math.sqrt]: [ValueError] below zero. *)
Definition sqrt (x : float) : result float :=
  if PrimFloat.ltb x PrimFloat.zero then Raise ValueError
  else Ok (PrimFloat.sqrt x).

Definition xy (c : Coord float) : float * float :=
  match c with Coord2 x y => (x, y) | Coord3 x y _ => (x, y) end.

(** the planar distance of two points *)
Definition dist2d (a b : Coord float) : float :=
  let dx := PrimFloat.sub (xy a).1 (xy b).1 in
  let dy := PrimFloat.sub (xy a).2 (xy b).2 in
  PrimFloat.sqrt (PrimFloat.add (PrimFloat.mul dx dx) (PrimFloat.mul dy dy)).

(** the planar length of a line string *)
Fixpoint path_length (c : Coord float) (l : list (Coord float)) : float :=
  match l with
  | [] => PrimFloat.zero
  | c' :: l' => PrimFloat.add (dist2d c c') (path_length c' l')
  end.
Definition length (g : LineString float) : float :=
  path_length (ls_first g) (ls_rest g).

(** the planar distance of the point [p] to the stretch from [a] to [b] *)
Definition stretch_distance (p a b : Coord float) : float :=
  let '(px, py) := xy p in
  let '(ax, ay) := xy a in
  let '(bx, by_) := xy b in
  let ux := PrimFloat.sub bx ax in
  let uy := PrimFloat.sub by_ ay in
  let len2 := PrimFloat.add (PrimFloat.mul ux ux) (PrimFloat.mul uy uy) in
  if PrimFloat.eqb len2 PrimFloat.zero then dist2d p a else
  let r := PrimFloat.div
             (PrimFloat.add (PrimFloat.mul (PrimFloat.sub px ax) ux)
                            (PrimFloat.mul (PrimFloat.sub py ay) uy)) len2 in
  if PrimFloat.leb r PrimFloat.zero then dist2d p a
  else if PrimFloat.leb PrimFloat.one r then dist2d p b
  else
    let s := PrimFloat.div
               (PrimFloat.sub (PrimFloat.mul (PrimFloat.sub ay py) ux)
                              (PrimFloat.mul (PrimFloat.sub ax px) uy)) len2 in
    PrimFloat.mul (PrimFloat.abs s) (PrimFloat.sqrt len2).

Fixpoint path_distance (p c : Coord float) (l : list (Coord float)) : float :=
  match l with
  | [] => dist2d p c
  | c' :: l' =>
      let d := stretch_distance p c c' in
      match l' with
      | [] => d
      | _ :: _ =>
          let d' := path_distance p c' l' in
          if PrimFloat.ltb d' d then d' else d
      end
  end.
Definition distance (g : LineString float) (p : Coord float) : float :=
  path_distance p (ls_first g) (ls_rest g).

(** descending order of the key (num_to_outlet, length_to_outlet) *)
Definition key_before (a b : Z * float) : bool :=
  (b.1 <? a.1) || ((a.1 =? b.1) && PrimFloat.ltb b.2 a.2).

Fixpoint insert_desc (r : Z * (Z * float)) (l : list (Z * (Z * float)))
    : list (Z * (Z * float)) :=
  match l with
  | [] => [r]
  | r' :: l' =>
      if key_before r.2 r'.2 then r :: l else r' :: insert_desc r l'
  end.
Definition sort_desc (l : list (Z * (Z * float))) : list Z :=
  (foldr insert_desc [] l).*1.

Lemma insert_desc_perm r l : insert_desc r l ≡ₚ r :: l.
Proof.
  induction l as [|r' l IH]; simpl; [done|].
  destruct (key_before r.2 r'.2); [done|].
  by rewrite IH, Permutation_swap.
Qed.

Lemma sort_desc_perm l : sort_desc l ≡ₚ l.*1.
Proof.
  unfold sort_desc. apply fmap_Permutation.
  induction l as [|r l IH]; simpl; [done|].
  by rewrite insert_desc_perm, IH.
Qed.

(** ascending order of the sequence number *)
Definition seq_le (a b : Z * Z) : Prop := a.2 <= b.2.
#[local] Instance seq_le_dec a b : Decision (seq_le a b).
Proof. unfold seq_le. apply _. Defined.
#[local] Instance seq_le_total : Total seq_le.
Proof. intros a b. unfold seq_le. lia. Qed.

Definition sort_asc (l : list (Z * Z)) : list (Z * Z) := merge_sort seq_le l.

Lemma sort_asc_perm l : sort_asc l ≡ₚ l.
Proof. apply merge_sort_Permutation. Qed.
Lemma sort_asc_sorted l : Sorted (fun a b => a.2 <= b.2) (sort_asc l).
Proof. apply (Sorted_merge_sort seq_le). Qed.

Lemma no_sindex_sublist
    (rows : list (Z * LineString float))
    (q : float * float -> list (Z * LineString float)) p :
  (None : option (float * float -> list (Z * LineString float))) = Some q ->
  q p `sublist_of` rows.
Proof. discriminate. Qed.

Definition pyhost : Host := {|
  F := float;
  fzero := PrimFloat.zero;
  ftol := 0x1.0c6f7a0b5ed8dp-20%float;   (* 1e-6 *)
  fadd := PrimFloat.add;
  fsub := PrimFloat.sub;
  fmul := PrimFloat.mul;
  fdiv := PrimFloat.div;
  flt := PrimFloat.ltb;
  feq := PrimFloat.eqb;
  fpow2 := pow2;
  fsqrt := sqrt;
  geom_length := length;
  geom_distance := distance;
  point_distance := dist2d;
  sindex_sub := fun _ => None;
  sindex_sub_sublist := no_sindex_sublist;
  list_of_set := elements;
  list_of_set_perm := fun s => reflexivity (elements s);
  sort_values_desc := sort_desc;
  sort_values_desc_perm := sort_desc_perm;
  sort_values_asc := sort_asc;
  sort_values_asc_perm := sort_asc_perm;
  sort_values_asc_sorted := sort_asc_sorted;
  V := Z;
  vadd := Z.add;
  vsum := foldr Z.add 0
|}.

End PyHost.

(** ** The segment table and the network *)

(** Diagnostics: each constructor stands for one message template of the
    source and carries the arguments given to [%]. *)
Inductive Message {F : Type} :=
  | EndMatchesStart2D (segnum1 segnum2 : Z)
      (* 'end of segment %s matches start of segment %s in 2D, but not in Z dimension' *)
  | ConnectsToMiddle (segnum1 segnum2 : Z)
      (* 'segment %s connects to the middle of segment %s' *)
  | MoreThanOneDownstream (segnum1 : Z) (to_segnums : list Z)
      (* 'segment %s has more than one downstream segments: %s' *)
  | StartMatchesStart2D (segnum1 segnum2 : Z)
      (* 'starting segment %s matches start of segment %s in 2D, but not in Z dimension' *)
  | StartCoordinateMatches (key : F * F) (v : gset Z)
      (* 'starting coordinate %s matches start segment%s: %s' *)
  | EndMatchesEnd2D (segnum1 segnum2 : Z)
      (* 'ending segment %s matches end of segment %s in 2D, but not in Z dimension' *)
  | EndCoordinateMatches (key : F * F) (v : gset Z)
      (* 'ending coordinate %s matches end segment%s: %s' *)
  | AdjustingElevations (modified : Z) (segnum : Z).
      (* 'adjusting %d coordinate elevation%s in segment %s' *)
Arguments Message F : clear implicits.

Section Network.
Context {H : Host}.

#[local] Instance F_inhabited : Inhabited F := populate fzero.

(** [self.segments]: the geometry column in index order, and the columns the
    constructor adds; a column is the empty map until it is created. *)
Record Segments := mkSegments {
  geometry : list (Z * LineString F);
  to_segnum : gmap Z Z;
  cat_group : gmap Z Z;
  num_to_outlet : gmap Z Z;
  length_to_outlet : gmap Z F;
  sequence : gmap Z Z;
  stream_order : gmap Z Z
}.

Definition index (seg : Segments) : list Z := (geometry seg).*1.

(** [self.segments[col] = v] *)
Definition column {A} (idx : list Z) (v : A) : gmap Z A :=
  gset_to_gmap v (list_to_set idx).

(** [self.segments.loc[segnum, col] = v] *)
Definition set_to_segnum (k v : Z) (seg : Segments) : Segments :=
  mkSegments (geometry seg) (<[k:=v]> (to_segnum seg)) (cat_group seg)
    (num_to_outlet seg) (length_to_outlet seg) (sequence seg) (stream_order seg).
Definition set_cat_group (k v : Z) (seg : Segments) : Segments :=
  mkSegments (geometry seg) (to_segnum seg) (<[k:=v]> (cat_group seg))
    (num_to_outlet seg) (length_to_outlet seg) (sequence seg) (stream_order seg).
Definition set_num_to_outlet (k v : Z) (seg : Segments) : Segments :=
  mkSegments (geometry seg) (to_segnum seg) (cat_group seg)
    (<[k:=v]> (num_to_outlet seg)) (length_to_outlet seg) (sequence seg)
    (stream_order seg).
Definition set_length_to_outlet (k : Z) (v : F) (seg : Segments) : Segments :=
  mkSegments (geometry seg) (to_segnum seg) (cat_group seg)
    (num_to_outlet seg) (<[k:=v]> (length_to_outlet seg)) (sequence seg)
    (stream_order seg).
Definition set_sequence (k v : Z) (seg : Segments) : Segments :=
  mkSegments (geometry seg) (to_segnum seg) (cat_group seg)
    (num_to_outlet seg) (length_to_outlet seg) (<[k:=v]> (sequence seg))
    (stream_order seg).
Definition set_stream_order (k v : Z) (seg : Segments) : Segments :=
  mkSegments (geometry seg) (to_segnum seg) (cat_group seg)
    (num_to_outlet seg) (length_to_outlet seg) (sequence seg)
    (<[k:=v]> (stream_order seg)).
(** [self.segments.loc[segnum, geom_name] = g] *)
Definition set_geometry (k : Z) (g : LineString F) (seg : Segments) : Segments :=
  mkSegments (series_set k g (geometry seg)) (to_segnum seg) (cat_group seg)
    (num_to_outlet seg) (length_to_outlet seg) (sequence seg)
    (stream_order seg).

Record SurfaceWaterNetwork := mkNetwork {
  segments : Segments;
  END_SEGNUM : Z;
  upstream_segnums : gmap Z (gset Z);
  warnings : list (Message F);
  errors : list (Message F);
  messages : list (Message F);
  profiles : list (LineString F)
}.

(** [min()] and [max()] of a column or list that is not empty *)
Definition zmin_list (l : list Z) : Z :=
  match l with [] => 0 | x :: l' => foldr Z.min x l' end.
Definition zmax_list (l : list Z) : Z :=
  match l with [] => 0 | x :: l' => foldr Z.max x l' end.

(** [self.index[self.segments['to_segnum'] == segnum]] *)
Definition index_where_to (seg : Segments) (segnum : Z) : list Z :=
  filter (fun k => to_segnum seg !!! k = segnum) (index seg).

(** the property [headwater]:
    [self.index[~self.index.isin(self.segments['to_segnum'])]] *)
Definition to_segnum_values (seg : Segments) : list Z :=
  (fun k => to_segnum seg !!! k) <$> index seg.
Definition headwater (seg : Segments) : list Z :=
  filter (fun k => k ∉ to_segnum_values seg) (index seg).

(** the property [outlets] *)
Definition outlets (seg : Segments) (END : Z) : list Z :=
  index_where_to seg END.

(** ** Connectivity: where the downstream end of each segment connects to *)

Definition coord_xy (c : Coord F) : F * F :=
  match c with Coord2 x y => (x, y) | Coord3 x y _ => (x, y) end.

(** [==] of two coordinate tuples *)
Definition coord_eqb (a b : Coord F) : bool :=
  match a, b with
  | Coord2 x y, Coord2 x' y' => feq x x' && feq y y'
  | Coord3 x y z, Coord3 x' y' z' => feq x x' && feq y y' && feq z z'
  | _, _ => false
  end.
Definition xy_eqb (a b : F * F) : bool := feq a.1 b.1 && feq a.2 b.2.

(** The body of the inner loop over [sub] (lines 158-176): the matches
    [to_segnums] found so far, with [self.warnings] and [self.errors]. *)
Definition connect_step (segnum1 : Z) (end1_coord : Coord F)
    (acc : list Z * list (Message F) * list (Message F))
    (row2 : Z * LineString F) : list Z * list (Message F) * list (Message F) :=
  let '(to_segnums, warns, errs) := acc in
  let segnum2 := row2.1 in
  let geom2 := row2.2 in
  if segnum1 =? segnum2 then acc else
  let start2_coord := coords_start geom2 in
  let end2_coord := coords_end geom2 in
  if coord_eqb end1_coord start2_coord then
    (to_segnums ++ [segnum2], warns, errs)
  else if xy_eqb (coord_xy end1_coord) (coord_xy start2_coord) then
    (to_segnums ++ [segnum2], warns ++ [EndMatchesStart2D segnum1 segnum2], errs)
  else if flt (geom_distance geom2 end1_coord) ftol
          && flt ftol (point_distance end2_coord end1_coord) then
    (to_segnums, warns, errs ++ [ConnectsToMiddle segnum1 segnum2])
  else acc.

(** the rows scanned for one downstream end *)
Definition candidates (seg : Segments)
    (sindex : option (F * F -> list (Z * LineString F))) (c : Coord F)
    : list (Z * LineString F) :=
  match sindex with
  | Some q => q (coord_xy c)
  | None => geometry seg
  end.

(** The body of the outer loop (lines 148-183). *)
Definition connect_segment
    (sindex : option (F * F -> list (Z * LineString F)))
    (st : Segments * list (Message F) * list (Message F))
    (row1 : Z * LineString F) : Segments * list (Message F) * list (Message F) :=
  let '(seg, warns, errs) := st in
  let segnum1 := row1.1 in
  let end1_coord := coords_end row1.2 in
  let sub := candidates seg sindex end1_coord in
  let '(to_segnums, warns, errs) :=
    foldl (connect_step segnum1 end1_coord) ([], warns, errs) sub in
  let errs :=
    if 1 <? Z.of_nat (length to_segnums)
    then errs ++ [MoreThanOneDownstream segnum1 to_segnums] else errs in
  let seg :=
    match to_segnums with
    | t :: _ => set_to_segnum segnum1 t seg
    | [] => seg
    end in
  (seg, warns, errs).

Definition connect_all (sindex : option (F * F -> list (Z * LineString F)))
    (seg : Segments) : Segments * list (Message F) * list (Message F) :=
  foldl (connect_segment sindex) (seg, [], []) (geometry seg).

(** ** Upstream recursion from the outlets *)

Definition geometry_at (seg : Segments) (segnum : Z) : result (LineString F) :=
  from_option KeyError (series_get segnum (geometry seg)).

(** [resurse_upstream] (lines 193-201).  [stack] is the number of nested
    activations of [resurse_upstream] that the interpreter still allows:
    Python raises [RecursionError] when a call would exceed it.  It is not
    the recursion limit of the interpreter: the limit counts the frames of
    every function, those of the callers of the constructor and of what the
    body calls in pandas among them, so [stack] is less than the limit, by a
    number that depends on the host. *)
Fixpoint resurse_upstream (stack : nat) (seg : Segments)
    (segnum cat_group num : Z) (length : F) : result Segments :=
  match stack with
  | O => Raise RecursionError
  | S stack' =>
      let seg := set_cat_group segnum cat_group seg in
      let num := num + 1 in
      let seg := set_num_to_outlet segnum num seg in
      geom ← geometry_at seg segnum;
      let length := fadd length (geom_length geom) in
      let seg := set_length_to_outlet segnum length seg in
      foldM (fun seg upsegnum =>
               resurse_upstream stack' seg upsegnum cat_group num length)
            (index_where_to seg segnum) seg
  end.

Definition traverse_outlets (stack : nat) (END : Z) (seg : Segments)
    : result Segments :=
  foldM (fun seg segnum => resurse_upstream stack seg segnum segnum 0 fzero)
        (outlets seg END) seg.

(** ** Headwater and outlet segments with common locations *)

(** [self.segments.loc[labels]], for labels of the index *)
Definition rows_at (seg : Segments) (labels : list Z) : list (Z * LineString F) :=
  omap (fun k => pair k <$> series_get k (geometry seg)) labels.

(** [start_coords] and [end_coords]: a dict from a 2D coordinate to a set of
    segment numbers, in insertion order *)
Definition coord_dict := list (F * F * gset Z).

Definition coord_dict_add (key : F * F) (segnum2 : Z) (d : coord_dict) : coord_dict :=
  if existsb (fun e => xy_eqb e.1 key) d
  then (fun e : F * F * gset Z =>
          if xy_eqb e.1 key then (e.1, {[segnum2]} ∪ e.2) else e) <$> d
  else d ++ [(key, {[segnum2]})].

(** The inner loops of lines 221-238 and 255-272: [pick] takes the start (or
    the end) coordinate of the other segment, [warn] builds the warning. *)
Definition common_step (pick : LineString F -> Coord F)
    (warn : Z -> Z -> Message F) (segnum1 : Z) (coord1 : Coord F)
    (acc : coord_dict * list (Message F)) (row2 : Z * LineString F)
    : coord_dict * list (Message F) :=
  let '(d, warns) := acc in
  let segnum2 := row2.1 in
  if segnum1 =? segnum2 then acc else
  let coord2 := pick row2.2 in
  if coord_eqb coord1 coord2 then
    (coord_dict_add (coord_xy coord1) segnum2 d, warns)
  else if xy_eqb (coord_xy coord1) (coord_xy coord2) then
    (coord_dict_add (coord_xy coord1) segnum2 d, warns ++ [warn segnum1 segnum2])
  else acc.

Definition common_locations (pick : LineString F -> Coord F)
    (warn : Z -> Z -> Message F) (seg : Segments)
    (sindex : option (F * F -> list (Z * LineString F)))
    (labels : list Z) (warns : list (Message F))
    : coord_dict * list (Message F) :=
  foldl (fun acc row1 =>
           let coord1 := pick row1.2 in
           foldl (common_step pick warn row1.1 coord1) acc
                 (candidates seg sindex coord1))
        ([], warns) (rows_at seg labels).

(** ** The downstream sequence and the stream order *)

(** the rows given to [sort_values(search_order, ascending=False)] *)
Definition key_rows (seg : Segments) (labels : list Z) : list (Z * (Z * F)) :=
  (fun k => (k, (num_to_outlet seg !!! k, length_to_outlet seg !!! k))) <$> labels.

(** lines 294-297 *)
Definition build_upstream_segnums (seg : Segments) (END : Z) : gmap Z (gset Z) :=
  foldl (fun (m : gmap Z (gset Z)) segnum =>
           <[segnum := list_to_set (index_where_to seg segnum)]> m)
        ∅ (list_of_set (list_to_set (to_segnum_values seg) ∖ {[END]})).

(** lines 313-321: the order of a segment from the orders [up_ord] of its
    upstream segments; [max] of an empty list raises. *)
Definition stream_order_of (up_ord : list Z) : result Z :=
  match up_ord with
  | [] => Raise ValueError
  | _ :: _ =>
      let max_ord := zmax_list up_ord in
      if 1 <? Z.of_nat (length (filter (fun o => o = max_ord) up_ord))
      then Ok (max_ord + 1)
      else Ok max_ord
  end.

(** The state of the loop of lines 300-324: the table, the set [completed]
    and the counter [sequence]. *)
Record SeqState := mkSeqState {
  ss_segments : Segments;
  ss_completed : gset Z;
  ss_sequence : Z
}.

(** the body of the loop over [downstream_sorted] (lines 308-322) *)
Definition sequence_segment (ups : gmap Z (gset Z)) (st : SeqState) (segnum : Z)
    : result SeqState :=
  up ← from_option KeyError (ups !! segnum);
  if decide (up ⊆ ss_completed st) then
    let sequence := ss_sequence st + 1 in
    let seg := set_sequence segnum sequence (ss_segments st) in
    let up_ord := (fun u => stream_order seg !!! u) <$> list_of_set up in
    ord ← stream_order_of up_ord;
    let seg := set_stream_order segnum ord seg in
    Ok (mkSeqState seg ({[segnum]} ∪ ss_completed st) sequence)
  else Ok st.

(** lines 302-307 *)
Definition downstream_of (END : Z) (st : SeqState) : gset Z :=
  set_map (fun k => to_segnum (ss_segments st) !!! k) (ss_completed st)
    ∖ (ss_completed st ∪ {[END]}).

Definition sequence_iteration (END : Z) (ups : gmap Z (gset Z)) (st : SeqState)
    : result SeqState :=
  let downstream_sorted :=
    sort_values_desc
      (key_rows (ss_segments st) (list_of_set (downstream_of END st))) in
  foldM (sequence_segment ups) downstream_sorted st.

(** [self.segments['sequence'].min() > 0] *)
Definition sequence_done (seg : Segments) : bool :=
  0 <? zmin_list ((fun k => sequence seg !!! k) <$> index seg).

(** the loop [for numiter in range(1, n + 1)] with its [break] *)
Fixpoint sequence_loop (n : nat) (END : Z) (ups : gmap Z (gset Z)) (st : SeqState)
    : result SeqState :=
  match n with
  | O => Ok st
  | S n' =>
      st' ← sequence_iteration END ups st;
      if sequence_done (ss_segments st') then Ok st'
      else sequence_loop n' END ups st'
  end.

(** lines 288-291: the Series [sequence] over the sorted headwater, written
    into the table with stream order 1 *)
Definition number_headwater (furthest_upstream : list Z) (seg : Segments) : Segments :=
  let sequence : Series Z :=
    zip furthest_upstream (seqZ 1 (Z.of_nat (length furthest_upstream))) in
  let seg := foldl (fun seg r => set_sequence r.1 r.2 seg) seg sequence in
  foldl (fun seg k => set_stream_order k 1 seg) seg (series_index sequence).

Definition with_outlet_columns (END : Z) (seg : Segments) : Segments :=
  mkSegments (geometry seg) (to_segnum seg) (column (index seg) END)
    (column (index seg) 0) (column (index seg) fzero) (sequence seg)
    (stream_order seg).
Definition with_sequence_columns (seg : Segments) : Segments :=
  mkSegments (geometry seg) (to_segnum seg) (cat_group seg)
    (num_to_outlet seg) (length_to_outlet seg) (column (index seg) 0)
    (column (index seg) 0).

(** ** The constructor *)

(** lines 136-143: the table with the geometry and [to_segnum] set to
    [END_SEGNUM] *)
Definition initial_segments (lines : list (Z * LineString F)) (END : Z) : Segments :=
  mkSegments lines (column lines.*1 END) ∅ ∅ ∅ ∅ ∅.

(** lines 139-142 *)
Definition end_segnum (idx : list Z) : Z :=
  if 0 <? zmin_list idx then 0 else zmin_list idx - 1.

(** [SurfaceWaterNetwork.__init__] on the GeoSeries [lines], with [stack]
    nested activations of [resurse_upstream] allowed. *)
Definition init (stack : nat) (lines : list (Z * LineString F))
    : result SurfaceWaterNetwork :=
  if decide (lines = []) then Raise ValueError else
  let idx := lines.*1 in
  let sindex := sindex_sub lines in
  let END := end_segnum idx in
  let seg := initial_segments lines END in
  let '(seg, warns, errs) := connect_all sindex seg in
  let outlets := outlets seg END in
  let seg := with_outlet_columns END seg in
  seg ← traverse_outlets stack END seg;
  let headwater := headwater seg in
  let '(start_coords, warns) :=
    common_locations coords_start StartMatchesStart2D seg sindex headwater warns in
  let errs := errs ++ ((fun e => StartCoordinateMatches e.1 e.2) <$> start_coords) in
  let '(end_coords, warns) :=
    common_locations coords_end EndMatchesEnd2D seg sindex outlets warns in
  let warns := warns ++ ((fun e => EndCoordinateMatches e.1 e.2) <$> end_coords) in
  let seg := with_sequence_columns seg in
  let furthest_upstream := sort_values_desc (key_rows seg headwater) in
  let seg := number_headwater furthest_upstream seg in
  let ups := build_upstream_segnums seg END in
  let completed : gset Z := list_to_set headwater in
  (* int(sequence.max()) of an empty Series is int(nan) *)
  sequence ← (if decide (furthest_upstream = []) then Raise ValueError
              else Ok (Z.of_nat (length furthest_upstream)));
  let n := zmax_list ((fun k => num_to_outlet seg !!! k) <$> index seg) in
  st ← sequence_loop (Z.to_nat n) END ups (mkSeqState seg completed sequence);
  (* [numiter] is read after the loop and is unbound when the range is empty *)
  if n <? 1 then Raise UnboundLocalError else
  Ok (mkNetwork (ss_segments st) END ups warns errs [] []).

(** ** accumulate_values *)

(** [len(a) != len(b) or not (a == b).all()] for two indexes *)
Definition index_differs (a b : list Z) : bool :=
  negb (length a =? length b)%nat
  || negb (forallb (fun p : Z * Z => p.1 =? p.2) (zip a b)).

(** the body of the loop of lines 417-421 *)
Definition accumulate_segment (ups : gmap Z (gset Z)) (accum : Series V)
    (segnum : Z) : result (Series V) :=
  match ups !! segnum with
  | Some up =>
      let upstream_segnums := list_of_set up in
      match upstream_segnums with
      | [] => Ok accum
      | _ :: _ =>
          own ← from_option KeyError (series_get segnum accum);
          vals ← mapM (fun u => from_option KeyError (series_get u accum))
                      upstream_segnums;
          Ok (series_set segnum (vadd own (vsum vals)) accum)
      end
  | None => Ok accum
  end.

Definition sequence_rows (seg : Segments) : list (Z * Z) :=
  (fun k => (k, sequence seg !!! k)) <$> index seg.

Definition accumulate_values (net : SurfaceWaterNetwork) (values : Series V)
    : result (Series V) :=
  if index_differs (series_index values) (index (segments net))
  then Raise ValueError
  else
    let accum := values in
    foldM (accumulate_segment (upstream_segnums net))
          (sort_values_asc (sequence_rows (segments net))).*1 accum.

(** ** adjust_elevation_profile *)

(** the argument [min_slope]: a float or a Series *)
Inductive MinSlope :=
  | GlobalSlope (m : F)
  | SegmentSlope (s : Series F).

(** [sqrt((x0 - x1) ** 2 + (y0 - y1) ** 2)] *)
Definition planar_run (x0 y0 x1 y1 : F) : result F :=
  a ← fpow2 (fsub x0 x1);
  b ← fpow2 (fsub y0 y1);
  fsqrt (fadd a b).

(** [LineString(coords)] *)
Definition line_string (l : list (Coord F)) : result (LineString F) :=
  match l with
  | [] => Raise ValueError
  | c :: r => Ok (mkLineString c r)
  end.

(** The variables of the loop of lines 454-465. *)
Record Walk := mkWalk {
  w_idx : nat;
  w_x0 : F;
  w_y0 : F;
  w_z0 : F;
  w_dist : F;
  w_modified : Z;
  w_coords : list (Coord F);
  w_profile : list (Coord F)
}.

Definition adjust_step (min_slope : Series F) (segnum : Z) (w : Walk)
    (c1 : Coord F) : result Walk :=
  match c1 with
  | Coord2 _ _ => Raise ValueError
  | Coord3 x1 y1 z1 =>
      let dz := fsub (w_z0 w) z1 in
      dx ← planar_run (w_x0 w) (w_y0 w) x1 y1;
      let dist := fsub (w_dist w) dx in
      if feq dx fzero then Raise ZeroDivisionError else
      let slope := fdiv dz dx in
      m ← from_option KeyError (series_get segnum min_slope);
      if flt slope m then
        let z1 := fsub (w_z0 w) (fmul dx m) in
        Ok (mkWalk (S (w_idx w)) x1 y1 z1 dist (w_modified w + 1)
              (<[w_idx w := Coord3 x1 y1 z1]> (w_coords w))
              (w_profile w ++ [Coord2 dist z1]))
      else
        Ok (mkWalk (S (w_idx w)) x1 y1 z1 dist (w_modified w)
              (w_coords w) (w_profile w ++ [Coord2 dist z1]))
  end.

(** the walk along one segment (lines 449-465) *)
Definition adjust_walk (min_slope : Series F) (segnum : Z) (geom : LineString F)
    : result Walk :=
  match ls_first geom with
  | Coord2 _ _ => Raise ValueError
  | Coord3 x0 y0 z0 =>
      let dist := geom_length geom in
      foldM (adjust_step min_slope segnum) (ls_rest geom)
            (mkWalk 1 x0 y0 z0 dist 0 (coords geom) [Coord2 dist z0])
  end.

(** the body of the loop over the segments (lines 448-473) *)
Definition adjust_segment (min_slope : Series F)
    (st : Segments * list (Message F) * list (LineString F))
    (row : Z * LineString F)
    : result (Segments * list (Message F) * list (LineString F)) :=
  let '(seg, msgs, profs) := st in
  let segnum := row.1 in
  w ← adjust_walk min_slope segnum row.2;
  let msgs :=
    if 0 <? w_modified w
    then msgs ++ [AdjustingElevations (w_modified w) segnum] else msgs in
  seg ← (if w_modified w =? 0 then Ok seg
         else g ← line_string (w_coords w); Ok (set_geometry segnum g seg));
  prof ← line_string (w_profile w);
  Ok (seg, msgs, profs ++ [prof]).

(** lines 434-438: [min_slope] as a Series over the index *)
Definition min_slope_series (seg : Segments) (min_slope : MinSlope)
    : result (Series F) :=
  match min_slope with
  | GlobalSlope m => Ok ((fun k => (k, m)) <$> index seg)
  | SegmentSlope s =>
      if index_differs (series_index s) (index seg) then Raise ValueError
      else Ok s
  end.

Definition adjust_elevation_profile (net : SurfaceWaterNetwork) (min_slope : MinSlope)
    : result SurfaceWaterNetwork :=
  let seg := segments net in
  min_slope ← min_slope_series seg min_slope;
  if existsb (fun r : Z * F => flt r.2 fzero) min_slope then Raise ValueError
  else if negb (forallb (fun r : Z * LineString F => geom_has_z r.2) (geometry seg))
  then Raise AttributeError
  else
    r ← foldM (adjust_segment min_slope) (geometry seg) (seg, [], []);
    Ok (mkNetwork r.1.1 (END_SEGNUM net) (upstream_segnums net)
          (warnings net) (errors net) r.1.2 r.2).

(** * Properties *)

(** ** Results and loops *)

Lemma bind_Ok {A B} (m : result A) (f : A -> result B) b :
  m ≫= f = Ok b <-> exists a, m = Ok a /\ f a = Ok b.
Proof.
  destruct m as [a|e]; simpl; split.
  - intros Hf. by exists a.
  - by intros (a' & [= ->] & Hf).
  - discriminate.
  - by intros (a' & [=] & _).
Qed.

Lemma from_option_Ok {A} e (o : option A) a :
  from_option e o = Ok a <-> o = Some a.
Proof. destruct o; simpl; split; congruence. Qed.

Lemma foldM_app {A B} (f : B -> A -> result B) l1 l2 acc :
  foldM f (l1 ++ l2) acc = foldM f l1 acc ≫= foldM f l2.
Proof.
  revert acc. induction l1 as [|x l1 IH]; intros acc; simpl; [done|].
  destruct (f acc x) as [acc'|e]; simpl; [apply IH|done].
Qed.

(** An invariant of the loop holds of its result. *)
Lemma foldM_invariant {A B} (P : B -> Prop) (f : B -> A -> result B) l acc r :
  (forall acc x acc', x ∈ l -> P acc -> f acc x = Ok acc' -> P acc') ->
  P acc -> foldM f l acc = Ok r -> P r.
Proof.
  revert acc. induction l as [|x l IH]; intros acc Hstep HP; simpl.
  - by intros [= <-].
  - intros (acc' & Hx & Hr)%bind_Ok.
    apply (IH acc'); [|by eapply Hstep; [left|..]|done].
    intros a y a' Hy. apply Hstep. by right.
Qed.

(** A loop whose body returns under the invariant returns. *)
Lemma foldM_total {A B} (P : B -> Prop) (f : B -> A -> result B) l acc :
  (forall acc x, x ∈ l -> P acc -> exists acc', f acc x = Ok acc' /\ P acc') ->
  P acc -> exists r, foldM f l acc = Ok r /\ P r.
Proof.
  revert acc. induction l as [|x l IH]; intros acc Hstep HP; simpl.
  - by exists acc.
  - destruct (Hstep acc x) as (acc' & -> & HP'); [by left|done|]. simpl.
    apply IH; [|done]. intros a y Hy. apply Hstep. by right.
Qed.

(** ** Series *)

Lemma series_get_Some {A} k (s : Series A) :
  k ∈ series_index s <-> is_Some (series_get k s).
Proof.
  unfold series_index. induction s as [|[k' v] s IH]; simpl.
  - split; [by intros ?%elem_of_nil|by intros [? [=]]].
  - rewrite elem_of_cons. destruct (Z.eqb_spec k' k) as [->|Hne].
    + split; [by eexists|by left].
    + rewrite <- IH. split; [intros [?|?]; [congruence|done]|by right].
Qed.

Lemma series_get_elem_of {A} k v (s : Series A) :
  series_get k s = Some v -> (k, v) ∈ s.
Proof.
  induction s as [|[k' v'] s IH]; simpl; [done|].
  destruct (Z.eqb_spec k' k) as [->|Hne].
  - intros [= ->]. by left.
  - intros ?. right. by apply IH.
Qed.

Lemma series_get_NoDup {A} k v (s : Series A) :
  NoDup (series_index s) -> (k, v) ∈ s -> series_get k s = Some v.
Proof.
  unfold series_index. induction s as [|[k' v'] s IH]; simpl.
  - by intros _ ?%elem_of_nil.
  - intros [Hk' Hnd]%NoDup_cons [[= -> ->]|Hin]%elem_of_cons.
    + by rewrite Z.eqb_refl.
    + destruct (Z.eqb_spec k' k) as [->|Hne]; [|by apply IH].
      destruct Hk'. apply list_elem_of_fmap. by exists (k, v).
Qed.

Lemma series_index_set {A} k (v : A) s :
  series_index (series_set k v s) = series_index s.
Proof.
  unfold series_index, series_set. rewrite <- list_fmap_compose.
  apply list_fmap_ext. intros _ [k' v'] _. simpl. by destruct (k' =? k).
Qed.

Lemma series_get_set {A} k k' (v : A) s :
  series_get k' (series_set k v s)
  = if decide (k = k') then (fun _ => v) <$> series_get k' s
    else series_get k' s.
Proof.
  induction s as [|[k0 v0] s IH]; simpl.
  - by destruct (decide _).
  - destruct (Z.eqb_spec k0 k) as [->|Hne]; simpl.
    + destruct (Z.eqb_spec k k') as [->|Hne']; [by rewrite decide_True|done].
    + destruct (Z.eqb_spec k0 k') as [->|Hne']; [by rewrite decide_False|done].
Qed.

(** ** Columns *)

Lemma column_lookup {A} `{!Inhabited A} (idx : list Z) (v : A) k :
  k ∈ idx -> column idx v !!! k = v.
Proof.
  intros Hk. unfold column. rewrite lookup_total_alt, lookup_gset_to_gmap.
  rewrite option_guard_True; [done|]. by apply elem_of_list_to_set.
Qed.

(** ** The elevation profile *)

(** The walk along one line, as a relation: from the upstream coordinate
    [c0], the coordinates [l] become [l'] with [n] elevations rewritten. *)
Inductive enforced (m : F) : Coord F -> list (Coord F) -> list (Coord F) -> Z -> Prop :=
  | enforced_nil c : enforced m c [] [] 0
  | enforced_keep x0 y0 z0 x1 y1 z1 dx l l' n :
      planar_run x0 y0 x1 y1 = Ok dx ->
      feq dx fzero = false ->
      flt (fdiv (fsub z0 z1) dx) m = false ->
      enforced m (Coord3 x1 y1 z1) l l' n ->
      enforced m (Coord3 x0 y0 z0) (Coord3 x1 y1 z1 :: l) (Coord3 x1 y1 z1 :: l') n
  | enforced_rewrite x0 y0 z0 x1 y1 z1 dx l l' n :
      planar_run x0 y0 x1 y1 = Ok dx ->
      feq dx fzero = false ->
      flt (fdiv (fsub z0 z1) dx) m = true ->
      enforced m (Coord3 x1 y1 (fsub z0 (fmul dx m))) l l' n ->
      enforced m (Coord3 x0 y0 z0) (Coord3 x1 y1 z1 :: l)
        (Coord3 x1 y1 (fsub z0 (fmul dx m)) :: l') (n + 1).

Lemma enforced_length m c l l' n : enforced m c l l' n -> length l' = length l.
Proof. induction 1; simpl; congruence. Qed.

Lemma enforced_count m c l l' n : enforced m c l l' n -> 0 <= n.
Proof. induction 1; lia. Qed.

Lemma adjust_steps_enforced min_slope segnum m rest :
  series_get segnum min_slope = Some m ->
  forall w pre w',
    foldM (adjust_step min_slope segnum) rest w = Ok w' ->
    w_coords w = pre ++ rest ->
    length pre = w_idx w ->
    exists rest' n,
      w_coords w' = pre ++ rest'
      /\ w_modified w' = w_modified w + n
      /\ enforced m (Coord3 (w_x0 w) (w_y0 w) (w_z0 w)) rest rest' n.
Proof.
  intros Hm. induction rest as [|c1 rest IH]; intros w pre w' Hw Hc Hlen.
  - injection Hw as <-. exists [], 0. split_and!; [done|lia|constructor].
  - simpl in Hw. apply bind_Ok in Hw as (w1 & Hstep & Hw).
    unfold adjust_step in Hstep. destruct c1 as [|x1 y1 z1]; [done|].
    apply bind_Ok in Hstep as (dx & Hdx & Hstep).
    destruct (feq dx fzero) eqn:Hnz; [done|].
    rewrite Hm in Hstep. simpl in Hstep.
    destruct (flt _ m) eqn:Hlt; injection Hstep as <-.
    + destruct (IH _ (pre ++ [Coord3 x1 y1 (fsub (w_z0 w) (fmul dx m))]) _ Hw)
        as (rest' & n & Hc' & Hn & Henf).
      * simpl. rewrite Hc, <- Hlen.
        replace (length pre) with (length pre + 0)%nat by lia.
        rewrite insert_app_r. simpl. by rewrite <- app_assoc.
      * rewrite length_app. simpl. lia.
      * simpl in *. eexists (_ :: rest'), (n + 1). split_and!.
        -- by rewrite Hc', <- app_assoc.
        -- lia.
        -- by eapply enforced_rewrite.
    + destruct (IH _ (pre ++ [Coord3 x1 y1 z1]) _ Hw)
        as (rest' & n & Hc' & Hn & Henf).
      * simpl. by rewrite Hc, <- app_assoc.
      * rewrite length_app. simpl. lia.
      * simpl in *. eexists (_ :: rest'), n. split_and!.
        -- by rewrite Hc', <- app_assoc.
        -- lia.
        -- by eapply enforced_keep.
Qed.

(** The walk returns when every run is defined and not zero. *)
Definition run_nonzero (c0 c1 : Coord F) : Prop :=
  exists dx, planar_run (coord_xy c0).1 (coord_xy c0).2
               (coord_xy c1).1 (coord_xy c1).2 = Ok dx
             /\ feq dx fzero = false.

Definition runs_nonzero (g : LineString F) : Prop :=
  forall i c0 c1,
    coords g !! i = Some c0 -> coords g !! S i = Some c1 -> run_nonzero c0 c1.

Lemma adjust_steps_total min_slope segnum m rest :
  series_get segnum min_slope = Some m ->
  Forall (fun c => coord_has_z c = true) rest ->
  forall w c,
    coord_xy c = (w_x0 w, w_y0 w) ->
    (forall i c0 c1,
        (c :: rest) !! i = Some c0 -> rest !! i = Some c1 -> run_nonzero c0 c1) ->
    exists w', foldM (adjust_step min_slope segnum) rest w = Ok w'.
Proof.
  intros Hm. induction 1 as [|c1 rest Hz Hrest IH]; intros w c Hc Hruns.
  - by eexists.
  - destruct c1 as [|x1 y1 z1]; [done|].
    destruct (Hruns 0%nat _ _ eq_refl eq_refl) as (dx & Hdx & Hdx0).
    rewrite Hc in Hdx. simpl in Hdx |- *. rewrite Hdx. simpl.
    rewrite Hdx0, Hm. simpl.
    destruct (flt _ m); simpl; apply (IH _ (Coord3 x1 y1 z1)); try done.
    all: intros i c0 c1 H0 H1; by apply (Hruns (S i)).
Qed.

(** What the pass does to one line [g] under the minimum slope [m]: the
    first coordinate stays, and each next elevation is rewritten to the
    upstream elevation (as the walk left it) minus run times [m] when the
    slope from there is below [m], and stays otherwise. *)
Definition enforces_min_slope (m : F) (g g' : LineString F) : Prop :=
  length (coords g') = length (coords g)
  /\ ls_first g' = ls_first g
  /\ forall i x0 y0 z0 x1 y1 z1 dx,
       coords g' !! i = Some (Coord3 x0 y0 z0) ->
       coords g !! S i = Some (Coord3 x1 y1 z1) ->
       planar_run x0 y0 x1 y1 = Ok dx ->
       coords g' !! S i =
         Some (Coord3 x1 y1
                 (if flt (fdiv (fsub z0 z1) dx) m
                  then fsub z0 (fmul dx m) else z1)).

(** The slope of [g] is not below [m] at any pair of consecutive coordinates. *)
Definition meets_min_slope (m : F) (g : LineString F) : Prop :=
  forall i x0 y0 z0 x1 y1 z1 dx,
    coords g !! i = Some (Coord3 x0 y0 z0) ->
    coords g !! S i = Some (Coord3 x1 y1 z1) ->
    planar_run x0 y0 x1 y1 = Ok dx ->
    flt (fdiv (fsub z0 z1) dx) m = false.

Lemma enforced_lookup m c0 l l' n :
  enforced m c0 l l' n ->
  forall i x0 y0 z0 x1 y1 z1 dx,
    (c0 :: l') !! i = Some (Coord3 x0 y0 z0) ->
    l !! i = Some (Coord3 x1 y1 z1) ->
    planar_run x0 y0 x1 y1 = Ok dx ->
    l' !! i =
      Some (Coord3 x1 y1
              (if flt (fdiv (fsub z0 z1) dx) m then fsub z0 (fmul dx m) else z1)).
Proof.
  induction 1 as [c|a0 b0 c0 a1 b1 c1 d l l' n Hd Hnz Hlt Henf IH
                   |a0 b0 c0 a1 b1 c1 d l l' n Hd Hnz Hlt Henf IH];
    intros i x0 y0 z0 x1 y1 z1 dx H0 H1 Hdx.
  - by destruct i.
  - destruct i as [|i]; simpl in *.
    + injection H0 as -> -> ->. injection H1 as -> -> ->.
      rewrite Hd in Hdx. injection Hdx as <-. by rewrite Hlt.
    + by eapply IH.
  - destruct i as [|i]; simpl in *.
    + injection H0 as -> -> ->. injection H1 as -> -> ->.
      rewrite Hd in Hdx. injection Hdx as <-. by rewrite Hlt.
    + by eapply IH.
Qed.

Lemma enforced_zero m c l l' n : enforced m c l l' n -> n = 0 -> l' = l.
Proof.
  induction 1 as [| |? ? ? ? ? ? ? ? ? n ? ? ? Henf IH]; intros Hn.
  - done.
  - f_equal. auto.
  - apply enforced_count in Henf. lia.
Qed.

Lemma enforced_meets m c0 l l' n :
  enforced m c0 l l' n ->
  (forall i x0 y0 z0 x1 y1 z1 dx,
      (c0 :: l) !! i = Some (Coord3 x0 y0 z0) ->
      l !! i = Some (Coord3 x1 y1 z1) ->
      planar_run x0 y0 x1 y1 = Ok dx ->
      flt (fdiv (fsub z0 z1) dx) m = false) ->
  n = 0.
Proof.
  induction 1 as [|? ? ? ? ? ? ? ? ? ? ? ? ? ? IH|? ? ? ? ? ? ? ? ? ? Hd ? Hlt];
    intros Hmeets.
  - done.
  - apply IH. intros i. apply (Hmeets (S i)).
  - specialize (Hmeets 0%nat _ _ _ _ _ _ _ eq_refl eq_refl Hd). congruence.
Qed.

Lemma adjust_walk_enforced min_slope segnum m g w :
  series_get segnum min_slope = Some m ->
  adjust_walk min_slope segnum g = Ok w ->
  exists rest',
    w_coords w = ls_first g :: rest'
    /\ enforced m (ls_first g) (ls_rest g) rest' (w_modified w).
Proof.
  intros Hm. unfold adjust_walk.
  destruct (ls_first g) as [|x0 y0 z0] eqn:Hfirst; [done|]. intros Hw.
  destruct (adjust_steps_enforced _ _ _ _ Hm _ [Coord3 x0 y0 z0] _ Hw)
    as (rest' & n & Hc & Hn & Henf).
  - unfold coords. by rewrite Hfirst.
  - done.
  - simpl in *. exists rest'. split; [done|].
    by replace (w_modified w) with n by lia.
Qed.

Lemma adjust_walk_spec min_slope segnum m g w :
  series_get segnum min_slope = Some m ->
  adjust_walk min_slope segnum g = Ok w ->
  exists g',
    line_string (w_coords w) = Ok g'
    /\ enforces_min_slope m g g'
    /\ (w_modified w = 0 -> g' = g)
    /\ (meets_min_slope m g -> w_modified w = 0)
    /\ 0 <= w_modified w.
Proof.
  intros Hm Hw.
  destruct (adjust_walk_enforced _ _ _ _ _ Hm Hw) as (rest' & Hc & Henf).
  exists (mkLineString (ls_first g) rest'). rewrite Hc. split_and!.
  - done.
  - split_and!; [|done|].
    + unfold coords. simpl. by rewrite (enforced_length _ _ _ _ _ Henf).
    + intros i x0 y0 z0 x1 y1 z1 dx H0 H1 Hdx. unfold coords in *.
      simpl in *. by eapply (enforced_lookup _ _ _ _ _ Henf).
  - intros Hn. rewrite (enforced_zero _ _ _ _ _ Henf Hn). by destruct g.
  - intros Hmeets. eapply enforced_meets; [done|]. apply Hmeets.
  - by eapply enforced_count.
Qed.

Lemma adjust_steps_profile min_slope segnum rest w w' :
  foldM (adjust_step min_slope segnum) rest w = Ok w' ->
  w_profile w <> [] -> w_profile w' <> [].
Proof.
  intros Hw Hne. revert Hne Hw.
  apply (foldM_invariant (fun w => w_profile w <> [])).
  intros w0 c w1 _ Hne. unfold adjust_step. destruct c as [|x1 y1 z1]; [done|].
  intros (dx & _ & Hstep)%bind_Ok.
  destruct (feq dx fzero); [done|].
  apply bind_Ok in Hstep as (m & _ & Hstep).
  destruct (flt _ m); injection Hstep as <-; simpl; by destruct (w_profile w0).
Qed.

Lemma adjust_walk_profile min_slope segnum g w :
  adjust_walk min_slope segnum g = Ok w ->
  exists p, line_string (w_profile w) = Ok p.
Proof.
  unfold adjust_walk. destruct (ls_first g); [done|]. intros Hw.
  apply adjust_steps_profile in Hw; [|done].
  destruct (w_profile w); [done|]. by eexists.
Qed.

Lemma adjust_walk_total min_slope segnum m g :
  series_get segnum min_slope = Some m ->
  geom_has_z g = true ->
  runs_nonzero g ->
  exists w, adjust_walk min_slope segnum g = Ok w.
Proof.
  intros Hm Hz Hruns. unfold adjust_walk.
  unfold geom_has_z, coords in Hz. simpl in Hz.
  apply andb_true_iff in Hz as [Hz0 Hz].
  destruct (ls_first g) as [|x0 y0 z0] eqn:Hfirst; [done|].
  eapply (adjust_steps_total _ _ _ _ Hm) with (c := Coord3 x0 y0 z0).
  - apply Forall_forall. intros c Hc%list_elem_of_In.
    by apply (proj1 (forallb_forall _ _) Hz).
  - done.
  - intros i c0 c1 H0 H1. apply (Hruns i); unfold coords; by rewrite Hfirst.
Qed.

Lemma series_set_fresh {A} k (v : A) (s : Series A) :
  k ∉ series_index s -> series_set k v s = s.
Proof.
  unfold series_index, series_set. induction s as [|[k' v'] s IH]; [done|].
  rewrite !fmap_cons. simpl. intros [Hk Hs]%not_elem_of_cons.
  destruct (Z.eqb_spec k' k); [congruence|]. f_equal. by apply IH.
Qed.

Lemma series_set_middle {A} k (v v0 : A) (s1 s2 : Series A) :
  NoDup (series_index (s1 ++ (k, v0) :: s2)) ->
  series_set k v (s1 ++ (k, v0) :: s2) = s1 ++ (k, v) :: s2.
Proof.
  unfold series_index. rewrite fmap_app, fmap_cons. simpl.
  intros (Hnd1 & Hdisj & (Hk2 & Hnd2)%NoDup_cons)%NoDup_app.
  change (series_set k v (s1 ++ (k, v0) :: s2))
    with ((fun r : Z * A => if r.1 =? k then (r.1, v) else r) <$> (s1 ++ (k, v0) :: s2)).
  rewrite fmap_app, fmap_cons. simpl. rewrite Z.eqb_refl.
  f_equal; [|f_equal].
  - apply (series_set_fresh k v s1). intros Hin. apply (Hdisj k Hin). by left.
  - by apply (series_set_fresh k v s2).
Qed.

(** One row of the table after the pass. *)
Definition row_adjusted (min_slope : Series F) (r r' : Z * LineString F) : Prop :=
  r'.1 = r.1
  /\ exists w, adjust_walk min_slope r.1 r.2 = Ok w
       /\ if w_modified w =? 0 then r'.2 = r.2
          else line_string (w_coords w) = Ok r'.2.

Lemma adjust_segments_geometry min_slope todo :
  forall done seg msgs profs seg' msgs' profs',
    foldM (adjust_segment min_slope) todo (seg, msgs, profs)
      = Ok (seg', msgs', profs') ->
    geometry seg = done ++ todo ->
    NoDup (series_index (done ++ todo)) ->
    exists todo',
      geometry seg' = done ++ todo'
      /\ Forall2 (row_adjusted min_slope) todo todo'.
Proof.
  induction todo as [|[k g] todo IH];
    intros done seg msgs profs seg' msgs' profs' Hfold Hgeom Hnd.
  - injection Hfold as <- <- <-. exists []. by split.
  - simpl in Hfold. apply bind_Ok in Hfold as ([[seg1 msgs1] profs1] & Hrow & Hfold).
    simpl in Hrow. apply bind_Ok in Hrow as (w & Hw & Hrow).
    apply bind_Ok in Hrow as (seg1' & Hseg1 & Hrow).
    apply bind_Ok in Hrow as (prof & _ & [= <- <- <-]).
    assert (exists g', geometry seg1' = done ++ (k, g') :: todo
                       /\ row_adjusted min_slope (k, g) (k, g'))
      as (g' & Hgeom1 & Hadj).
    { destruct (w_modified w =? 0) eqn:Hmod.
      - injection Hseg1 as <-. exists g. split; [done|].
        split; [done|]. exists w. by rewrite Hmod.
      - apply bind_Ok in Hseg1 as (g' & Hg' & [= <-]). exists g'. split.
        + simpl. rewrite Hgeom. by apply series_set_middle.
        + split; [done|]. exists w. by rewrite Hmod. }
    destruct (IH (done ++ [(k, g')]) _ _ _ _ _ _ Hfold) as (todo' & Hgeom' & Hall).
    + by rewrite Hgeom1, <- app_assoc.
    + rewrite <- app_assoc. simpl. revert Hnd. unfold series_index.
      by rewrite !fmap_app, !fmap_cons.
    + exists ((k, g') :: todo'). split.
      * by rewrite Hgeom', <- app_assoc.
      * by constructor.
Qed.

Lemma adjust_segments_messages min_slope todo :
  forall seg msgs profs seg' msgs' profs' n k,
    foldM (adjust_segment min_slope) todo (seg, msgs, profs)
      = Ok (seg', msgs', profs') ->
    AdjustingElevations n k ∈ msgs' ->
    AdjustingElevations n k ∈ msgs
    \/ exists g w, (k, g) ∈ todo /\ adjust_walk min_slope k g = Ok w
                   /\ w_modified w = n /\ 0 < n.
Proof.
  induction todo as [|[k0 g] todo IH];
    intros seg msgs profs seg' msgs' profs' n k Hfold Hin.
  - injection Hfold as <- <- <-. by left.
  - simpl in Hfold. apply bind_Ok in Hfold as ([[seg1 msgs1] profs1] & Hrow & Hfold).
    simpl in Hrow. apply bind_Ok in Hrow as (w & Hw & Hrow).
    apply bind_Ok in Hrow as (seg1' & Hseg1 & Hrow).
    apply bind_Ok in Hrow as (prof & _ & [= <- <- <-]).
    destruct (IH _ _ _ _ _ _ _ _ Hfold Hin) as [Hin1|(g' & w' & Hg' & ?)].
    + destruct (Z.ltb_spec 0 (w_modified w)) as [Hpos|_]; [|by left].
      apply elem_of_app in Hin1 as [?|[= -> ->]%list_elem_of_singleton]; [by left|].
      right. exists g, w. split_and!; try done. by left.
    + right. exists g', w'. split; [by right|done].
Qed.

Lemma adjust_segments_total min_slope todo :
  forall seg msgs profs,
    (forall r, r ∈ todo ->
       exists w, adjust_walk min_slope r.1 r.2 = Ok w
                 /\ exists g', line_string (w_coords w) = Ok g') ->
    exists r, foldM (adjust_segment min_slope) todo (seg, msgs, profs) = Ok r.
Proof.
  induction todo as [|[k g] todo IH]; intros seg msgs profs Hall.
  - by eexists.
  - destruct (Hall (k, g)) as (w & Hw & g' & Hg'); [by left|].
    destruct (adjust_walk_profile _ _ _ _ Hw) as (p & Hp).
    simpl in *. rewrite Hw. simpl. rewrite Hg', Hp.
    destruct (w_modified w =? 0); simpl; apply IH; intros r Hr; apply Hall;
      by right.
Qed.

Lemma index_differs_false a b : index_differs a b = false <-> a = b.
Proof.
  unfold index_differs. revert b.
  induction a as [|x a IH]; intros [|y b]; simpl; try (split; done).
  destruct (Z.eqb_spec x y) as [->|Hne]; simpl.
  - rewrite IH. split; [by intros ->|by intros [= ->]].
  - rewrite orb_true_r. split; [done|intros [= ? ?]; congruence].
Qed.

Lemma min_slope_series_index seg min_slope ms :
  min_slope_series seg min_slope = Ok ms -> series_index ms = index seg.
Proof.
  destruct min_slope as [m|s]; simpl.
  - intros [= <-]. unfold series_index. rewrite <- list_fmap_compose.
    by rewrite list_fmap_id.
  - destruct (index_differs _ _) eqn:Hd; [done|]. intros [= <-].
    by apply index_differs_false.
Qed.

(** C6: on a network of 3-D lines whose runs are defined and not zero, and a
    valid [min_slope], [adjust_elevation_profile] returns; along each segment
    every coordinate whose slope from the coordinate upstream of it is below
    the segment's minimum gets the elevation [z0 - dx * min_slope], every
    other coordinate is kept, and a segment whose slope meets the minimum at
    every pair keeps its geometry and is counted in no message. *)
Theorem adjust_elevation_profile_enforces net min_slope ms :
  NoDup (index (segments net)) ->
  min_slope_series (segments net) min_slope = Ok ms ->
  (forall r, r ∈ ms -> flt r.2 fzero = false) ->
  (forall r, r ∈ geometry (segments net) -> geom_has_z r.2 = true) ->
  (forall r, r ∈ geometry (segments net) -> runs_nonzero r.2) ->
  exists net',
    adjust_elevation_profile net min_slope = Ok net'
    /\ index (segments net') = index (segments net)
    /\ forall k g, (k, g) ∈ geometry (segments net) ->
         exists m g',
           series_get k ms = Some m
           /\ series_get k (geometry (segments net')) = Some g'
           /\ enforces_min_slope m g g'
           /\ (meets_min_slope m g ->
                 g' = g /\ forall n, AdjustingElevations n k ∉ messages net').
Proof.
  intros Hnd Hms Hpos Hz Hruns.
  assert (Hslope : forall k g, (k, g) ∈ geometry (segments net) ->
                     exists m, series_get k ms = Some m).
  { intros k g Hin. apply (series_get_Some k ms).
    rewrite (min_slope_series_index _ _ _ Hms). unfold index.
    apply list_elem_of_fmap. by exists (k, g). }
  unfold adjust_elevation_profile. rewrite Hms. simpl.
  replace (existsb _ ms) with false; cycle 1.
  { symmetry. apply not_true_iff_false. intros (r & Hr%list_elem_of_In & Hlt)%existsb_exists.
    rewrite (Hpos r Hr) in Hlt. done. }
  replace (forallb _ (geometry (segments net))) with true; cycle 1.
  { symmetry. apply forallb_forall. intros r Hr%list_elem_of_In. by apply Hz. }
  simpl.
  destruct (adjust_segments_total ms (geometry (segments net)) (segments net) [] [])
    as ([[seg' msgs'] profs'] & Hfold).
  { intros [k g] Hr. destruct (Hslope k g Hr) as (m & Hm).
    destruct (adjust_walk_total ms k m g Hm (Hz _ Hr) (Hruns _ Hr)) as (w & Hw).
    exists w. split; [done|].
    destruct (adjust_walk_spec _ _ _ _ _ Hm Hw) as (g' & Hg' & _). by exists g'. }
  rewrite Hfold. simpl. eexists. split; [done|]. simpl.
  destruct (adjust_segments_geometry _ _ [] _ _ _ _ _ _ Hfold eq_refl Hnd)
    as (todo' & Hgeom' & Hall). simpl in Hgeom'.
  assert (Hidx : todo'.*1 = (geometry (segments net)).*1).
  { clear -Hall. induction Hall as [|r r' l l' [Hk _] _ IH]; [done|].
    rewrite !fmap_cons. by f_equal. }
  split; [unfold index; by rewrite Hgeom'|].
  intros k g Hin. destruct (Hslope k g Hin) as (m & Hm). exists m.
  apply list_elem_of_lookup in Hin as (i & Hi).
  destruct (Forall2_lookup_l _ _ _ _ _ Hall Hi) as ([k' g1] & Hi' & Hk' & w & Hw & Hg1).
  simpl in Hk', Hw, Hg1. subst k'.
  destruct (adjust_walk_spec _ _ _ _ _ Hm Hw) as (g' & Hg' & Henf & Hzero & Hmeets & Hcount).
  assert (g1 = g') as ->.
  { destruct (Z.eqb_spec (w_modified w) 0) as [Hmod|Hmod].
    - subst g1. symmetry. by apply Hzero.
    - congruence. }
  exists g'. split_and!; [done| |done|].
  - rewrite Hgeom'. apply series_get_NoDup.
    + unfold series_index. by rewrite Hidx.
    + by eapply list_elem_of_lookup_2.
  - intros Hm0. specialize (Hmeets Hm0). split; [by apply Hzero|].
    intros n Hmsg.
    destruct (adjust_segments_messages _ _ _ _ _ _ _ _ _ _ Hfold Hmsg)
      as [?%elem_of_nil|(g2 & w2 & Hg2 & Hw2 & Hn & Hpos')]; [done|].
    assert (g2 = g) as ->.
    { apply (series_get_NoDup _ _ _ Hnd) in Hg2.
      apply list_elem_of_lookup_2 in Hi.
      apply (series_get_NoDup _ _ _ Hnd) in Hi. congruence. }
    rewrite Hw in Hw2. injection Hw2 as <-. lia.
Qed.

(** [runs_nonzero] by computation *)
Definition run_nonzerob (c0 c1 : Coord F) : bool :=
  match planar_run (coord_xy c0).1 (coord_xy c0).2
          (coord_xy c1).1 (coord_xy c1).2 with
  | Ok dx => negb (feq dx fzero)
  | Raise _ => false
  end.
Fixpoint runs_nonzerob_from (c : Coord F) (l : list (Coord F)) : bool :=
  match l with
  | [] => true
  | c1 :: l' => run_nonzerob c c1 && runs_nonzerob_from c1 l'
  end.
Definition runs_nonzerob (g : LineString F) : bool :=
  runs_nonzerob_from (ls_first g) (ls_rest g).

Lemma runs_nonzerob_spec g : runs_nonzerob g = true -> runs_nonzero g.
Proof.
  unfold runs_nonzerob, runs_nonzero, coords.
  generalize (ls_first g) as c. induction (ls_rest g) as [|c1 l IH]; intros c Hb i c0 c1' H0 H1.
  - by destruct i.
  - simpl in Hb. apply andb_true_iff in Hb as [Hrun Hb]. destruct i as [|i].
    + injection H0 as <-. injection H1 as <-. unfold run_nonzero, run_nonzerob in *.
      destruct (planar_run _ _ _ _) as [dx|]; [|done].
      exists dx. split; [done|]. by apply negb_true_iff.
    + by apply (IH c1 Hb i).
Qed.

(** *** Runs of length zero *)








(** ** Connectivity *)

(** A downstream match of segment [segnum1] with downstream end
    [end1_coord], in the words of the specification: another segment whose
    start equals the end in all dimensions, or in 2D. *)
Definition is_downstream_match (segnum1 : Z) (end1_coord : Coord F)
    (row2 : Z * LineString F) : bool :=
  negb (segnum1 =? row2.1)
  && (coord_eqb end1_coord (coords_start row2.2)
      || xy_eqb (coord_xy end1_coord) (coord_xy (coords_start row2.2))).

Definition downstream_matches (segnum1 : Z) (end1_coord : Coord F)
    (sub : list (Z * LineString F)) : list Z :=
  (filter (fun row2 => is_downstream_match segnum1 end1_coord row2) sub).*1.

Lemma connect_step_fst segnum1 end1_coord acc row2 :
  (connect_step segnum1 end1_coord acc row2).1.1
  = acc.1.1 ++ (if is_downstream_match segnum1 end1_coord row2
                then [row2.1] else []).
Proof.
  destruct acc as [[ts ws] es]. unfold connect_step, is_downstream_match.
  destruct (segnum1 =? row2.1); simpl; [by rewrite app_nil_r|].
  destruct (coord_eqb _ _); simpl; [done|].
  destruct (xy_eqb _ _); simpl; [done|].
  destruct (_ && _); simpl; by rewrite app_nil_r.
Qed.

Lemma connect_step_matches segnum1 end1_coord sub :
  forall acc,
    (foldl (connect_step segnum1 end1_coord) acc sub).1.1
    = acc.1.1 ++ downstream_matches segnum1 end1_coord sub.
Proof.
  unfold downstream_matches.
  induction sub as [|row2 sub IH]; intros acc; simpl.
  - by rewrite app_nil_r.
  - rewrite IH, connect_step_fst, filter_cons.
    destruct (is_downstream_match segnum1 end1_coord row2) eqn:E.
    + rewrite decide_True by done. by rewrite <- app_assoc.
    + rewrite decide_False by (by intros []). by rewrite app_nil_r.
Qed.

Lemma connect_step_errors segnum1 end1_coord sub e :
  forall acc,
    e ∈ acc.2 -> e ∈ (foldl (connect_step segnum1 end1_coord) acc sub).2.
Proof.
  induction sub as [|[segnum2 geom2] sub IH]; intros [[ts ws] es] He; simpl.
  - done.
  - apply IH. unfold connect_step. simpl in *.
    destruct (segnum1 =? segnum2); [done|].
    destruct (coord_eqb _ _); [done|].
    destruct (xy_eqb _ _); [done|].
    destruct (_ && _); [|done]. simpl. apply elem_of_app. by left.
Qed.

(** The effect of the outer loop's body on the table and the errors. *)
Lemma connect_segment_spec sindex seg warns errs row1 seg1 warns1 errs1 :
  connect_segment sindex (seg, warns, errs) row1 = (seg1, warns1, errs1) ->
  let ms := downstream_matches row1.1 (coords_end row1.2)
              (candidates seg sindex (coords_end row1.2)) in
  geometry seg1 = geometry seg
  /\ to_segnum seg1
     = match ms with
       | t :: _ => <[row1.1 := t]> (to_segnum seg)
       | [] => to_segnum seg
       end
  /\ (forall e, e ∈ errs -> e ∈ errs1)
  /\ (1 < Z.of_nat (length ms) -> MoreThanOneDownstream row1.1 ms ∈ errs1).
Proof.
  unfold connect_segment.
  pose proof (connect_step_matches row1.1 (coords_end row1.2)
                (candidates seg sindex (coords_end row1.2)) ([], warns, errs)) as Hms.
  pose proof (fun e => connect_step_errors row1.1 (coords_end row1.2)
                (candidates seg sindex (coords_end row1.2)) e ([], warns, errs)) as Herr.
  destruct (foldl _ _ _) as [[ts ws] es]. simpl in Hms, Herr. subst ts.
  intros [= <- <- <-]. split_and!.
  - by destruct (downstream_matches _ _ _).
  - by destruct (downstream_matches _ _ _).
  - intros e He. destruct (1 <? _); [apply elem_of_app; left|]; by apply Herr.
  - intros Hlen. apply Z.ltb_lt in Hlen. rewrite Hlen.
    apply elem_of_app. right. by left.
Qed.

Lemma candidates_geometry seg seg' sindex c :
  geometry seg' = geometry seg ->
  candidates seg' sindex c = candidates seg sindex c.
Proof. intros Hg. unfold candidates. by rewrite Hg. Qed.

Lemma connect_fold sindex todo :
  forall seg warns errs seg' warns' errs',
    foldl (connect_segment sindex) (seg, warns, errs) todo = (seg', warns', errs') ->
    NoDup (series_index todo) ->
    geometry seg' = geometry seg
    /\ (forall k, k ∉ series_index todo -> to_segnum seg' !! k = to_segnum seg !! k)
    /\ (forall e, e ∈ errs -> e ∈ errs')
    /\ forall row1, row1 ∈ todo ->
         let ms := downstream_matches row1.1 (coords_end row1.2)
                     (candidates seg sindex (coords_end row1.2)) in
         to_segnum seg' !! row1.1
           = match ms with
             | t :: _ => Some t
             | [] => to_segnum seg !! row1.1
             end
         /\ (1 < Z.of_nat (length ms) -> MoreThanOneDownstream row1.1 ms ∈ errs').
Proof.
  unfold series_index.
  induction todo as [|row todo IH]; intros seg warns errs seg' warns' errs' Hfold Hnd.
  - injection Hfold as <- <- <-. split_and!; try done. by intros ? ?%elem_of_nil.
  - change (foldl (connect_segment sindex)
              (connect_segment sindex (seg, warns, errs) row) todo
            = (seg', warns', errs')) in Hfold.
    destruct (connect_segment sindex (seg, warns, errs) row) as [[seg1 warns1] errs1] eqn:Hrow.
    apply connect_segment_spec in Hrow as (Hg1 & Hto1 & Herr1 & Hmany1).
    rewrite fmap_cons in Hnd. apply NoDup_cons in Hnd as [Hrow Hnd].
    destruct (IH _ _ _ _ _ _ Hfold Hnd) as (Hg & Hframe & Herr & Hrows).
    split_and!.
    + congruence.
    + intros k [Hk Hk']%not_elem_of_cons. rewrite Hframe, Hto1 by done.
      destruct (downstream_matches _ _ _); [done|]. by rewrite lookup_insert_ne.
    + auto.
    + intros row1 [->|Hin]%elem_of_cons.
      * split; [|by auto]. rewrite Hframe, Hto1 by done.
        destruct (downstream_matches _ _ _); [done|]. by rewrite lookup_insert_eq.
      * destruct (Hrows row1 Hin) as [Hto Hmany].
        rewrite (candidates_geometry _ _ _ _ Hg1) in Hto, Hmany.
        split; [|done]. rewrite Hto.
        destruct (downstream_matches row1.1 _ _); [|done]. rewrite Hto1.
        destruct (downstream_matches row.1 _ _); [done|].
        rewrite lookup_insert_ne; [done|]. intros Heq. apply Hrow.
        rewrite Heq. apply list_elem_of_fmap. by exists row1.
Qed.

Lemma candidates_sublist lines END c :
  candidates (initial_segments lines END) (sindex_sub lines) c `sublist_of` lines.
Proof.
  unfold candidates. destruct (sindex_sub lines) as [q|] eqn:Hq; [|done].
  by eapply sindex_sub_sublist.
Qed.

Lemma downstream_matches_sublist segnum1 end1_coord sub :
  downstream_matches segnum1 end1_coord sub `sublist_of` sub.*1.
Proof. unfold downstream_matches. apply fmap_sublist, sublist_filter. Qed.

Lemma downstream_matches_other segnum1 end1_coord sub t :
  t ∈ downstream_matches segnum1 end1_coord sub -> t <> segnum1.
Proof.
  unfold downstream_matches.
  intros ([segnum2 geom2] & -> & [Hm _]%list_elem_of_filter)%list_elem_of_fmap.
  unfold is_downstream_match in Hm. simpl in *.
  destruct (Z.eqb_spec segnum1 segnum2); [done|congruence].
Qed.

(** C2: after the connectivity pass, for every segment: its downstream
    matches are distinct segments; with no match [to_segnum] is still
    [END_SEGNUM]; with exactly one match it is that match; with more than one
    an error that lists all of them is in the errors and [to_segnum] is the
    first match found. *)
Theorem connectivity_pass lines END seg' warns errs :
  NoDup lines.*1 ->
  connect_all (sindex_sub lines) (initial_segments lines END) = (seg', warns, errs) ->
  forall segnum1 geom1, (segnum1, geom1) ∈ lines ->
    let ms := downstream_matches segnum1 (coords_end geom1)
                (candidates (initial_segments lines END) (sindex_sub lines)
                   (coords_end geom1)) in
    NoDup ms
    /\ (ms = [] -> to_segnum seg' !!! segnum1 = END)
    /\ (forall t, ms = [t] -> to_segnum seg' !!! segnum1 = t)
    /\ ((1 < length ms)%nat ->
        MoreThanOneDownstream segnum1 ms ∈ errs
        /\ head ms = Some (to_segnum seg' !!! segnum1)).
Proof.
  intros Hnd Hconn segnum1 geom1 Hin ms.
  destruct (connect_fold _ _ _ _ _ _ _ _ Hconn Hnd) as (_ & _ & _ & Hrows).
  destruct (Hrows _ Hin) as [Hto Hmany]. cbv zeta in Hto, Hmany.
  cbn [fst snd] in Hto, Hmany. fold ms in Hto, Hmany.
  assert (Hinit : to_segnum (initial_segments lines END) !! segnum1 = Some END).
  { simpl. unfold column. rewrite lookup_gset_to_gmap, option_guard_True; [done|].
    apply elem_of_list_to_set, list_elem_of_fmap. by exists (segnum1, geom1). }
  split_and!.
  - eapply sublist_NoDup; [|apply downstream_matches_sublist].
    eapply sublist_NoDup; [exact Hnd|]. apply fmap_sublist, candidates_sublist.
  - intros Hms. rewrite Hms, Hinit in Hto. by rewrite lookup_total_alt, Hto.
  - intros t Hms. rewrite Hms in Hto. by rewrite lookup_total_alt, Hto.
  - intros Hlen. split; [apply Hmany; lia|].
    destruct ms as [|t ms']; [simpl in Hlen; lia|].
    by rewrite lookup_total_alt, Hto.
Qed.

(** ** The graph of [to_segnum] *)

(** [drains END idx to s d]: following [to_segnum] from segment [s] leaves
    the network at [END_SEGNUM] after [d] segments, [s] included. *)
Inductive drains (END : Z) (idx : list Z) (to : gmap Z Z) : Z -> nat -> Prop :=
  | drains_outlet s :
      s ∈ idx -> to !!! s = END -> drains END idx to s 1
  | drains_step s d :
      s ∈ idx -> drains END idx to (to !!! s) d -> drains END idx to s (S d).

(** every segment reaches an outlet: the graph has no cycle *)
Definition acyclic (END : Z) (seg : Segments) : Prop :=
  forall s, s ∈ index seg -> exists d, drains END (index seg) (to_segnum seg) s d.

Section Graph.
Variables (END : Z) (idx : list Z) (to : gmap Z Z).
Hypothesis END_fresh : END ∉ idx.

Lemma drains_index s d : drains END idx to s d -> s ∈ idx.
Proof. by destruct 1. Qed.

Lemma drains_pos s d : drains END idx to s d -> (1 <= d)%nat.
Proof. destruct 1; lia. Qed.

Lemma drains_functional s d d' :
  drains END idx to s d -> drains END idx to s d' -> d = d'.
Proof using END_fresh.
  intros Hd. revert d'. induction Hd as [s Hs Hto|s d Hs Hd IH]; intros d' Hd'.
  - destruct Hd' as [|s d' _ Hd']; [done|].
    apply drains_index in Hd'. congruence.
  - destruct Hd' as [s _ Hto|s d' _ Hd'].
    + apply drains_index in Hd. congruence.
    + f_equal. by apply IH.
Qed.

(** the segments on the way from [s] to the outlet *)
Fixpoint way (s : Z) (d : nat) : list Z :=
  match d with
  | O => []
  | S d' => s :: way (to !!! s) d'
  end.

Lemma way_drains s d :
  drains END idx to s d ->
  forall i k, way s d !! i = Some k -> drains END idx to k (d - i).
Proof.
  induction 1 as [s Hs Hto|s d Hs Hd IH]; intros i k Hi.
  - destruct i as [|i]; [|done]. injection Hi as <-. by constructor.
  - destruct i as [|i]; simpl in Hi.
    + injection Hi as <-. by constructor.
    + by apply IH.
Qed.

Lemma way_length s d : length (way s d) = d.
Proof. revert s. induction d as [|d IH]; intros s; simpl; [done|]. by rewrite IH. Qed.

Lemma way_NoDup s d : drains END idx to s d -> NoDup (way s d).
Proof using END_fresh.
  intros Hd. apply NoDup_alt. intros i j k Hi Hj.
  pose proof (way_drains _ _ Hd _ _ Hi) as Hdi.
  pose proof (way_drains _ _ Hd _ _ Hj) as Hdj.
  pose proof (drains_functional _ _ _ Hdi Hdj).
  apply lookup_lt_Some in Hi, Hj. rewrite way_length in Hi, Hj. lia.
Qed.

(** The depth of a segment is at most the number of segments. *)
Lemma drains_bound s d :
  NoDup idx -> drains END idx to s d -> (d <= length idx)%nat.
Proof using END_fresh.
  intros Hnd Hd. rewrite <- (way_length s d).
  apply submseteq_length, NoDup_submseteq; [by apply way_NoDup|].
  intros k (i & Hi)%list_elem_of_lookup.
  by eapply drains_index, way_drains.
Qed.

End Graph.

(** An invariant that knows which elements the loop has been through. *)
Lemma foldM_invariant_prefix {A B} (P : list A -> B -> Prop)
    (f : B -> A -> result B) l acc r :
  (forall l1 x l2 acc acc',
      l = l1 ++ x :: l2 -> P l1 acc -> f acc x = Ok acc' -> P (l1 ++ [x]) acc') ->
  P [] acc -> foldM f l acc = Ok r -> P l r.
Proof.
  intros Hstep HP Hfold.
  enough (Hgen : forall l1 l2 acc, l = l1 ++ l2 -> P l1 acc ->
                   foldM f l2 acc = Ok r -> P l r) by by apply (Hgen [] l acc).
  intros l1 l2. revert l1. induction l2 as [|x l2 IH]; intros l1 a Hl Ha Hf.
  - injection Hf as <-. by rewrite Hl, app_nil_r.
  - simpl in Hf. apply bind_Ok in Hf as (a' & Hx & Hf).
    apply (IH (l1 ++ [x]) a'); [by rewrite <- app_assoc| |done].
    by eapply Hstep.
Qed.

(** ** The upstream recursion *)

Definition stamped (num : gmap Z Z) (k : Z) : Prop := 0 < num !!! k.

(** every number written so far is the depth of its segment *)
Definition sound (END : Z) (idx : list Z) (to num : gmap Z Z) : Prop :=
  forall k, k ∈ idx ->
    num !!! k = 0 \/ exists d, drains END idx to k d /\ num !!! k = Z.of_nat d.

(** outside of the segments [X] whose call is still running, the segments
    upstream of a numbered segment are numbered *)
Definition closed (idx : list Z) (to num : gmap Z Z) (X : gset Z) : Prop :=
  forall k, k ∈ idx ->
    to !!! k ∈ idx -> stamped num (to !!! k) -> to !!! k ∉ X -> stamped num k.

(** what the recursion leaves as it is *)
Definition same_graph (seg seg' : Segments) : Prop :=
  geometry seg' = geometry seg /\ to_segnum seg' = to_segnum seg
  /\ sequence seg' = sequence seg /\ stream_order seg' = stream_order seg.

Lemma same_graph_refl seg : same_graph seg seg.
Proof. by repeat split. Qed.

Lemma same_graph_trans seg1 seg2 seg3 :
  same_graph seg1 seg2 -> same_graph seg2 seg3 -> same_graph seg1 seg3.
Proof. intros (?&?&?&?) (?&?&?&?). repeat split; congruence. Qed.

Lemma same_graph_index seg seg' : same_graph seg seg' -> index seg' = index seg.
Proof. intros (Hg & _). unfold index. by rewrite Hg. Qed.

Lemma index_where_to_same seg seg' s :
  same_graph seg seg' -> index_where_to seg' s = index_where_to seg s.
Proof.
  intros Hs. unfold index_where_to. rewrite (same_graph_index _ _ Hs).
  destruct Hs as (_ & -> & _). done.
Qed.

Lemma elem_of_index_where_to seg s k :
  k ∈ index_where_to seg s <-> k ∈ index seg /\ to_segnum seg !!! k = s.
Proof. unfold index_where_to. rewrite list_elem_of_filter. tauto. Qed.

Lemma resurse_upstream_frame stack :
  forall seg segnum cat_group num length seg',
    resurse_upstream stack seg segnum cat_group num length = Ok seg' ->
    same_graph seg seg'.
Proof.
  induction stack as [|stack IH]; intros seg s cg num len seg' Hcall; [done|].
  simpl in Hcall. apply bind_Ok in Hcall as (geom & _ & Hfold).
  revert Hfold. apply foldM_invariant.
  - intros acc c acc' _ Hacc Hc. eapply same_graph_trans; [exact Hacc|].
    by eapply IH.
  - by repeat split.
Qed.

Lemma geometry_at_index seg k :
  k ∈ index seg -> exists g, geometry_at seg k = Ok g.
Proof.
  intros [g Hg]%(series_get_Some k (geometry seg)).
  exists g. unfold geometry_at. by rewrite Hg.
Qed.

(** With as many activations as there are segments the recursion returns. *)
Lemma resurse_upstream_total END stack :
  forall seg segnum cat_group num len d,
    NoDup (index seg) -> END ∉ index seg ->
    drains END (index seg) (to_segnum seg) segnum d ->
    (length (index seg) <= d - 1 + stack)%nat ->
    exists seg', resurse_upstream stack seg segnum cat_group num len = Ok seg'.
Proof.
  induction stack as [|stack IH]; intros seg s cg num len d Hnd Hend Hd Hstack.
  - pose proof (drains_bound _ _ _ Hend _ _ Hnd Hd).
    pose proof (drains_pos _ _ _ _ _ Hd). lia.
  - simpl. destruct (geometry_at_index
      (set_num_to_outlet s (num + 1) (set_cat_group s cg seg)) s) as (g & ->).
    { by eapply drains_index. }
    simpl.
    match goal with |- exists r, foldM ?f ?l ?a = Ok r =>
      destruct (foldM_total (same_graph seg) f l a) as (r & Hr & _); [| |by exists r]
    end.
    + intros acc c Hc%elem_of_index_where_to Hacc. simpl in Hc.
      destruct Hc as [Hc Hto].
      destruct (IH acc c cg (num + 1) (fadd len (geom_length g)) (S d))
        as (acc' & Hacc').
      * by rewrite (same_graph_index _ _ Hacc).
      * by rewrite (same_graph_index _ _ Hacc).
      * rewrite (same_graph_index _ _ Hacc). destruct Hacc as (_ & -> & _).
        apply drains_step; [done|]. by rewrite Hto.
      * rewrite (same_graph_index _ _ Hacc).
        pose proof (drains_pos _ _ _ _ _ Hd). lia.
      * exists acc'. split; [done|]. eapply same_graph_trans; [exact Hacc|].
        by eapply resurse_upstream_frame.
    + by repeat split.
Qed.

Section Traversal.
Variables (END : Z) (idx : list Z) (to : gmap Z Z).
Hypothesis END_fresh : END ∉ idx.

(** [seg] is a table of the graph [idx], [to] *)
Definition on_graph (seg : Segments) : Prop :=
  index seg = idx /\ to_segnum seg = to.

Lemma on_graph_same seg seg' : same_graph seg seg' -> on_graph seg -> on_graph seg'.
Proof.
  intros Hs [Hi Ht]. split; [by rewrite (same_graph_index _ _ Hs)|].
  destruct Hs as (_ & -> & _). done.
Qed.

Lemma resurse_upstream_numbers stack :
  forall seg segnum cat_group num len seg' d X,
    resurse_upstream stack seg segnum cat_group num len = Ok seg' ->
    on_graph seg ->
    drains END idx to segnum d -> num + 1 = Z.of_nat d ->
    sound END idx to (num_to_outlet seg) ->
    closed idx to (num_to_outlet seg) X ->
    sound END idx to (num_to_outlet seg')
    /\ closed idx to (num_to_outlet seg') X
    /\ stamped (num_to_outlet seg') segnum
    /\ (forall k, stamped (num_to_outlet seg) k -> stamped (num_to_outlet seg') k).
Proof using END_fresh.
  induction stack as [|stack IH];
    intros seg s cg num len seg' d X Hcall Hgraph Hd Hnum Hsound Hclosed; [done|].
  simpl in Hcall. apply bind_Ok in Hcall as (geom & _ & Hfold).
  pose proof (drains_pos _ _ _ _ _ Hd) as Hpos.
  set (seg1 := set_length_to_outlet s (fadd len (geom_length geom))
                 (set_num_to_outlet s (num + 1) (set_cat_group s cg seg))) in *.
  assert (Hgraph1 : on_graph seg1) by done.
  assert (Hmono1 : forall k, stamped (num_to_outlet seg) k ->
                             stamped (num_to_outlet seg1) k).
  { intros k Hk. unfold stamped, seg1. simpl.
    destruct (decide (s = k)) as [->|Hne].
    - rewrite lookup_total_insert_eq. lia.
    - by rewrite lookup_total_insert_ne. }
  assert (Hs1 : stamped (num_to_outlet seg1) s).
  { unfold stamped, seg1. simpl. rewrite lookup_total_insert_eq. lia. }
  assert (Hsound1 : sound END idx to (num_to_outlet seg1)).
  { intros k Hk. unfold seg1. simpl. destruct (decide (s = k)) as [->|Hne].
    - right. exists d. rewrite lookup_total_insert_eq. by split.
    - rewrite lookup_total_insert_ne by done. by apply Hsound. }
  assert (Hclosed1 : closed idx to (num_to_outlet seg1) ({[s]} ∪ X)).
  { intros k Hk Hto Hst HX. apply Hmono1, Hclosed; try done.
    - revert Hst. unfold stamped, seg1. simpl.
      rewrite lookup_total_insert_ne; [done|].
      intros ->. apply HX, elem_of_union_l. by apply elem_of_singleton.
    - intros ?. apply HX. by apply elem_of_union_r. }
  clearbody seg1.
  assert (Hinv :
    same_graph seg1 seg'
    /\ sound END idx to (num_to_outlet seg')
    /\ closed idx to (num_to_outlet seg') ({[s]} ∪ X)
    /\ (forall k, stamped (num_to_outlet seg1) k -> stamped (num_to_outlet seg') k)
    /\ (forall c, c ∈ index_where_to seg1 s -> stamped (num_to_outlet seg') c)).
  { revert Hfold.
    apply (foldM_invariant_prefix (fun done acc =>
      same_graph seg1 acc
      /\ sound END idx to (num_to_outlet acc)
      /\ closed idx to (num_to_outlet acc) ({[s]} ∪ X)
      /\ (forall k, stamped (num_to_outlet seg1) k -> stamped (num_to_outlet acc) k)
      /\ (forall c, c ∈ done -> stamped (num_to_outlet acc) c))).
    - intros l1 c l2 acc acc' Hl (Hsame & Hso & Hcl & Hmo & Hdone) Hc.
      assert (Hcin : c ∈ index_where_to seg1 s).
      { rewrite Hl. apply elem_of_app. right. by left. }
      apply elem_of_index_where_to in Hcin as [Hcidx Hcto].
      destruct Hgraph1 as [Hi1 Ht1]. rewrite Hi1 in Hcidx. rewrite Ht1 in Hcto.
      destruct (IH acc c cg (num + 1) (fadd len (geom_length geom)) acc' (S d)
                  ({[s]} ∪ X) Hc) as (Hso' & Hcl' & Hst' & Hmo'); try done.
      + by apply (on_graph_same seg1).
      + apply drains_step; [done|]. by rewrite Hcto.
      + lia.
      + split_and!; try done.
        * eapply same_graph_trans; [exact Hsame|]. by eapply resurse_upstream_frame.
        * auto.
        * intros c' [Hc'|Hc'%list_elem_of_singleton]%elem_of_app;
            [auto|by subst c'].
    - split_and!; try done; try apply same_graph_refl.
      by intros ? ?%elem_of_nil. }
  destruct Hinv as (Hsame & Hso & Hcl & Hmo & Hchildren).
  split_and!; [done| |by auto|by auto].
  intros k Hk Hto Hst HX. destruct (decide (to !!! k = s)) as [Hks|Hks].
  - apply Hchildren, elem_of_index_where_to.
    destruct Hgraph1 as [-> ->]. done.
  - apply Hcl; try done.
    by intros [?%elem_of_singleton|?]%elem_of_union.
Qed.

(** The numbers are at most the number of activations that were allowed. *)
Lemma resurse_upstream_depth stack :
  forall seg segnum cat_group num len seg' B,
    resurse_upstream stack seg segnum cat_group num len = Ok seg' ->
    num + Z.of_nat stack <= B ->
    (forall k, k ∈ idx -> num_to_outlet seg !!! k <= B) ->
    forall k, k ∈ idx -> num_to_outlet seg' !!! k <= B.
Proof.
  induction stack as [|stack IH];
    intros seg s cg num len seg' B Hcall Hle Hall; [done|].
  simpl in Hcall. apply bind_Ok in Hcall as (geom & _ & Hfold).
  revert Hfold.
  apply (foldM_invariant (fun acc => forall k, k ∈ idx -> num_to_outlet acc !!! k <= B)).
  - intros acc c acc' _ Hacc Hc. eapply IH; [exact Hc|lia|done].
  - intros k Hk. simpl. destruct (decide (s = k)) as [->|Hne].
    + rewrite lookup_total_insert_eq. lia.
    + rewrite lookup_total_insert_ne by done. by apply Hall.
Qed.

End Traversal.

Lemma traverse_outlets_frame stack END seg seg' :
  traverse_outlets stack END seg = Ok seg' -> same_graph seg seg'.
Proof.
  unfold traverse_outlets. apply foldM_invariant; [|apply same_graph_refl].
  intros acc o acc' _ Hacc Ho. eapply same_graph_trans; [exact Hacc|].
  by eapply resurse_upstream_frame.
Qed.

(** After the recursion from every outlet, [num_to_outlet] is the depth of
    each segment that reaches an outlet, and is still 0 on the others. *)
Lemma traverse_outlets_numbers stack END seg seg' :
  traverse_outlets stack END seg = Ok seg' ->
  END ∉ index seg ->
  (forall k, k ∈ index seg -> num_to_outlet seg !!! k = 0) ->
  forall k, k ∈ index seg ->
    (forall d, drains END (index seg) (to_segnum seg) k d ->
               num_to_outlet seg' !!! k = Z.of_nat d)
    /\ (num_to_outlet seg' !!! k = 0
        \/ exists d, drains END (index seg) (to_segnum seg) k d
                     /\ num_to_outlet seg' !!! k = Z.of_nat d).
Proof.
  intros Hcall Hend Hzero.
  set (idx := index seg). set (to := to_segnum seg).
  assert (Hinv :
    same_graph seg seg'
    /\ sound END idx to (num_to_outlet seg')
    /\ closed idx to (num_to_outlet seg') ∅
    /\ (forall o, o ∈ outlets seg END -> stamped (num_to_outlet seg') o)).
  { revert Hcall. unfold traverse_outlets.
    apply (foldM_invariant_prefix (fun done acc =>
      same_graph seg acc
      /\ sound END idx to (num_to_outlet acc)
      /\ closed idx to (num_to_outlet acc) ∅
      /\ (forall o, o ∈ done -> stamped (num_to_outlet acc) o))).
    - intros l1 o l2 acc acc' Hl (Hsame & Hso & Hcl & Hdone) Ho.
      assert (Hoin : o ∈ outlets seg END).
      { rewrite Hl. apply elem_of_app. right. by left. }
      apply elem_of_index_where_to in Hoin as [Hoidx Hoto].
      destruct (resurse_upstream_numbers END idx to Hend stack acc o o 0 fzero acc'
                  1%nat ∅ Ho) as (Hso' & Hcl' & Hst' & Hmo'); try done.
      + by apply (on_graph_same idx to seg).
      + by apply drains_outlet.
      + split_and!; try done.
        * eapply same_graph_trans; [exact Hsame|]. by eapply resurse_upstream_frame.
        * intros o' [Ho'|Ho'%list_elem_of_singleton]%elem_of_app;
            [auto|by subst o'].
    - split_and!; try apply same_graph_refl.
      + intros k Hk. left. by apply Hzero.
      + intros k Hk Hto Hst _. unfold stamped in Hst.
        rewrite Hzero in Hst by done. lia.
      + by intros ? ?%elem_of_nil. }
  destruct Hinv as (Hsame & Hso & Hcl & Houtlets).
  assert (Hstamped : forall k d, drains END idx to k d -> stamped (num_to_outlet seg') k).
  { induction 1 as [s Hs Hto|s d Hs Hd IH].
    - apply Houtlets, elem_of_index_where_to. by split.
    - apply Hcl; try done. by eapply drains_index. }
  intros k Hk. split.
  - intros d Hd. pose proof (Hstamped _ _ Hd) as Hst. unfold stamped in Hst.
    destruct (Hso k Hk) as [Hz|(d' & Hd' & ->)]; [lia|].
    by rewrite (drains_functional END idx to Hend _ _ _ Hd Hd').
  - by apply Hso.
Qed.

Lemma traverse_outlets_total stack END seg :
  NoDup (index seg) -> END ∉ index seg ->
  (length (index seg) <= stack)%nat ->
  exists seg', traverse_outlets stack END seg = Ok seg'.
Proof.
  intros Hnd Hend Hstack. unfold traverse_outlets.
  match goal with |- exists r, foldM ?f ?l ?a = Ok r =>
    destruct (foldM_total (same_graph seg) f l a) as (r & Hr & _); [| |by exists r]
  end.
  - intros acc o [Ho Hto]%elem_of_index_where_to Hacc.
    destruct (resurse_upstream_total END stack acc o o 0 fzero 1%nat)
      as (acc' & Hacc').
    + by rewrite (same_graph_index _ _ Hacc).
    + by rewrite (same_graph_index _ _ Hacc).
    + rewrite (same_graph_index _ _ Hacc). destruct Hacc as (_ & -> & _).
      by apply drains_outlet.
    + rewrite (same_graph_index _ _ Hacc). lia.
    + exists acc'. split; [done|]. eapply same_graph_trans; [exact Hacc|].
      by eapply resurse_upstream_frame.
  - apply same_graph_refl.
Qed.

Lemma traverse_outlets_depth stack END seg seg' :
  traverse_outlets stack END seg = Ok seg' ->
  (forall k, k ∈ index seg -> num_to_outlet seg !!! k = 0) ->
  forall k, k ∈ index seg -> num_to_outlet seg' !!! k <= Z.of_nat stack.
Proof.
  intros Hcall Hzero. revert Hcall. unfold traverse_outlets.
  apply (foldM_invariant (fun acc => forall k, k ∈ index seg ->
                                       num_to_outlet acc !!! k <= Z.of_nat stack)).
  - intros acc o acc' _ Hacc Ho.
    eapply (resurse_upstream_depth (index seg)); [exact Ho|lia|done].
  - intros k Hk. rewrite Hzero by done. lia.
Qed.

(** ** The sequencer *)

Lemma zmin_list_le l x : x ∈ l -> zmin_list l <= x.
Proof.
  destruct l as [|y l]; [by intros ?%elem_of_nil|]. simpl.
  assert (Hmin : foldr Z.min y l <= y /\ forall z, z ∈ l -> foldr Z.min y l <= z).
  { induction l as [|w l [IH1 IH2]]; simpl.
    - split; [lia|by intros ? ?%elem_of_nil].
    - split; [lia|]. intros z [->|Hz]%elem_of_cons; [lia|].
      specialize (IH2 z Hz). lia. }
  destruct Hmin as [H1 H2]. intros [->|Hx]%elem_of_cons; auto.
Qed.

Lemma zmax_list_ge l x : x ∈ l -> x <= zmax_list l.
Proof.
  destruct l as [|y l]; [by intros ?%elem_of_nil|]. simpl.
  intros [->|Hx]%elem_of_cons.
  - induction l as [|z l IH]; simpl; lia.
  - induction l as [|z l IH]; simpl; [by apply elem_of_nil in Hx|].
    apply elem_of_cons in Hx as [->|Hx]; [lia|]. specialize (IH Hx). lia.
Qed.

Lemma zmax_list_elem l : l <> [] -> zmax_list l ∈ l.
Proof.
  destruct l as [|y l]; [done|]. intros _. simpl.
  induction l as [|z l IH]; simpl; [by left|].
  destruct (Z.max_spec z (foldr Z.max y l)) as [[_ ->]|[_ ->]].
  - apply elem_of_cons in IH as [->|IH]; [by left|]. right. by right.
  - right. by left.
Qed.

Lemma end_segnum_fresh idx : end_segnum idx ∉ idx.
Proof.
  intros Hin. apply zmin_list_le in Hin. unfold end_segnum in Hin.
  destruct (Z.ltb_spec 0 (zmin_list idx)); lia.
Qed.

Section Sequencer.
Variables (END : Z) (idx : list Z) (to num : gmap Z Z).
Variables (ups : gmap Z (gset Z)) (hw : list Z).
Hypothesis idx_NoDup : NoDup idx.
Hypothesis END_fresh : END ∉ idx.
Hypothesis ups_defined :
  forall u, u ∈ idx -> to !!! u ∈ idx -> exists up, ups !! (to !!! u) = Some up.
Hypothesis ups_elem :
  forall k up, ups !! k = Some up -> forall u, u ∈ up <-> u ∈ idx /\ to !!! u = k.
Hypothesis hw_elem :
  forall k, k ∈ hw <-> k ∈ idx /\ forall u, u ∈ idx -> to !!! u <> k.

(** The invariant of the loop of lines 300-324. *)
Record seq_inv (st : SeqState) : Prop := {
  inv_index : index (ss_segments st) = idx;
  inv_to : to_segnum (ss_segments st) = to;
  inv_num : num_to_outlet (ss_segments st) = num;
  inv_hw : forall h, h ∈ hw -> h ∈ ss_completed st;
  inv_completed : forall k, k ∈ ss_completed st -> k ∈ idx;
  inv_counter : ss_sequence st = Z.of_nat (size (ss_completed st));
  inv_zero : forall k, k ∈ idx -> k ∉ ss_completed st ->
    sequence (ss_segments st) !!! k = 0
    /\ stream_order (ss_segments st) !!! k = 0;
  inv_range : forall k, k ∈ ss_completed st ->
    1 <= sequence (ss_segments st) !!! k <= ss_sequence st;
  inv_inj : forall k k', k ∈ ss_completed st -> k' ∈ ss_completed st ->
    sequence (ss_segments st) !!! k = sequence (ss_segments st) !!! k' -> k = k';
  inv_topo : forall k u, k ∈ ss_completed st -> u ∈ idx -> to !!! u = k ->
    u ∈ ss_completed st
    /\ sequence (ss_segments st) !!! u < sequence (ss_segments st) !!! k;
  inv_order : forall k, k ∈ ss_completed st -> k ∉ hw ->
    exists up, ups !! k = Some up
      /\ stream_order_of ((fun u => stream_order (ss_segments st) !!! u)
                            <$> list_of_set up)
         = Ok (stream_order (ss_segments st) !!! k);
  inv_hw_order : forall h, h ∈ hw -> stream_order (ss_segments st) !!! h = 1
}.

Lemma list_of_set_elem (s : gset Z) k : k ∈ list_of_set s <-> k ∈ s.
Proof. by rewrite (list_of_set_perm s), elem_of_elements. Qed.

Lemma list_of_set_NoDup (s : gset Z) : NoDup (list_of_set s).
Proof. rewrite (list_of_set_perm s). apply NoDup_elements. Qed.

Lemma stream_order_of_Ok l :
  l <> [] -> exists o, stream_order_of l = Ok o.
Proof.
  destruct l as [|x l]; [done|]. intros _. unfold stream_order_of.
  destruct (1 <? _); by eexists.
Qed.

(** One segment of [downstream_sorted]: it is sequenced when its upstream
    segments are completed, and the invariant is kept. *)
Lemma sequence_segment_inv st segnum :
  seq_inv st ->
  segnum ∈ idx -> segnum ∉ ss_completed st ->
  (exists u, u ∈ idx /\ to !!! u = segnum) ->
  exists st',
    sequence_segment ups st segnum = Ok st'
    /\ seq_inv st'
    /\ (forall k, k ∈ ss_completed st -> k ∈ ss_completed st')
    /\ (forall k, k ∈ ss_completed st' -> k ∈ ss_completed st \/ k = segnum)
    /\ ((forall u, u ∈ idx -> to !!! u = segnum -> u ∈ ss_completed st) ->
        segnum ∈ ss_completed st').
Proof using idx_NoDup END_fresh ups_defined ups_elem hw_elem.
  intros Hinv Hseg Hnew (u0 & Hu0 & Hto0).
  destruct (ups_defined u0 Hu0) as (up & Hup); [by rewrite Hto0|].
  rewrite Hto0 in Hup. unfold sequence_segment. rewrite Hup. simpl.
  destruct (decide (up ⊆ ss_completed st)) as [Hsub|Hsub]; cycle 1.
  { exists st. split_and!; try done; [by left|].
    intros Hall. destruct Hsub. intros u [Hu Hto]%(ups_elem _ _ Hup). by apply Hall. }
  destruct (stream_order_of_Ok
              ((fun u => stream_order (ss_segments st) !!! u)
                 <$> list_of_set up)) as (ord & Hord).
  { assert (u0 ∈ list_of_set up) as Hin.
    { apply list_of_set_elem, (ups_elem _ _ Hup). by split. }
    intros Hnil. apply (f_equal length) in Hnil. rewrite length_fmap in Hnil.
    destruct (list_of_set up); [by apply elem_of_nil in Hin|done]. }
  rewrite Hord. simpl. eexists. split; [done|].
  assert (Hhw : segnum ∉ hw).
  { intros Hh. by apply Hnew, (inv_hw _ Hinv). }
  assert (Hother : forall k, k ∈ ss_completed st -> k <> segnum) by congruence.
  split_and!.
  - constructor; simpl.
    + apply (inv_index _ Hinv).
    + apply (inv_to _ Hinv).
    + apply (inv_num _ Hinv).
    + intros h Hh. apply elem_of_union_r. by apply (inv_hw _ Hinv).
    + intros k [->%elem_of_singleton|Hk]%elem_of_union; [done|].
      by apply (inv_completed _ Hinv).
    + rewrite size_union, size_singleton, (inv_counter _ Hinv); [lia|].
      intros k ->%elem_of_singleton. done.
    + intros k Hk [Hne Hk']%not_elem_of_union.
      apply not_elem_of_singleton in Hne.
      rewrite !lookup_total_insert_ne by done. by apply (inv_zero _ Hinv).
    + intros k [->%elem_of_singleton|Hk]%elem_of_union.
      * rewrite lookup_total_insert_eq.
        pose proof (inv_counter _ Hinv). lia.
      * rewrite lookup_total_insert_ne by (by apply not_eq_sym, Hother).
        pose proof (inv_range _ Hinv k Hk). lia.
    + intros k k' [->%elem_of_singleton|Hk]%elem_of_union
                  [->%elem_of_singleton|Hk']%elem_of_union; [done|..].
      * rewrite lookup_total_insert_eq.
        rewrite lookup_total_insert_ne by (by apply not_eq_sym, Hother).
        pose proof (inv_range _ Hinv k' Hk'). lia.
      * rewrite lookup_total_insert_eq.
        rewrite lookup_total_insert_ne by (by apply not_eq_sym, Hother).
        pose proof (inv_range _ Hinv k Hk). lia.
      * rewrite !lookup_total_insert_ne by (by apply not_eq_sym, Hother).
        by apply (inv_inj _ Hinv).
    + intros k u [->%elem_of_singleton|Hk]%elem_of_union Hu Hto.
      * assert (u ∈ ss_completed st) as Hc.
        { apply Hsub, (ups_elem _ _ Hup). by split. }
        split; [by apply elem_of_union_r|].
        rewrite lookup_total_insert_eq.
        rewrite lookup_total_insert_ne by (by apply not_eq_sym, Hother).
        pose proof (inv_range _ Hinv u Hc). lia.
      * destruct (inv_topo _ Hinv k u Hk Hu Hto) as [Hc Hlt].
        split; [by apply elem_of_union_r|].
        by rewrite !lookup_total_insert_ne by (by apply not_eq_sym, Hother).
    + intros k [->%elem_of_singleton|Hk]%elem_of_union Hkhw.
      * exists up. split; [done|]. rewrite lookup_total_insert_eq, <- Hord.
        f_equal. apply list_fmap_ext. intros _ u Hu%list_elem_of_lookup_2.
        apply list_of_set_elem in Hu. simpl.
        rewrite lookup_total_insert_ne; [done|]. apply not_eq_sym, Hother. auto.
      * destruct (inv_order _ Hinv k Hk Hkhw) as (upk & Hupk & Hordk).
        exists upk. split; [done|].
        rewrite lookup_total_insert_ne by (by apply not_eq_sym, Hother).
        rewrite <- Hordk. f_equal. apply list_fmap_ext.
        intros _ u Hu%list_elem_of_lookup_2.
        apply list_of_set_elem, (ups_elem _ _ Hupk) in Hu as [Hu Hto].
        rewrite lookup_total_insert_ne; [done|].
        apply not_eq_sym, Hother. by apply (inv_topo _ Hinv k u).
    + intros h Hh. rewrite lookup_total_insert_ne; [by apply (inv_hw_order _ Hinv)|].
      congruence.
  - intros k Hk. by apply elem_of_union_r.
  - intros k [->%elem_of_singleton|Hk]%elem_of_union; auto.
  - intros _. apply elem_of_union_l. by apply elem_of_singleton.
Qed.

Hypothesis to_valid : forall k, k ∈ idx -> to !!! k = END \/ to !!! k ∈ idx.

Lemma sequence_fold_inv l :
  forall st,
    NoDup l ->
    (forall k, k ∈ l ->
       k ∈ idx /\ (k ∉ ss_completed st) /\ exists u, u ∈ idx /\ to !!! u = k) ->
    seq_inv st ->
    exists st',
      foldM (sequence_segment ups) l st = Ok st'
      /\ seq_inv st'
      /\ (forall k, k ∈ ss_completed st -> k ∈ ss_completed st')
      /\ (forall k, k ∈ ss_completed st' -> k ∈ ss_completed st \/ k ∈ l)
      /\ (forall k, k ∈ l ->
            (forall u, u ∈ idx -> to !!! u = k -> u ∈ ss_completed st) ->
            k ∈ ss_completed st').
Proof using idx_NoDup END_fresh ups_defined ups_elem hw_elem.
  induction l as [|x l IH]; intros st Hnd Hl Hinv.
  - exists st. split_and!; try done; [by left|by intros ? ?%elem_of_nil].
  - apply NoDup_cons in Hnd as [Hx Hnd].
    destruct (Hl x) as (Hxi & Hxc & Hxu); [by left|].
    destruct (sequence_segment_inv st x Hinv Hxi Hxc Hxu)
      as (st1 & Hst1 & Hinv1 & Hmono1 & Hnew1 & Hdone1).
    destruct (IH st1 Hnd) as (st' & Hst' & Hinv' & Hmono' & Hnew' & Hdone').
    { intros k Hk. destruct (Hl k) as (Hki & Hkc & Hku); [by right|].
      split_and!; try done. intros [?| ->]%Hnew1; done. }
    { done. }
    exists st'. simpl. rewrite Hst1. simpl. split_and!; try done.
    + auto.
    + intros k [[?| ->]%Hnew1|?]%Hnew'; [by left|right; by left|right; by right].
    + intros k [->|Hk]%elem_of_cons Hall; [by auto|].
      apply Hdone'; [done|]. intros u Hu Hto. by apply Hmono1, Hall.
Qed.

Lemma elem_of_downstream_of st k :
  k ∈ downstream_of END st
  <-> (exists u, u ∈ ss_completed st /\ to_segnum (ss_segments st) !!! u = k)
      /\ (k ∉ ss_completed st) /\ k <> END.
Proof.
  unfold downstream_of. rewrite elem_of_difference, elem_of_map, not_elem_of_union.
  rewrite not_elem_of_singleton. split.
  - intros ((u & -> & Hu) & Hk & Hend). split_and!; try done. by exists u.
  - intros ((u & Hu & <-) & Hk & Hend). split_and!; try done. by exists u.
Qed.

(** One iteration of the loop. *)
Lemma sequence_iteration_inv st :
  seq_inv st ->
  exists st',
    sequence_iteration END ups st = Ok st'
    /\ seq_inv st'
    /\ (forall k, k ∈ ss_completed st -> k ∈ ss_completed st')
    /\ (forall k, k ∈ idx -> k ∉ ss_completed st ->
          (exists u, u ∈ ss_completed st /\ to !!! u = k) ->
          (forall u, u ∈ idx -> to !!! u = k -> u ∈ ss_completed st) ->
          k ∈ ss_completed st').
Proof using idx_NoDup END_fresh ups_defined ups_elem hw_elem to_valid.
  intros Hinv. unfold sequence_iteration.
  set (ds := list_of_set (downstream_of END st)).
  set (sorted := sort_values_desc (key_rows (ss_segments st) ds)).
  assert (Hperm : sorted ≡ₚ ds).
  { unfold sorted. rewrite sort_values_desc_perm. unfold key_rows.
    rewrite <- list_fmap_compose. by rewrite list_fmap_id. }
  assert (Hds : forall k, k ∈ sorted <->
            (exists u, u ∈ ss_completed st /\ to !!! u = k)
            /\ (k ∉ ss_completed st) /\ k <> END).
  { intros k. rewrite Hperm. unfold ds.
    rewrite list_of_set_elem, elem_of_downstream_of. by rewrite (inv_to _ Hinv). }
  destruct (sequence_fold_inv sorted st) as (st' & Hst' & Hinv' & Hmono & _ & Hdone).
  - rewrite Hperm. apply list_of_set_NoDup.
  - intros k ((u & Hu & Hto) & Hk & Hend)%Hds.
    pose proof (inv_completed _ Hinv u Hu) as Hui.
    split_and!; [|done|by exists u].
    destruct (to_valid u Hui); congruence.
  - done.
  - exists st'. split_and!; try done.
    intros k Hk Hkc Hex Hall. apply Hdone; [|done].
    apply Hds. split_and!; try done. congruence.
Qed.

Lemma sequence_loop_inv n :
  forall st,
    seq_inv st ->
    exists st',
      sequence_loop n END ups st = Ok st'
      /\ seq_inv st'
      /\ (forall k, k ∈ ss_completed st -> k ∈ ss_completed st').
Proof using idx_NoDup END_fresh ups_defined ups_elem hw_elem to_valid.
  induction n as [|n IH]; intros st Hinv.
  - by exists st.
  - destruct (sequence_iteration_inv st Hinv) as (st1 & Hst1 & Hinv1 & Hmono1 & _).
    simpl. rewrite Hst1. simpl.
    destruct (sequence_done (ss_segments st1)); [by exists st1|].
    destruct (IH st1 Hinv1) as (st' & Hst' & Hinv' & Hmono').
    exists st'. split_and!; auto.
Qed.

(** *** Progress on a network without cycle *)

(** the segments that are [D] or more segments from their outlet are done *)
Definition deep (D : Z) (st : SeqState) : Prop :=
  forall k, k ∈ idx -> D <= num !!! k -> k ∈ ss_completed st.

Hypothesis num_step :
  forall u, u ∈ idx -> to !!! u ∈ idx -> num !!! u = num !!! (to !!! u) + 1.

Lemma sequence_iteration_deep st st' D :
  seq_inv st ->
  sequence_iteration END ups st = Ok st' ->
  deep (D + 1) st -> deep D st'.
Proof using idx_NoDup END_fresh ups_defined ups_elem hw_elem to_valid num_step.
  intros Hinv Hst' Hdeep k Hk HD.
  destruct (sequence_iteration_inv st Hinv) as (st1 & Hst1 & _ & Hmono & Hdone).
  rewrite Hst' in Hst1. injection Hst1 as <-.
  destruct (decide (k ∈ ss_completed st)) as [Hc|Hc]; [by apply Hmono|].
  assert (Hup : forall u, u ∈ idx -> to !!! u = k -> u ∈ ss_completed st).
  { intros u Hu Hto. apply Hdeep; [done|].
    rewrite (num_step u Hu), Hto by (by rewrite Hto). lia. }
  destruct (decide (Exists (fun u => to !!! u = k) idx)) as [Hex|Hex].
  - apply Exists_exists in Hex as (u & Hu & Hto).
    apply Hdone; try done. exists u. split; [by apply Hup|done].
  - destruct Hc. apply (inv_hw _ Hinv), hw_elem. split; [done|].
    intros u Hu Hto. apply Hex, Exists_exists. by exists u.
Qed.

Lemma sequence_done_spec seg :
  sequence_done seg = true -> forall k, k ∈ index seg -> 0 < sequence seg !!! k.
Proof.
  unfold sequence_done. intros Hdone%Z.ltb_lt k Hk.
  eapply Z.lt_le_trans; [exact Hdone|]. apply zmin_list_le.
  apply list_elem_of_fmap. by exists k.
Qed.

Lemma sequence_loop_deep n :
  forall st st' D,
    seq_inv st ->
    (forall k, k ∈ idx -> 1 <= num !!! k) ->
    deep D st -> D <= Z.of_nat n + 1 ->
    sequence_loop n END ups st = Ok st' ->
    forall k, k ∈ idx -> k ∈ ss_completed st'.
Proof using idx_NoDup END_fresh ups_defined ups_elem hw_elem to_valid num_step.
  induction n as [|n IH]; intros st st' D Hinv Hpos Hdeep HD Hloop k Hk.
  - injection Hloop as <-. apply Hdeep; [done|]. specialize (Hpos k Hk). lia.
  - simpl in Hloop. apply bind_Ok in Hloop as (st1 & Hst1 & Hloop).
    destruct (sequence_iteration_inv st Hinv) as (st1' & Hst1' & Hinv1 & _).
    rewrite Hst1 in Hst1'. injection Hst1' as <-.
    destruct (sequence_done (ss_segments st1)) eqn:Hdone.
    + injection Hloop as <-.
      destruct (decide (k ∈ ss_completed st1)) as [Hc|Hc]; [done|].
      rewrite <- (inv_index _ Hinv1) in Hk.
      pose proof (sequence_done_spec _ Hdone k Hk) as Hlt.
      rewrite (inv_index _ Hinv1) in Hk.
      destruct (inv_zero _ Hinv1 k Hk Hc) as [Hz _]. lia.
    + apply (IH st1 st' (D - 1)); try done; [|lia].
      apply (sequence_iteration_deep st); [done|done|].
      by replace (D - 1 + 1) with D by lia.
Qed.

End Sequencer.

(** ** The stages of the constructor *)

Lemma connect_all_graph lines END seg warns errs :
  NoDup lines.*1 ->
  connect_all (sindex_sub lines) (initial_segments lines END) = (seg, warns, errs) ->
  geometry seg = lines
  /\ forall k, k ∈ lines.*1 ->
       to_segnum seg !!! k = END \/ to_segnum seg !!! k ∈ lines.*1.
Proof.
  intros Hnd Hconn.
  destruct (connect_fold _ _ _ _ _ _ _ _ Hconn Hnd) as (Hg & _ & _ & Hrows).
  split; [done|]. intros k ([k' g] & -> & Hin)%list_elem_of_fmap.
  destruct (Hrows _ Hin) as [Hto _]. cbv zeta in Hto. cbn [fst snd] in Hto |- *.
  rewrite lookup_total_alt, Hto.
  destruct (downstream_matches _ _ _) as [|t ms] eqn:Hms.
  - simpl. unfold column. rewrite lookup_gset_to_gmap, option_guard_True.
    + by left.
    + apply elem_of_list_to_set, list_elem_of_fmap. by exists (k', g).
  - simpl. assert (t ∈ downstream_matches k' (coords_end g)
                     (candidates (initial_segments lines END) (sindex_sub lines)
                        (coords_end g))) as Ht by (rewrite Hms; by left).
    right. eapply elem_of_sublist; [exact Ht|].
    etrans; [apply downstream_matches_sublist|].
    apply fmap_sublist, candidates_sublist.
Qed.

(** the upstream dictionary *)
Lemma foldl_insert_lookup {A} (f : Z -> A) l (m : gmap Z A) k :
  foldl (fun (m : gmap Z A) x => <[x := f x]> m) m l !! k
  = if decide (k ∈ l) then Some (f k) else m !! k.
Proof.
  revert m. induction l as [|x l IH]; intros m.
  - by destruct (decide (k ∈ [])) as [?%elem_of_nil|].
  - simpl. rewrite IH. destruct (decide (k ∈ l)) as [Hl|Hl].
    + rewrite decide_True; [done|]. by right.
    + destruct (decide (x = k)) as [->|Hne].
      * rewrite lookup_insert_eq, decide_True; [done|]. by left.
      * rewrite lookup_insert_ne by done. rewrite decide_False; [done|].
        by intros [?|?]%elem_of_cons.
Qed.

Lemma build_upstream_segnums_lookup seg END k :
  build_upstream_segnums seg END !! k
  = if decide (k ∈ to_segnum_values seg /\ k <> END)
    then Some (list_to_set (index_where_to seg k)) else None.
Proof.
  unfold build_upstream_segnums. rewrite foldl_insert_lookup.
  destruct (decide (k ∈ list_of_set _)) as [Hk|Hk].
  - rewrite decide_True; [done|].
    apply list_of_set_elem, elem_of_difference in Hk as [Hk Hend].
    apply elem_of_list_to_set in Hk. apply not_elem_of_singleton in Hend. done.
  - rewrite decide_False; [done|]. intros [Hv Hend]. apply Hk, list_of_set_elem.
    apply elem_of_difference. split; [by apply elem_of_list_to_set|].
    by apply not_elem_of_singleton.
Qed.

Lemma elem_of_to_segnum_values seg k :
  k ∈ to_segnum_values seg <-> exists u, u ∈ index seg /\ to_segnum seg !!! u = k.
Proof.
  unfold to_segnum_values. rewrite list_elem_of_fmap. split.
  - intros (u & -> & Hu). by exists u.
  - intros (u & Hu & <-). by exists u.
Qed.

Lemma elem_of_headwater seg k :
  k ∈ headwater seg
  <-> k ∈ index seg /\ forall u, u ∈ index seg -> to_segnum seg !!! u <> k.
Proof.
  unfold headwater. rewrite list_elem_of_filter, elem_of_to_segnum_values. split.
  - intros [Hno Hk]. split; [done|]. intros u Hu Hto. apply Hno. by exists u.
  - intros [Hk Hno]. split; [|done]. intros (u & Hu & Hto). by apply (Hno u).
Qed.

(** the numbering of the headwater segments *)
Lemma number_sequence_lookup l :
  forall seg a k,
    NoDup l ->
    sequence (foldl (fun seg (r : Z * Z) => set_sequence r.1 r.2 seg) seg
                (zip l (seqZ a (Z.of_nat (length l))))) !!! k
    = match list_find (fun x => x = k) l with
      | Some (i, _) => a + Z.of_nat i
      | None => sequence seg !!! k
      end.
Proof.
  induction l as [|x l IH]; intros seg a k Hnd; [done|].
  apply NoDup_cons in Hnd as [Hx Hnd].
  rewrite length_cons, Nat2Z.inj_succ, seqZ_cons by lia.
  replace (Z.pred (Z.succ (Z.of_nat (length l)))) with (Z.of_nat (length l)) by lia.
  simpl. rewrite IH by done. simpl.
  destruct (decide (x = k)) as [->|Hne].
  - destruct (list_find _ l) as [[i y]|] eqn:Hfind.
    + apply list_find_Some in Hfind as (Hi & -> & _).
      destruct Hx. by eapply list_elem_of_lookup_2.
    + simpl. rewrite lookup_total_insert_eq. lia.
  - destruct (list_find _ l) as [[i y]|] eqn:Hfind; simpl.
    + lia.
    + by rewrite lookup_total_insert_ne.
Qed.

Lemma fold_set_sequence_frame (l : list (Z * Z)) seg :
  let seg' := foldl (fun seg (r : Z * Z) => set_sequence r.1 r.2 seg) seg l in
  geometry seg' = geometry seg /\ to_segnum seg' = to_segnum seg
  /\ num_to_outlet seg' = num_to_outlet seg
  /\ stream_order seg' = stream_order seg.
Proof.
  revert seg. induction l as [|r l IH]; intros seg; simpl; [done|].
  destruct (IH (set_sequence r.1 r.2 seg)) as (-> & -> & -> & ->). done.
Qed.

Lemma fold_set_stream_order (l : list Z) seg :
  let seg' := foldl (fun seg k => set_stream_order k 1 seg) seg l in
  geometry seg' = geometry seg /\ to_segnum seg' = to_segnum seg
  /\ num_to_outlet seg' = num_to_outlet seg
  /\ sequence seg' = sequence seg
  /\ forall k, stream_order seg' !!! k
               = if decide (k ∈ l) then 1 else stream_order seg !!! k.
Proof.
  revert seg. induction l as [|x l IH]; intros seg.
  - simpl. split_and!; try done; intros k;
      by destruct (decide (k ∈ [])) as [?%elem_of_nil|].
  - simpl. destruct (IH (set_stream_order x 1 seg)) as (-> & -> & -> & -> & Hso).
    split_and!; try done. intros k. rewrite Hso. simpl.
    destruct (decide (k ∈ l)) as [Hl|Hl].
    + rewrite decide_True; [done|]. by right.
    + destruct (decide (x = k)) as [->|Hne].
      * rewrite lookup_total_insert_eq, decide_True; [done|]. by left.
      * rewrite lookup_total_insert_ne by done. rewrite decide_False; [done|].
        by intros [?|?]%elem_of_cons.
Qed.

Lemma number_headwater_spec fu seg :
  NoDup fu ->
  let seg' := number_headwater fu seg in
  geometry seg' = geometry seg /\ to_segnum seg' = to_segnum seg
  /\ num_to_outlet seg' = num_to_outlet seg
  /\ (forall k, k ∉ fu ->
        sequence seg' !!! k = sequence seg !!! k
        /\ stream_order seg' !!! k = stream_order seg !!! k)
  /\ (forall i k, fu !! i = Some k -> sequence seg' !!! k = 1 + Z.of_nat i)
  /\ (forall k, k ∈ fu -> stream_order seg' !!! k = 1).
Proof.
  intros Hnd. unfold number_headwater.
  assert (Hidx : series_index (zip fu (seqZ 1 (Z.of_nat (length fu)))) = fu).
  { unfold series_index. apply fst_zip. rewrite length_seqZ. lia. }
  rewrite Hidx.
  set (seg1 := foldl (fun seg (r : Z * Z) => set_sequence r.1 r.2 seg) seg _).
  destruct (fold_set_stream_order fu seg1) as (Hg2 & Ht2 & Hn2 & Hs2 & Hso2).
  destruct (fold_set_sequence_frame (zip fu (seqZ 1 (Z.of_nat (length fu)))) seg)
    as (Hg1 & Ht1 & Hn1 & Hso1).
  fold seg1 in Hg1, Ht1, Hn1, Hso1.
  cbv zeta. rewrite Hg2, Ht2, Hn2, Hs2, Hg1, Ht1, Hn1.
  split_and!; try done.
  - intros k Hk. rewrite Hso2, decide_False, Hso1 by done. split; [|done].
    unfold seg1. rewrite number_sequence_lookup by done.
    destruct (list_find _ fu) as [[i y]|] eqn:Hfind; [|done].
    apply list_find_Some in Hfind as (Hi & -> & _).
    destruct Hk. by eapply list_elem_of_lookup_2.
  - intros i k Hi. unfold seg1. rewrite number_sequence_lookup by done.
    destruct (list_find _ fu) as [[j y]|] eqn:Hfind.
    + apply list_find_Some in Hfind as (Hj & -> & _).
      by rewrite (NoDup_lookup _ _ _ _ Hnd Hi Hj).
    + apply list_find_None in Hfind.
      by destruct (proj1 (Forall_forall _ _) Hfind k
                     (list_elem_of_lookup_2 _ _ _ Hi)).
  - intros k Hk. by rewrite Hso2, decide_True.
Qed.

(** What a call of [init] that returns went through. *)
Lemma init_Ok stack lines net :
  init stack lines = Ok net ->
  let END := end_segnum lines.*1 in
  exists seg_c warns errs seg_t st,
    lines <> []
    /\ connect_all (sindex_sub lines) (initial_segments lines END)
       = (seg_c, warns, errs)
    /\ traverse_outlets stack END (with_outlet_columns END seg_c) = Ok seg_t
    /\ let hw := headwater seg_t in
       let fu := sort_values_desc (key_rows (with_sequence_columns seg_t) hw) in
       let seg_s := number_headwater fu (with_sequence_columns seg_t) in
       let ups := build_upstream_segnums seg_s END in
       let n := zmax_list ((fun k => num_to_outlet seg_s !!! k) <$> index seg_s) in
       fu <> []
       /\ sequence_loop (Z.to_nat n) END ups
            (mkSeqState seg_s (list_to_set hw) (Z.of_nat (length fu))) = Ok st
       /\ 1 <= n
       /\ segments net = ss_segments st
       /\ END_SEGNUM net = END
       /\ upstream_segnums net = ups
       /\ (forall e, e ∈ errs -> e ∈ errors net).
Proof.
  unfold init. destruct (decide (lines = [])) as [|Hne]; [done|].
  destruct (connect_all _ _) as [[seg_c warns] errs] eqn:Hconn.
  intros (seg_t & Htrav & Hrest)%bind_Ok.
  destruct (common_locations coords_start _ _ _ _ _) as [start_coords warns1].
  destruct (common_locations coords_end _ _ _ _ _) as [end_coords warns2].
  apply bind_Ok in Hrest as (sq & Hsq & Hrest).
  apply bind_Ok in Hrest as (st & Hloop & Hrest).
  destruct (decide (sort_values_desc _ = [])) as [|Hfu]; [done|].
  injection Hsq as <-.
  destruct (Z.ltb_spec (zmax_list ((fun k => num_to_outlet
     (number_headwater (sort_values_desc (key_rows (with_sequence_columns seg_t)
        (headwater seg_t))) (with_sequence_columns seg_t)) !!! k) <$>
     index (number_headwater (sort_values_desc (key_rows (with_sequence_columns seg_t)
        (headwater seg_t))) (with_sequence_columns seg_t)))) 1) as [|Hn]; [done|].
  injection Hrest as <-.
  exists seg_c, warns, errs, seg_t, st. simpl. split_and!; try done.
  intros e He. apply elem_of_app. by left.
Qed.

(** The state in which the sequencer starts, and the facts the loop relies
    on, once the connectivity pass and the recursion have returned. *)
Lemma stage_facts stack lines seg_c warns errs seg_t :
  NoDup lines.*1 ->
  let END := end_segnum lines.*1 in
  let idx := lines.*1 in
  connect_all (sindex_sub lines) (initial_segments lines END) = (seg_c, warns, errs) ->
  traverse_outlets stack END (with_outlet_columns END seg_c) = Ok seg_t ->
  let to := to_segnum seg_c in
  let num := num_to_outlet seg_t in
  let hw := headwater seg_t in
  let fu := sort_values_desc (key_rows (with_sequence_columns seg_t) hw) in
  let seg_s := number_headwater fu (with_sequence_columns seg_t) in
  let ups := build_upstream_segnums seg_s END in
  (forall k, k ∈ idx -> to !!! k = END \/ to !!! k ∈ idx)
  /\ (forall u, u ∈ idx -> to !!! u ∈ idx -> exists up, ups !! (to !!! u) = Some up)
  /\ (forall k up, ups !! k = Some up ->
        k ∈ idx /\ forall u, u ∈ up <-> u ∈ idx /\ to !!! u = k)
  /\ (forall k, k ∈ hw <-> k ∈ idx /\ forall u, u ∈ idx -> to !!! u <> k)
  /\ (forall k, k ∈ idx ->
        (forall d, drains END idx to k d -> num !!! k = Z.of_nat d)
        /\ (num !!! k = 0
            \/ exists d, drains END idx to k d /\ num !!! k = Z.of_nat d)
        /\ num !!! k <= Z.of_nat stack)
  /\ seq_inv idx to num ups hw
       (mkSeqState seg_s (list_to_set hw) (Z.of_nat (length fu)))
  /\ index seg_s = idx
  /\ num_to_outlet seg_s = num
  /\ geometry seg_s = lines
  /\ fu ≡ₚ hw
  /\ to_segnum seg_t = to.
Proof.
  intros Hnd END idx Hconn Htrav to num hw fu seg_s ups.
  destruct (connect_all_graph _ _ _ _ _ Hnd Hconn) as (Hgc & Hvalid).
  pose proof (end_segnum_fresh idx) as Hend. fold END in Hend.
  set (seg_o := with_outlet_columns END seg_c) in *.
  assert (Hio : index seg_o = idx) by (unfold index; simpl; by rewrite Hgc).
  destruct (traverse_outlets_frame _ _ _ _ Htrav) as (Hgt & Htt & _).
  assert (Hit : index seg_t = idx) by (unfold index; by rewrite Hgt, <- Hio).
  assert (Hzero : forall k, k ∈ idx -> num_to_outlet seg_o !!! k = 0).
  { intros k Hk. simpl. apply column_lookup. unfold index. by rewrite Hgc. }
  pose proof (traverse_outlets_numbers _ _ _ _ Htrav) as Hnum.
  rewrite Hio in Hnum. specialize (Hnum Hend Hzero).
  pose proof (traverse_outlets_depth _ _ _ _ Htrav) as Hdepth.
  rewrite Hio in Hdepth. specialize (Hdepth Hzero).
  assert (Hperm : fu ≡ₚ hw).
  { unfold fu. rewrite sort_values_desc_perm. unfold key_rows.
    rewrite <- list_fmap_compose. by rewrite list_fmap_id. }
  assert (Hhwnd : NoDup hw).
  { unfold hw, headwater. apply NoDup_filter. by rewrite Hit. }
  assert (Hfund : NoDup fu) by by rewrite Hperm.
  destruct (number_headwater_spec fu (with_sequence_columns seg_t) Hfund)
    as (Hgs & Hts & Hns & Hrest_s & Hseq_s & Hord_s).
  fold seg_s in Hgs, Hts, Hns, Hrest_s, Hseq_s, Hord_s.
  assert (Hgs' : geometry seg_s = lines) by (rewrite Hgs; simpl; by rewrite Hgt).
  assert (His : index seg_s = idx) by (unfold index; by rewrite Hgs').
  assert (Hts' : to_segnum seg_s = to) by (rewrite Hts; simpl; by rewrite Htt).
  assert (Hns' : num_to_outlet seg_s = num) by by rewrite Hns.
  assert (Hhw : forall k, k ∈ hw <-> k ∈ idx /\ forall u, u ∈ idx -> to !!! u <> k).
  { intros k. unfold hw. rewrite elem_of_headwater, Hit. simpl in Htt.
    by rewrite Htt. }
  assert (Hupsl : forall k, ups !! k
            = if decide (k ∈ to_segnum_values seg_s /\ k <> END)
              then Some (list_to_set (index_where_to seg_s k)) else None).
  { intros k. apply build_upstream_segnums_lookup. }
  split_and!; try done.
  - intros u Hu Hto. rewrite Hupsl, decide_True; [by eexists|]. split.
    + apply elem_of_to_segnum_values. exists u. by rewrite His, Hts'.
    + intros Heq. apply Hend. rewrite Heq in Hto. exact Hto.
  - intros k up. rewrite Hupsl.
    destruct (decide _) as [[Hk Hne]|]; [|done]. intros [= <-]. split.
    + apply elem_of_to_segnum_values in Hk as (u & Hu & <-).
      rewrite His in Hu. rewrite Hts' in Hne |- *.
      destruct (Hvalid u Hu) as [Heq|?]; [by destruct Hne|done].
    + intros u.
      by rewrite elem_of_list_to_set, elem_of_index_where_to, His, Hts'.
  - intros k Hk. destruct (Hnum k Hk) as [Hd Hz]. simpl in Hd, Hz.
    split_and!; [exact Hd|exact Hz|by apply Hdepth].
  - constructor; simpl; try done.
    + intros h Hh. by apply elem_of_list_to_set.
    + intros k Hk%elem_of_list_to_set. by apply Hhw in Hk as [? _].
    + rewrite size_list_to_set by done. by rewrite Hperm.
    + intros k Hk Hc. rewrite elem_of_list_to_set in Hc.
      destruct (Hrest_s k) as [-> ->]; [by rewrite Hperm|]. simpl.
      rewrite !column_lookup; [done|by rewrite Hit..].
    + intros k Hk%elem_of_list_to_set. rewrite <- Hperm in Hk.
      apply list_elem_of_lookup in Hk as (i & Hi). rewrite (Hseq_s i k Hi).
      apply lookup_lt_Some in Hi. lia.
    + intros k k' Hk%elem_of_list_to_set Hk'%elem_of_list_to_set.
      rewrite <- Hperm in Hk, Hk'.
      apply list_elem_of_lookup in Hk as (i & Hi).
      apply list_elem_of_lookup in Hk' as (j & Hj).
      rewrite (Hseq_s i k Hi), (Hseq_s j k' Hj). intros Heq.
      assert (i = j) as -> by lia. congruence.
    + intros k u Hk%elem_of_list_to_set Hu Hto.
      apply Hhw in Hk as [_ Hk]. by destruct (Hk u Hu).
    + intros k Hk%elem_of_list_to_set Hk'. done.
    + intros h Hh. apply Hord_s. by rewrite Hperm.
Qed.

(** The sequencer's invariant holds of the network that [init] returns. *)
Lemma init_invariant stack lines net :
  NoDup lines.*1 ->
  init stack lines = Ok net ->
  let END := end_segnum lines.*1 in
  let idx := lines.*1 in
  let ups := upstream_segnums net in
  exists to num hw st0 st,
    (forall k, k ∈ idx -> to !!! k = END \/ to !!! k ∈ idx)
    /\ (forall u, u ∈ idx -> to !!! u ∈ idx -> exists up, ups !! (to !!! u) = Some up)
    /\ (forall k up, ups !! k = Some up ->
          k ∈ idx /\ forall u, u ∈ up <-> u ∈ idx /\ to !!! u = k)
    /\ (forall k, k ∈ hw <-> k ∈ idx /\ forall u, u ∈ idx -> to !!! u <> k)
    /\ (forall k, k ∈ idx ->
          (forall d, drains END idx to k d -> num !!! k = Z.of_nat d)
          /\ (num !!! k = 0
              \/ exists d, drains END idx to k d /\ num !!! k = Z.of_nat d)
          /\ num !!! k <= Z.of_nat stack)
    /\ seq_inv idx to num ups hw st0
    /\ sequence_loop (Z.to_nat (zmax_list ((fun k => num !!! k) <$> idx)))
         END ups st0 = Ok st
    /\ seq_inv idx to num ups hw st
    /\ 1 <= zmax_list ((fun k => num !!! k) <$> idx)
    /\ segments net = ss_segments st
    /\ END_SEGNUM net = END.
Proof.
  intros Hnd Hinit END idx ups.
  destruct (init_Ok _ _ _ Hinit)
    as (seg_c & warns & errs & seg_t & st & Hne & Hconn & Htrav & Hrest).
  fold END in Hconn, Htrav, Hrest. cbv zeta in Hrest.
  destruct Hrest as (Hfu & Hloop & Hn & Hseg & HEND & Hups & _).
  destruct (stage_facts _ _ _ _ _ _ Hnd Hconn Htrav)
    as (Hvalid & Hdef & Helem & Hhw & Hnum & Hinv0 & His & Hns & Hgs & Hperm & Htt).
  fold END idx in Hvalid, Hdef, Helem, Hhw, Hnum, Hinv0, His, Hns.
  rewrite His, Hns in Hloop, Hn. unfold ups. rewrite Hups.
  pose proof (end_segnum_fresh idx) as Hend. fold END in Hend.
  eexists _, _, _, _, st. split_and!; try done.
  destruct (sequence_loop_inv END idx _ _ _ _ Hnd Hend Hdef
              (fun k up Hk => proj2 (Helem k up Hk)) Hhw Hvalid
              (Z.to_nat (zmax_list ((fun k => num_to_outlet seg_t !!! k) <$> idx)))
              _ Hinv0)
    as (st' & Hst' & Hinv' & _).
  rewrite Hloop in Hst'. by injection Hst' as <-.
Qed.

(** On a network without cycle every segment is sequenced: the numbers are
    distinct, between 1 and the number of segments, and grow downstream. *)
Lemma init_acyclic stack lines net :
  NoDup lines.*1 ->
  init stack lines = Ok net ->
  acyclic (END_SEGNUM net) (segments net) ->
  let seg := segments net in
  index seg = lines.*1
  /\ (forall k, k ∈ index seg ->
        1 <= sequence seg !!! k <= Z.of_nat (length (index seg)))
  /\ (forall k k', k ∈ index seg -> k' ∈ index seg ->
        sequence seg !!! k = sequence seg !!! k' -> k = k')
  /\ (forall s up, upstream_segnums net !! s = Some up ->
        s ∈ index seg
        /\ forall u, u ∈ up ->
             u ∈ index seg /\ sequence seg !!! u < sequence seg !!! s).
Proof.
  intros Hnd Hinit Hacyclic.
  destruct (init_invariant _ _ _ Hnd Hinit)
    as (to & num & hw & st0 & st & Hvalid & Hdef & Helem & Hhw & Hnum & Hinv0
        & Hloop & Hinv & Hn & Hseg & HEND).
  set (END := end_segnum lines.*1) in *. set (idx := lines.*1) in *.
  pose proof (end_segnum_fresh idx) as Hend. fold END in Hend.
  unfold acyclic in Hacyclic. cbv zeta. rewrite Hseg, HEND in *.
  rewrite (inv_index _ _ _ _ _ _ Hinv), (inv_to _ _ _ _ _ _ Hinv) in Hacyclic.
  rewrite (inv_index _ _ _ _ _ _ Hinv).
  assert (Hpos : forall k, k ∈ idx -> 1 <= num !!! k).
  { intros k Hk. destruct (Hacyclic k Hk) as (d & Hd).
    destruct (Hnum k Hk) as (Hk' & _). rewrite (Hk' d Hd).
    apply drains_pos in Hd. lia. }
  assert (Hstep : forall u, u ∈ idx -> to !!! u ∈ idx ->
                    num !!! u = num !!! (to !!! u) + 1).
  { intros u Hu Hto. destruct (Hacyclic _ Hto) as (d & Hd).
    destruct (Hnum _ Hto) as (Hk' & _). rewrite (Hk' d Hd).
    destruct (Hnum u Hu) as (Hu' & _).
    rewrite (Hu' (S d)) by (by apply drains_step). lia. }
  assert (Hall : forall k, k ∈ idx -> k ∈ ss_completed st).
  { apply (sequence_loop_deep END idx to num _ hw Hnd Hend Hdef
             (fun k up Hk => proj2 (Helem k up Hk)) Hhw Hvalid Hstep
             (Z.to_nat (zmax_list ((fun k => num !!! k) <$> idx)))
             st0 st (zmax_list ((fun k => num !!! k) <$> idx)) Hinv0 Hpos);
      [|lia|exact Hloop].
    intros k Hk Hmax. apply (inv_hw _ _ _ _ _ _ Hinv0), Hhw. split; [done|].
    intros u Hu Hto.
    assert (num !!! u <= zmax_list ((fun k => num !!! k) <$> idx)) as Hle.
    { apply zmax_list_ge, list_elem_of_fmap. by exists u. }
    rewrite (Hstep u Hu), Hto in Hle by (by rewrite Hto). lia. }
  assert (Hsize : ss_sequence st = Z.of_nat (length idx)).
  { rewrite (inv_counter _ _ _ _ _ _ Hinv). f_equal.
    rewrite <- (size_list_to_set (C := gset Z) idx) by done. f_equal.
    apply set_eq. intros k. rewrite elem_of_list_to_set. split; [|by apply Hall].
    apply (inv_completed _ _ _ _ _ _ Hinv). }
  split_and!.
  - done.
  - intros k Hk. rewrite <- Hsize.
    apply (inv_range _ _ _ _ _ _ Hinv). by apply Hall.
  - intros k k' Hk Hk'. apply (inv_inj _ _ _ _ _ _ Hinv); by apply Hall.
  - intros s up Hup. destruct (Helem s up Hup) as [Hs Hu]. split; [done|].
    intros u [Hui Hto]%Hu. split; [done|].
    by apply (inv_topo _ _ _ _ _ _ Hinv s u); [apply Hall|..].
Qed.

Lemma NoDup_range_seqZ (l : list Z) n :
  NoDup l -> (forall x, x ∈ l -> 1 <= x <= Z.of_nat n) -> length l = n ->
  l ≡ₚ seqZ 1 (Z.of_nat n).
Proof.
  intros Hnd Hrange Hlen. apply submseteq_length_Permutation.
  - apply NoDup_submseteq; [done|]. intros x Hx. apply elem_of_seqZ.
    specialize (Hrange x Hx). lia.
  - rewrite length_seqZ. lia.
Qed.

(** C1: on a network without cycle, the [sequence] column is a permutation
    of 1..N over the N segments, and every segment has a greater sequence
    number than each of its upstream segments. *)
Theorem sequence_topological_permutation stack lines net :
  NoDup lines.*1 ->
  init stack lines = Ok net ->
  acyclic (END_SEGNUM net) (segments net) ->
  (fun k => sequence (segments net) !!! k) <$> index (segments net)
    ≡ₚ seqZ 1 (Z.of_nat (length (index (segments net))))
  /\ forall s up u,
       upstream_segnums net !! s = Some up -> u ∈ up ->
       sequence (segments net) !!! s > sequence (segments net) !!! u.
Proof.
  intros Hnd Hinit Hacyclic.
  destruct (init_acyclic _ _ _ Hnd Hinit Hacyclic) as (Hidx & Hrange & Hinj & Htopo).
  split.
  - apply NoDup_range_seqZ.
    + apply NoDup_fmap_2_strong; [|by rewrite Hidx]. intros k k' Hk Hk'. by apply Hinj.
    + intros x (k & -> & Hk)%list_elem_of_fmap. by apply Hrange.
    + by rewrite length_fmap.
  - intros s up u Hup Hu. destruct (Htopo s up Hup) as [_ Hlt].
    destruct (Hlt u Hu). lia.
Qed.

(** [acyclic] by computation *)
Fixpoint drainsb (END : Z) (idx : list Z) (to : gmap Z Z) (fuel : nat) (s : Z) : bool :=
  match fuel with
  | O => false
  | S fuel' =>
      bool_decide (s ∈ idx)
      && ((to !!! s =? END) || drainsb END idx to fuel' (to !!! s))
  end.

Definition acyclicb (END : Z) (seg : Segments) : bool :=
  forallb (drainsb END (index seg) (to_segnum seg) (length (index seg))) (index seg).

Lemma drainsb_spec END idx to fuel s :
  drainsb END idx to fuel s = true -> exists d, drains END idx to s d.
Proof.
  revert s. induction fuel as [|fuel IH]; intros s; simpl; [done|].
  intros [Hs%bool_decide_eq_true Hto]%andb_true_iff.
  apply orb_true_iff in Hto as [Hto%Z.eqb_eq|Hto].
  - exists 1%nat. by constructor.
  - destruct (IH _ Hto) as (d & Hd). exists (S d). by constructor.
Qed.

Lemma acyclicb_spec END seg : acyclicb END seg = true -> acyclic END seg.
Proof.
  unfold acyclicb. rewrite forallb_forall. intros Hall s Hs%list_elem_of_In.
  by eapply drainsb_spec, Hall.
Qed.

Lemma length_filter_fmap {A} (f : A -> Z) (m : Z) (l : list A) :
  length (filter (fun o => o = m) (f <$> l))
  = length (filter (fun u => f u = m) l).
Proof.
  induction l as [|u l IH]; [done|].
  rewrite fmap_cons, !filter_cons.
  destruct (decide (f u = m)); simpl; by rewrite IH.
Qed.

(** C5: a segment that is not a headwater and has a sequence number has the
    greatest stream order of its upstream segments when exactly one of them
    has it, and that order plus one when two or more have it. *)
Theorem stream_order_confluence stack lines net s :
  NoDup lines.*1 ->
  init stack lines = Ok net ->
  s ∈ index (segments net) ->
  s ∉ headwater (segments net) ->
  0 < sequence (segments net) !!! s ->
  exists up max_ord,
    upstream_segnums net !! s = Some up
    /\ (exists u, u ∈ up /\ stream_order (segments net) !!! u = max_ord)
    /\ (forall u, u ∈ up -> stream_order (segments net) !!! u <= max_ord)
    /\ let attain :=
         length (filter (fun u => stream_order (segments net) !!! u = max_ord)
                   (list_of_set up)) in
       (attain = 1%nat -> stream_order (segments net) !!! s = max_ord)
       /\ ((2 <= attain)%nat -> stream_order (segments net) !!! s = max_ord + 1).
Proof.
  intros Hnd Hinit Hs Hhw Hseq.
  destruct (init_invariant _ _ _ Hnd Hinit)
    as (to & num & hw & st0 & st & Hvalid & Hdef & Helem & Hhwe & Hnum & Hinv0
        & Hloop & Hinv & Hn & Hseg & HEND).
  rewrite Hseg in *.
  rewrite (inv_index _ _ _ _ _ _ Hinv) in Hs.
  assert (Hc : s ∈ ss_completed st).
  { destruct (decide (s ∈ ss_completed st)) as [|Hc]; [done|].
    destruct (inv_zero _ _ _ _ _ _ Hinv s Hs Hc). lia. }
  destruct (inv_order _ _ _ _ _ _ Hinv s Hc) as (up & Hup & Hord).
  { intros Hh. apply Hhw, elem_of_headwater.
    rewrite (inv_index _ _ _ _ _ _ Hinv), (inv_to _ _ _ _ _ _ Hinv).
    by apply Hhwe. }
  set (so := fun u => stream_order (ss_segments st) !!! u) in *.
  exists up, (zmax_list (so <$> list_of_set up)). unfold stream_order_of in Hord.
  destruct (so <$> list_of_set up) as [|o os] eqn:Hlist; [done|].
  rewrite <- Hlist in *.
  assert (Hlen : length (filter (fun o => o = zmax_list (so <$> list_of_set up))
                           (so <$> list_of_set up))
                 = length (filter (fun u => so u = zmax_list (so <$> list_of_set up))
                             (list_of_set up))).
  { apply length_filter_fmap. }
  rewrite Hlen in Hord. split_and!.
  - done.
  - assert (zmax_list (so <$> list_of_set up) ∈ so <$> list_of_set up) as Hin.
    { apply zmax_list_elem. by rewrite Hlist. }
    apply list_elem_of_fmap in Hin as (u & Hu & Hin). exists u.
    split; [by apply list_of_set_elem|done].
  - intros u Hu. apply zmax_list_ge, list_elem_of_fmap. exists u.
    split; [done|]. by apply list_of_set_elem.
  - cbv zeta. unfold so in *. split; intros Hat.
    + rewrite Hat in Hord. simpl in Hord. by injection Hord.
    + match type of Hat with (2 <= ?n)%nat =>
        assert ((1 <? Z.of_nat n) = true) as E by (apply Z.ltb_lt; lia)
      end.
      rewrite E in Hord. by injection Hord.
Qed.

(** C7, as the code has it: every headwater segment has stream order 1, and
    [num_to_outlet] is 1 on the outlets and on no other segment; a
    headwater has it only when it is an outlet too. *)
Theorem headwater_order_outlet_number stack lines net :
  NoDup lines.*1 ->
  init stack lines = Ok net ->
  (forall h, h ∈ headwater (segments net) ->
     stream_order (segments net) !!! h = 1)
  /\ (forall k, k ∈ index (segments net) ->
        num_to_outlet (segments net) !!! k = 1
        <-> to_segnum (segments net) !!! k = END_SEGNUM net).
Proof.
  intros Hnd Hinit.
  destruct (init_invariant _ _ _ Hnd Hinit)
    as (to & num & hw & st0 & st & Hvalid & Hdef & Helem & Hhwe & Hnum & Hinv0
        & Hloop & Hinv & Hn & Hseg & HEND).
  pose proof (end_segnum_fresh lines.*1) as Hend.
  rewrite Hseg, HEND, (inv_index _ _ _ _ _ _ Hinv), (inv_to _ _ _ _ _ _ Hinv),
    (inv_num _ _ _ _ _ _ Hinv).
  split.
  - intros h Hh. apply (inv_hw_order _ _ _ _ _ _ Hinv), Hhwe.
    apply elem_of_headwater in Hh.
    by rewrite (inv_index _ _ _ _ _ _ Hinv), (inv_to _ _ _ _ _ _ Hinv) in Hh.
  - intros k Hk. destruct (Hnum k Hk) as (Hd & Hsound & _). split.
    + intros H1. destruct Hsound as [Hz|(d & Hdr & Hd')]; [lia|].
      assert (d = 1%nat) as -> by lia.
      inversion Hdr as [|? d' _ Hdr']; [done|].
      apply drains_pos in Hdr'. lia.
    + intros Hto. apply (Hd 1%nat). by constructor.
Qed.



(** *** What the constructor does when the sequencer cannot go on *)

(** The three ways a call of [init] ends once the recursion has returned. *)
Lemma init_cases stack lines :
  NoDup lines.*1 -> lines <> [] -> (length lines <= stack)%nat ->
  let END := end_segnum lines.*1 in
  let seg_c := (connect_all (sindex_sub lines) (initial_segments lines END)).1.1 in
  exists seg_t,
    traverse_outlets stack END (with_outlet_columns END seg_c) = Ok seg_t
    /\ let n := zmax_list ((fun k => num_to_outlet seg_t !!! k) <$> lines.*1) in
       (headwater seg_t = [] -> init stack lines = Raise ValueError)
       /\ (headwater seg_t <> [] -> n < 1 ->
           init stack lines = Raise UnboundLocalError)
       /\ (headwater seg_t <> [] -> 1 <= n ->
           exists net, init stack lines = Ok net).
Proof.
  intros Hnd Hne Hstack END seg_c. subst seg_c. unfold init.
  rewrite decide_False by done. fold END.
  destruct (connect_all _ _) as [[seg_c warns] errs] eqn:Hconn. simpl.
  destruct (connect_all_graph _ _ _ _ _ Hnd Hconn) as (Hgc & Hvalid).
  pose proof (end_segnum_fresh lines.*1) as Hend. fold END in Hend.
  destruct (traverse_outlets_total stack END (with_outlet_columns END seg_c))
    as (seg_t & Htrav).
  { unfold index. simpl. by rewrite Hgc. }
  { unfold index. simpl. by rewrite Hgc. }
  { unfold index. simpl. rewrite Hgc, length_fmap. lia. }
  exists seg_t. split; [done|]. rewrite Htrav. simpl.
  destruct (common_locations coords_start _ _ _ _ _) as [start_coords warns1].
  destruct (common_locations coords_end _ _ _ _ _) as [end_coords warns2].
  destruct (stage_facts _ _ _ _ _ _ Hnd Hconn Htrav)
    as (_ & Hdef & Helem & Hhw & Hnum & Hinv0 & His & Hns & Hgs & Hperm & Htt).
  fold END in Hdef, Helem, Hhw, Hnum, Hinv0, His, Hns.
  rewrite His, Hns.
  destruct (sequence_loop_inv END lines.*1 _ _ _ _ Hnd Hend Hdef
              (fun k up Hk => proj2 (Helem k up Hk)) Hhw Hvalid
              (Z.to_nat (zmax_list ((fun k => num_to_outlet seg_t !!! k) <$> lines.*1)))
              _ Hinv0)
    as (st & Hst & _).
  split_and!.
  - intros Hnil. rewrite Hnil in Hperm. apply Permutation_nil_r in Hperm.
    rewrite Hnil. by rewrite decide_True.
  - intros Hhwne Hn. rewrite decide_False; cycle 1.
    { intros Hnil. rewrite Hnil in Hperm. symmetry in Hperm.
      by apply Permutation_nil_r in Hperm. }
    simpl. rewrite Hst. simpl. by apply Z.ltb_lt in Hn as ->.
  - intros Hhwne Hn. rewrite decide_False; cycle 1.
    { intros Hnil. rewrite Hnil in Hperm. symmetry in Hperm.
      by apply Permutation_nil_r in Hperm. }
    simpl. rewrite Hst. simpl. apply Z.ltb_ge in Hn as ->. by eexists.
Qed.

Lemma headwater_same seg seg' :
  geometry seg' = geometry seg -> to_segnum seg' = to_segnum seg ->
  headwater seg' = headwater seg.
Proof.
  intros Hg Ht. unfold headwater, to_segnum_values, index. by rewrite Hg, Ht.
Qed.

(** A segment that reaches no outlet has one that is never sequenced on its
    way: the sequence numbers would grow for ever along it. *)
Lemma seq_inv_undrained END idx to num ups hw st k0 :
  NoDup idx ->
  (forall k, k ∈ idx -> to !!! k = END \/ to !!! k ∈ idx) ->
  seq_inv idx to num ups hw st ->
  k0 ∈ idx ->
  (forall d, ~ drains END idx to k0 d) ->
  exists k, k ∈ idx /\ k ∉ ss_completed st.
Proof.
  intros Hnd Hvalid Hinv Hk0 Hnone.
  set (at_ := fun j => Nat.iter j (fun k => to !!! k) k0).
  assert (Horbit : forall j, at_ j ∈ idx /\ forall d, ~ drains END idx to (at_ j) d).
  { induction j as [|j [IHj IHd]]; [done|]. simpl.
    assert (to !!! at_ j <> END) as Hne.
    { intros Heq. apply (IHd 1%nat). by constructor. }
    split.
    - by destruct (Hvalid _ IHj).
    - intros d Hd. apply (IHd (S d)). by constructor. }
  assert (Hwalk : forall j,
    (exists i, at_ i ∈ idx /\ at_ i ∉ ss_completed st)
    \/ (at_ j ∈ ss_completed st
        /\ Z.of_nat j + 1 <= sequence (ss_segments st) !!! at_ j)).
  { induction j as [|j [IH|[IHc IHs]]].
    - destruct (decide (at_ 0%nat ∈ ss_completed st)) as [Hc|Hc].
      + right. split; [done|]. pose proof (inv_range _ _ _ _ _ _ Hinv _ Hc). lia.
      + left. exists 0%nat. split; [apply Horbit|done].
    - by left.
    - destruct (decide (at_ (S j) ∈ ss_completed st)) as [Hc|Hc].
      + right. split; [done|].
        destruct (inv_topo _ _ _ _ _ _ Hinv (at_ (S j)) (at_ j) Hc) as [_ Hlt];
          [apply Horbit|done|]. lia.
      + left. exists (S j). split; [apply Horbit|done]. }
  destruct (Hwalk (length idx)) as [(i & Hi & Hc)|[Hc Hs]].
  - by exists (at_ i).
  - pose proof (inv_range _ _ _ _ _ _ Hinv _ Hc) as Hr.
    rewrite (inv_counter _ _ _ _ _ _ Hinv) in Hr.
    assert (size (ss_completed st) <= length idx)%nat.
    { rewrite <- (size_list_to_set (C := gset Z) idx) by done.
      apply subseteq_size. intros k Hk. apply elem_of_list_to_set.
      by apply (inv_completed _ _ _ _ _ _ Hinv). }
    lia.
Qed.

(** C8, as the code has it: the sequencer raises nothing and records no
    error.  With enough activations for the recursion, a network that has a
    headwater segment and an outlet is constructed whether or not every
    segment can be sequenced; when some segment reaches no outlet, a segment
    of the returned network still has sequence 0 and stream order 0. *)
Theorem sequencer_without_progress stack lines :
  NoDup lines.*1 -> (length lines <= stack)%nat ->
  let END := end_segnum lines.*1 in
  let seg_c := (connect_all (sindex_sub lines) (initial_segments lines END)).1.1 in
  headwater seg_c <> [] -> outlets seg_c END <> [] ->
  exists net,
    init stack lines = Ok net
    /\ ((exists k, k ∈ index (segments net)
                   /\ forall d, ~ drains END (index (segments net))
                                   (to_segnum (segments net)) k d) ->
        exists k, k ∈ index (segments net)
                  /\ sequence (segments net) !!! k = 0
                  /\ stream_order (segments net) !!! k = 0).
Proof.
  intros Hnd Hstack END seg_c Hhw Hout.
  destruct (connect_all (sindex_sub lines) (initial_segments lines END))
    as [[seg_c' warns] errs] eqn:Hconn.
  simpl in seg_c. subst seg_c.
  destruct (connect_all_graph _ _ _ _ _ Hnd Hconn) as (Hgc & Hvalid).
  assert (Hne : lines <> []).
  { intros ->. unfold headwater, index in Hhw. rewrite Hgc in Hhw. done. }
  destruct (init_cases stack lines Hnd Hne Hstack) as (seg_t & Htrav & _ & _ & Hok).
  fold END in Htrav, Hok. rewrite Hconn in Htrav. simpl in Htrav, Hok.
  destruct (stage_facts _ _ _ _ _ _ Hnd Hconn Htrav)
    as (_ & _ & _ & _ & Hnum & _ & _ & _ & _ & _ & Htt).
  fold END in Hnum.
  destruct (traverse_outlets_frame _ _ _ _ Htrav) as (Hgt & _).
  destruct Hok as (net & Hinit).
  { by rewrite (headwater_same seg_c' seg_t). }
  { destruct (outlets seg_c' END) as [|o os] eqn:Ho; [done|].
    assert (o ∈ outlets seg_c' END) as Hoin by (rewrite Ho; by left).
    apply elem_of_index_where_to in Hoin as [Hoi Hoto].
    unfold index in Hoi. rewrite Hgc in Hoi.
    destruct (Hnum o Hoi) as (Hd & _).
    assert (num_to_outlet seg_t !!! o = 1) as Ho1.
    { apply (Hd 1%nat). by constructor. }
    rewrite <- Ho1. apply zmax_list_ge, list_elem_of_fmap. by exists o. }
  exists net. split; [done|].
  destruct (init_invariant _ _ _ Hnd Hinit)
    as (to & num & hw & st0 & st & Hvalid' & _ & _ & _ & _ & Hinv0
        & _ & Hinv & _ & Hseg & _).
  rewrite Hseg, (inv_index _ _ _ _ _ _ Hinv), (inv_to _ _ _ _ _ _ Hinv).
  intros (k0 & Hk0 & Hnone).
  destruct (seq_inv_undrained END _ _ _ _ _ _ k0 Hnd Hvalid' Hinv Hk0 Hnone)
    as (k & Hk & Hc).
  exists k. split; [done|]. by apply (inv_zero _ _ _ _ _ _ Hinv).
Qed.

(** ** accumulate_values *)

Lemma mapM_total {A B} (f : A -> result B) (l : list A) :
  (forall x, x ∈ l -> exists y, f x = Ok y) ->
  exists ys, mapM f l = Ok ys /\ Forall2 (fun x y => f x = Ok y) l ys.
Proof.
  induction l as [|x l IH]; intros Hall.
  - by exists [].
  - destruct (Hall x) as (y & Hy); [by left|].
    destruct IH as (ys & Hys & Hall'); [intros z Hz; apply Hall; by right|].
    exists (y :: ys). simpl. rewrite Hy. simpl. rewrite Hys. simpl.
    split; [done|by constructor].
Qed.

Lemma mapM_Ok {A B} (f : A -> result B) (l : list A) ys :
  mapM f l = Ok ys -> Forall2 (fun x y => f x = Ok y) l ys.
Proof.
  revert ys. induction l as [|x l IH]; intros ys; simpl.
  - intros [= <-]. constructor.
  - intros (y & Hy & (ys' & Hys & [= <-])%bind_Ok)%bind_Ok.
    constructor; [done|by apply IH].
Qed.

(** the order in which the segments are visited *)
Definition visit_order (seg : Segments) : list Z :=
  (sort_values_asc (sequence_rows seg)).*1.

Lemma visit_order_perm seg : visit_order seg ≡ₚ index seg.
Proof.
  unfold visit_order. rewrite sort_values_asc_perm. unfold sequence_rows.
  rewrite <- list_fmap_compose. by rewrite list_fmap_id.
Qed.

(** One step of the loop returns and changes at most the value of [segnum]. *)
Lemma accumulate_segment_total ups idx accum segnum :
  series_index accum = idx ->
  segnum ∈ idx ->
  (forall up u, ups !! segnum = Some up -> u ∈ up -> u ∈ idx) ->
  exists accum',
    accumulate_segment ups accum segnum = Ok accum'
    /\ series_index accum' = idx.
Proof.
  intros Hidx Hs Hup. unfold accumulate_segment.
  destruct (ups !! segnum) as [up|] eqn:Hups; [|by exists accum].
  destruct (list_of_set up) as [|u0 us] eqn:Hlist; [by exists accum|].
  rewrite <- Hlist.
  destruct (proj1 (series_get_Some segnum accum)) as (own & Hown);
    [by rewrite Hidx|].
  rewrite Hown. simpl.
  destruct (mapM_total (fun u => from_option KeyError (series_get u accum))
              (list_of_set up)) as (vals & -> & _).
  { intros u Hu%list_of_set_elem.
    destruct (proj1 (series_get_Some u accum)) as (v & Hv).
    - rewrite Hidx. by eapply Hup.
    - exists v. by rewrite Hv. }
  simpl. eexists. split; [done|]. by rewrite series_index_set.
Qed.

Lemma accumulate_values_index_total stack lines net values :
  NoDup lines.*1 ->
  init stack lines = Ok net ->
  series_index values = index (segments net) ->
  exists out, accumulate_values net values = Ok out.
Proof.
  intros Hnd Hinit Heq. unfold accumulate_values.
  rewrite (proj2 (index_differs_false _ _) Heq).
  destruct (init_invariant _ _ _ Hnd Hinit)
    as (to & num & hw & st0 & st & Hvalid & Hdef & Helem & Hhwe & Hnum & Hinv0
        & Hloop & Hinv & Hn & Hseg & HEND).
  destruct (foldM_total (fun accum => series_index accum = index (segments net))
              (accumulate_segment (upstream_segnums net))
              (visit_order (segments net)) values) as (out & Hout & _);
    [|done|by exists out].
  intros accum segnum Hs Hacc. rewrite visit_order_perm in Hs.
  apply accumulate_segment_total; try done.
  intros up u Hup Hu. rewrite Hseg, (inv_index _ _ _ _ _ _ Hinv).
  by apply (Helem _ _ Hup).
Qed.

(** C4, as the code has it: [accumulate_values] raises [ValueError] exactly
    when the index of [values], as a sequence, is not the index of the
    segments; with the same labels in the same order it returns. *)
Theorem accumulate_values_index stack lines net values :
  NoDup lines.*1 ->
  init stack lines = Ok net ->
  (series_index values <> index (segments net) ->
   accumulate_values net values = Raise ValueError)
  /\ (series_index values = index (segments net) ->
      exists out, accumulate_values net values = Ok out).
Proof.
  intros Hnd Hinit. split.
  - intros Hne. unfold accumulate_values.
    destruct (index_differs _ _) eqn:Hd; [done|].
    by apply index_differs_false in Hd.
  - by apply (accumulate_values_index_total stack lines).
Qed.

#[local] Instance sequence_le_trans :
  Transitive (fun a b : Z * Z => a.2 <= b.2).
Proof. intros a b c. lia. Qed.

(** The segments are visited in ascending [sequence]. *)
Lemma visit_order_ascending seg :
  Sorted Z.le ((fun k => sequence seg !!! k) <$> visit_order seg).
Proof.
  unfold visit_order.
  assert (Hrows : Forall (fun a => a.2 = sequence seg !!! a.1)
                    (sort_values_asc (sequence_rows seg))).
  { apply Forall_forall. intros a Ha. rewrite sort_values_asc_perm in Ha.
    by apply list_elem_of_fmap in Ha as (k & -> & Hk). }
  pose proof (sort_values_asc_sorted (sequence_rows seg)) as Hsorted.
  revert Hrows Hsorted. generalize (sort_values_asc (sequence_rows seg)).
  intros rows Hrows Hsorted.
  induction Hsorted as [|a l Hl IH Hhd]; [constructor|].
  apply Forall_cons in Hrows as [Ha Hrows]. rewrite !fmap_cons.
  constructor; [by apply IH|].
  destruct Hhd as [|b l' Hab]; [constructor|]. rewrite !fmap_cons. constructor.
  apply Forall_cons in Hrows as [Hb _]. simpl. by rewrite <- Ha, <- Hb.
Qed.

(** In the visiting order a segment comes after the segments of smaller
    sequence number and not before those of greater sequence number. *)
Lemma visit_order_sorted seg l1 x l2 :
  visit_order seg = l1 ++ x :: l2 ->
  x ∈ index seg
  /\ (forall u, u ∈ index seg ->
        sequence seg !!! u < sequence seg !!! x -> u ∈ l1)
  /\ (forall s, s ∈ l1 -> sequence seg !!! s <= sequence seg !!! x).
Proof.
  unfold visit_order. intros Hsplit.
  apply fmap_app_inv in Hsplit as (r1 & r2' & -> & Hr2 & HR).
  destruct r2' as [|r r2]; [done|]. rewrite fmap_cons in Hr2.
  injection Hr2 as -> ->.
  assert (Hrows : forall a, a ∈ r1 ++ r :: r2 ->
                    a.1 ∈ index seg /\ a.2 = sequence seg !!! a.1).
  { intros a Ha. rewrite <- HR, sort_values_asc_perm in Ha.
    apply list_elem_of_fmap in Ha as (k & -> & Hk). done. }
  pose proof (sort_values_asc_sorted (sequence_rows seg)) as Hsorted.
  apply Sorted_StronglySorted in Hsorted; [|apply _]. rewrite HR in Hsorted.
  destruct (Hrows r) as [Hr Hrs]; [apply elem_of_app; right; by left|].
  split_and!.
  - done.
  - intros u Hu Hlt.
    assert ((u, sequence seg !!! u) ∈ r1 ++ r :: r2) as Hin.
    { rewrite <- HR, sort_values_asc_perm. apply list_elem_of_fmap. by exists u. }
    apply elem_of_app in Hin as [Hin|Hin].
    + apply list_elem_of_fmap. by exists (u, sequence seg !!! u).
    + apply StronglySorted_app_1_r, StronglySorted_cons in Hsorted as [Hall _].
      apply elem_of_cons in Hin as [<-|Hin]; [simpl in Hlt; lia|].
      rewrite Forall_forall in Hall. specialize (Hall _ Hin). simpl in Hall. lia.
  - intros s (a & -> & Ha)%list_elem_of_fmap.
    destruct (Hrows a) as [_ <-]; [apply elem_of_app; by left|]. rewrite <- Hrs.
    apply (StronglySorted_app_1_elem_of _ _ _ _ _ Hsorted Ha). by left.
Qed.

(** [s] has its final value in [accum]: its own value plus the sum of the
    values that its upstream segments have in [accum]. *)
Definition settled (values : Series V) (ups : gmap Z (gset Z))
    (accum : Series V) (s : Z) : Prop :=
  exists v outs,
    series_get s values = Some v
    /\ Forall2 (fun u x => series_get u accum = Some x)
         (list_of_set (default ∅ (ups !! s))) outs
    /\ series_get s accum
       = Some (match outs with [] => v | _ :: _ => vadd v (vsum outs) end).

Lemma list_of_set_empty : list_of_set ∅ = [].
Proof.
  apply Permutation_nil_r. rewrite (list_of_set_perm ∅). by rewrite elements_empty.
Qed.

Lemma Forall2_series_get_set {A} (l : list Z) (outs : list A) k v accum :
  k ∉ l ->
  Forall2 (fun u x => series_get u accum = Some x) l outs ->
  Forall2 (fun u x => series_get u (series_set k v accum) = Some x) l outs.
Proof.
  intros Hk Hall. induction Hall as [|u x l outs Hu Hall IH]; [constructor|].
  apply not_elem_of_cons in Hk as [Hne Hk]. constructor; [|by apply IH].
  by rewrite series_get_set, decide_False.
Qed.

Lemma accumulate_step values ups seg accum x accum' l1 l2 :
  NoDup (visit_order seg) ->
  visit_order seg = l1 ++ x :: l2 ->
  series_index values = index seg ->
  (forall s up u, ups !! s = Some up -> u ∈ up ->
     u ∈ index seg /\ sequence seg !!! u < sequence seg !!! s) ->
  accumulate_segment ups accum x = Ok accum' ->
  series_index accum = index seg
  /\ (forall k, k ∉ l1 -> series_get k accum = series_get k values)
  /\ (forall s, s ∈ l1 -> settled values ups accum s) ->
  series_index accum' = index seg
  /\ (forall k, k ∉ l1 ++ [x] -> series_get k accum' = series_get k values)
  /\ (forall s, s ∈ l1 ++ [x] -> settled values ups accum' s).
Proof.
  intros Hnd Hsplit Hvalues Htopo Hstep (Hidx & Hrest & Hdone).
  destruct (visit_order_sorted _ _ _ _ Hsplit) as (Hx & Hbefore & Hle).
  assert (Hxl1 : x ∉ l1).
  { rewrite Hsplit in Hnd. apply NoDup_app in Hnd as (_ & Hdisj & _).
    intros Hin. apply (Hdisj x Hin). by left. }
  assert (Hupx : forall up u, ups !! x = Some up -> u ∈ up -> u ∈ l1).
  { intros up u Hup Hu. destruct (Htopo x up u Hup Hu). by apply Hbefore. }
  assert (Hups : forall s, s ∈ l1 -> x ∉ list_of_set (default ∅ (ups !! s))).
  { intros s Hs Hin%list_of_set_elem.
    destruct (ups !! s) as [up|] eqn:Hup; simpl in Hin; [|by apply elem_of_empty in Hin].
    destruct (Htopo s up x Hup Hin) as [_ Hlt]. specialize (Hle s Hs). lia. }
  destruct (proj1 (series_get_Some x values)) as (v & Hv); [by rewrite Hvalues|].
  assert (Hkeep : accum' = accum ->
            list_of_set (default ∅ (ups !! x)) = [] ->
            series_index accum' = index seg
            /\ (forall k, k ∉ l1 ++ [x] -> series_get k accum' = series_get k values)
            /\ (forall s, s ∈ l1 ++ [x] -> settled values ups accum' s)).
  { intros -> Hnil. split_and!; [done| |].
    - intros k [Hk _]%not_elem_of_app. by apply Hrest.
    - intros s [Hs|Hs%list_elem_of_singleton]%elem_of_app; [by apply Hdone|].
      subst s. exists v, []. rewrite Hnil, (Hrest x Hxl1). split_and!; [done|constructor|done]. }
  unfold accumulate_segment in Hstep.
  destruct (ups !! x) as [up|] eqn:Hup; cycle 1.
  { injection Hstep as <-. apply Hkeep; [done|]. apply list_of_set_empty. }
  destruct (list_of_set up) as [|u0 us] eqn:Hlist.
  { injection Hstep as <-. by apply Hkeep. }
  apply bind_Ok in Hstep as (own & Hown%from_option_Ok & Hstep).
  apply bind_Ok in Hstep as (vals & Hvals%mapM_Ok & [= <-]).
  assert (Hne : vals <> []).
  { intros ->. by apply Forall2_nil_inv_r in Hvals. }
  rewrite <- Hlist in *.
  rewrite (Hrest x Hxl1), Hv in Hown. injection Hown as <-.
  assert (Hxup : x ∉ list_of_set up).
  { intros Hin%list_of_set_elem. by apply Hxl1, (Hupx up). }
  split_and!.
  - by rewrite series_index_set.
  - intros k [Hk Hkx%not_elem_of_cons]%not_elem_of_app.
    rewrite series_get_set, decide_False by (intros ->; by destruct Hkx).
    by apply Hrest.
  - intros s [Hs|Hs%list_elem_of_singleton]%elem_of_app; [|subst s].
    + destruct (Hdone s Hs) as (vs & outs & Hvs & Houts & Hos).
      exists vs, outs. split_and!; [done| |].
      * apply Forall2_series_get_set; [by apply Hups|done].
      * rewrite series_get_set, decide_False; [done|]. by intros ->.
    + unfold settled. rewrite Hup. exists v, vals. simpl. split_and!; [done| |].
      * apply Forall2_series_get_set; [done|].
        eapply Forall2_impl; [exact Hvals|]. intros u y Hy. simpl in Hy.
        by apply from_option_Ok in Hy.
      * rewrite series_get_set, decide_True by done.
        rewrite (Hrest x Hxl1), Hv. by destruct vals.
Qed.

End Network.

(** * The depth of the recursion *)

Section Depth.
Context {H : Host}.

(** The recursion raises nothing but [RecursionError]. *)
Lemma resurse_upstream_raises stack :
  forall seg segnum cat_group num len e,
    segnum ∈ index seg ->
    resurse_upstream stack seg segnum cat_group num len = Raise e ->
    e = RecursionError.
Proof.
  induction stack as [|stack IH]; intros seg s cg num len e Hs Hcall.
  - by injection Hcall as <-.
  - simpl in Hcall.
    destruct (geometry_at_index
                (set_num_to_outlet s (num + 1) (set_cat_group s cg seg)) s)
      as (g & Hg); [done|].
    rewrite Hg in Hcall. simpl in Hcall.
    set (seg1 := set_length_to_outlet _ _ _) in Hcall.
    assert (Hsub : forall u, u ∈ index_where_to seg1 s -> u ∈ index seg1).
    { by intros u [Hu _]%elem_of_index_where_to. }
    revert Hcall Hsub. generalize (index_where_to seg1 s). generalize seg1.
    intros acc l. revert acc.
    induction l as [|u l IHl]; intros acc Hcall Hsub; [done|].
    simpl in Hcall.
    destruct (resurse_upstream stack acc u cg (num + 1) _) as [acc'|e'] eqn:Hu.
    + simpl in Hcall. apply (IHl acc'); [done|].
      intros v Hv. apply resurse_upstream_frame in Hu as (Hgeo & _).
      unfold index. rewrite Hgeo. apply Hsub. by right.
    + simpl in Hcall. injection Hcall as <-.
      eapply IH; [|exact Hu]. apply Hsub. by left.
Qed.

Lemma traverse_outlets_raises stack END seg e :
  traverse_outlets stack END seg = Raise e -> e = RecursionError.
Proof.
  unfold traverse_outlets.
  assert (Hsub : forall o, o ∈ outlets seg END -> o ∈ index seg).
  { intros o Ho. unfold outlets in Ho. by apply list_elem_of_filter in Ho as [_ ?]. }
  revert Hsub. generalize (outlets seg END). intros l. revert seg.
  induction l as [|o l IHl]; intros seg Hsub Hcall; [done|].
  simpl in Hcall.
  destruct (resurse_upstream stack seg o o 0 fzero) as [seg'|e'] eqn:Ho.
  - simpl in Hcall. apply (IHl seg'); [|done].
    intros v Hv. apply resurse_upstream_frame in Ho as (Hgeo & _).
    unfold index. rewrite Hgeo. apply Hsub. by right.
  - simpl in Hcall. injection Hcall as <-.
    eapply resurse_upstream_raises; [|exact Ho]. apply Hsub. by left.
Qed.

(** C9, as the code has it: the traversal is the native recursion
    [resurse_upstream], one activation inside the other along each way up
    from an outlet, so the call stack it takes grows with the depth of the
    network.  A construction that returned has numbered every segment that
    reaches an outlet with its depth, and at least that many nested
    activations were allowed; a segment that lies deeper than the nested
    activations allowed makes the construction raise [RecursionError].  As
    the limit of the interpreter counts the frames of every function, the
    activations it allows are fewer than the limit. *)
Theorem traversal_recursion_depth stack lines :
  NoDup lines.*1 ->
  (forall net, init stack lines = Ok net ->
     forall k d,
       drains (END_SEGNUM net) (index (segments net)) (to_segnum (segments net)) k d ->
       num_to_outlet (segments net) !!! k = Z.of_nat d /\ (d <= stack)%nat)
  /\ (let END := end_segnum lines.*1 in
      let seg_c := (connect_all (sindex_sub lines) (initial_segments lines END)).1.1 in
      forall k d,
        drains END lines.*1 (to_segnum seg_c) k d -> (stack < d)%nat ->
        init stack lines = Raise RecursionError).
Proof.
  intros Hnd. split.
  - intros net Hinit k d.
    destruct (init_invariant _ _ _ Hnd Hinit)
      as (to & num & hw & st0 & st & Hvalid & Hdef & Helem & Hhwe & Hnum & Hinv0
          & Hloop & Hinv & Hn & Hseg & HEND).
    rewrite Hseg, HEND, (inv_index _ _ _ _ _ _ Hinv), (inv_to _ _ _ _ _ _ Hinv),
      (inv_num _ _ _ _ _ _ Hinv).
    intros Hd. pose proof (drains_index _ _ _ _ _ Hd) as Hk.
    destruct (Hnum k Hk) as (Hd' & _ & Hle). rewrite (Hd' d Hd) in Hle |- *.
    split; [done|lia].
  - intros END seg_c k d Hd Hdeep.
    pose proof (drains_index _ _ _ _ _ Hd) as Hk.
    assert (Hne : lines <> []).
    { intros ->. by apply elem_of_nil in Hk. }
    subst seg_c. unfold init. rewrite decide_False by done.
    fold END. destruct (connect_all _ _) as [[seg_c warns] errs] eqn:Hconn.
    simpl in Hd.
    destruct (traverse_outlets stack END (with_outlet_columns END seg_c))
      as [seg_t|e] eqn:Htrav.
    + destruct (stage_facts _ _ _ _ _ _ Hnd Hconn Htrav)
        as (_ & _ & _ & _ & Hnum & _).
      destruct (Hnum k Hk) as (Hd' & _ & Hle).
      rewrite (Hd' d Hd) in Hle. lia.
    + simpl. by rewrite (traverse_outlets_raises _ _ _ _ Htrav).
Qed.

End Depth.

(** * [accumulate_values] on Series objects *)

(** ** The name of a Series *)

Section SeriesName.
Import Stdlib.Strings.String.

(** [Series.name]: [None], a [str], or another hashable value, an [int]
    for one. *)
Inductive Name :=
  | NoName
  | StrName (s : string)
  | OtherName (n : Z).

(** [try: accum.name = 'accumulated_' + accum.name] with
    [except TypeError: pass] (lines 413-416): the concatenation raises
    [TypeError] for a name that is no [str], and the name stays. *)
Definition accumulated_name (n : Name) : Name :=
  match n with
  | StrName s => StrName ("accumulated_" ++ s)
  | NoName | OtherName _ => n
  end.

End SeriesName.

Section SeriesObjects.
Context {H : Host}.

(** ** Objects

    A pandas Series is an object: [accum[segnum] += ...] writes into the
    object that [accum] refers to, and every other variable that refers to
    the same object sees the change.  A [Store] holds the objects of a call:
    the network [self] and the Series allocated so far, in the order of
    their allocation; a reference is the position of its object, a
    [nat]. *)

Record SeriesObj := mkSeriesObj {
  obj_name : Name;
  obj_data : Series V
}.

Record Store := mkStore {
  store_self : SurfaceWaterNetwork;
  store_series : list SeriesObj
}.

(** The object a variable refers to.  A variable holds the reference of an
    allocated object; the default is never read. *)
Definition deref (r : nat) (m : Store) : SeriesObj :=
  default (mkSeriesObj NoName []) (store_series m !! r).

(** [values.copy()]: a new object with the name and the data of [r] *)
Definition series_copy (r : nat) (m : Store) : nat * Store :=
  (length (store_series m),
   mkStore (store_self m) (store_series m ++ [deref r m])).

(** a write into the object of [r] *)
Definition series_write (r : nat) (f : SeriesObj -> SeriesObj) (m : Store)
    : Store :=
  mkStore (store_self m) (alter f r (store_series m)).

Definition set_name (n : Name) (o : SeriesObj) : SeriesObj :=
  mkSeriesObj n (obj_data o).

(** [accum[segnum] = v] *)
Definition set_item (segnum : Z) (v : V) (o : SeriesObj) : SeriesObj :=
  mkSeriesObj (obj_name o) (series_set segnum v (obj_data o)).

(** the body of the loop of lines 417-421, on the object of [accum] *)
Definition accumulate_segment_at (accum : nat) (m : Store) (segnum : Z)
    : result Store :=
  match upstream_segnums (store_self m) !! segnum with
  | Some up =>
      let upstream_segnums := list_of_set up in
      match upstream_segnums with
      | [] => Ok m
      | _ :: _ =>
          own ← from_option KeyError
                  (series_get segnum (obj_data (deref accum m)));
          vals ← mapM (fun u => from_option KeyError
                                  (series_get u (obj_data (deref accum m))))
                      upstream_segnums;
          Ok (series_write accum (set_item segnum (vadd own (vsum vals))) m)
      end
  | None => Ok m
  end.

(** [accumulate_values] (lines 407-422) called with the reference [values]:
    it returns the reference of the result and the store it leaves. *)
Definition accumulate_values_call (values : nat) (m : Store)
    : result (nat * Store) :=
  if index_differs (series_index (obj_data (deref values m)))
                   (index (segments (store_self m)))
  then Raise ValueError
  else
    let '(accum, m) := series_copy values m in
    let m := series_write accum
               (fun o => set_name (accumulated_name (obj_name o)) o) m in
    m ← foldM (accumulate_segment_at accum)
              (sort_values_asc (sequence_rows (segments (store_self m)))).*1 m;
    Ok (accum, m).

(** ** The call and the function on values *)

(** One step of the loop writes into the object of [accum] what
    [accumulate_segment] computes from its data. *)
Lemma accumulate_segment_at_spec accum m o segnum :
  store_series m !! accum = Some o ->
  accumulate_segment_at accum m segnum
  = (d ← accumulate_segment (upstream_segnums (store_self m)) (obj_data o) segnum;
     Ok (mkStore (store_self m)
           (<[accum := mkSeriesObj (obj_name o) d]> (store_series m)))).
Proof.
  intros Ho. unfold accumulate_segment_at, accumulate_segment, deref.
  rewrite Ho. simpl.
  assert (Hsame : Ok m = Ok (mkStore (store_self m)
            (<[accum := mkSeriesObj (obj_name o) (obj_data o)]> (store_series m)))).
  { destruct m as [net σ], o as [n d]. simpl in *.
    by rewrite list_insert_id. }
  destruct (upstream_segnums (store_self m) !! segnum) as [up|]; [|done].
  destruct (list_of_set up) as [|u0 us]; [done|].
  generalize (u0 :: us). intros l.
  destruct (from_option KeyError (series_get segnum (obj_data o))) as [own|e];
    [|done].
  destruct (mapM (fun u => from_option KeyError (series_get u (obj_data o))) l)
    as [vals|e]; [|done].
  simpl. f_equal. unfold series_write. f_equal.
  apply list_eq. intros i.
  destruct (decide (i = accum)) as [->|Hne].
  - rewrite list_lookup_alter_eq, Ho. simpl. symmetry.
    apply list_lookup_insert_eq. by eapply lookup_lt_Some.
  - by rewrite list_lookup_alter_ne, list_lookup_insert_ne.
Qed.

Lemma accumulate_fold_at accum l :
  forall m o,
    store_series m !! accum = Some o ->
    foldM (accumulate_segment_at accum) l m
    = (d ← foldM (accumulate_segment (upstream_segnums (store_self m))) l
             (obj_data o);
       Ok (mkStore (store_self m)
             (<[accum := mkSeriesObj (obj_name o) d]> (store_series m)))).
Proof.
  induction l as [|x l IH]; intros m o Ho.
  - simpl. destruct m as [net σ], o as [n d]. simpl in *.
    by rewrite list_insert_id.
  - cbn [foldM]. rewrite (accumulate_segment_at_spec _ _ _ _ Ho).
    destruct (accumulate_segment _ (obj_data o) x) as [d|e]; [|done].
    cbn [mbind result_bind].
    rewrite (IH _ (mkSeriesObj (obj_name o) d)); cbn [store_self store_series].
    + destruct (foldM _ l _) as [d'|e]; [|done].
      cbn [mbind result_bind obj_name]. by rewrite list_insert_insert_eq.
    + apply list_lookup_insert_eq. by eapply lookup_lt_Some.
Qed.

(** The call allocates one object, the result: it has the data that
    [accumulate_values] computes from the data of [values]. *)
Lemma accumulate_values_call_spec net σ values obj :
  σ !! values = Some obj ->
  accumulate_values_call values (mkStore net σ)
  = (d ← accumulate_values net (obj_data obj);
     Ok (length σ,
         mkStore net
           (σ ++ [mkSeriesObj (accumulated_name (obj_name obj)) d]))).
Proof.
  intros Hv. unfold accumulate_values_call, accumulate_values, deref.
  cbn [store_self store_series]. rewrite Hv. cbn [default].
  destruct (index_differs _ _); [done|].
  unfold series_copy, series_write, deref. cbn [store_self store_series].
  rewrite Hv. cbn [default].
  assert (Halter : alter (fun o => set_name (accumulated_name (obj_name o)) o)
                     (length σ) (σ ++ [obj])
                   = σ ++ [set_name (accumulated_name (obj_name obj)) obj]).
  { rewrite alter_app_r_alt by done. by rewrite Nat.sub_diag. }
  change (id obj) with obj. rewrite Halter.
  rewrite (accumulate_fold_at _ _ _ (set_name (accumulated_name (obj_name obj)) obj)).
  - cbn [store_self store_series set_name obj_data obj_name].
    destruct (foldM _ _ (obj_data obj)) as [d|e]; [|done].
    cbn [mbind result_bind]. do 3 f_equal.
    rewrite insert_app_r_alt by done. by rewrite Nat.sub_diag.
  - cbn [store_series]. rewrite lookup_app_r by done. by rewrite Nat.sub_diag.
Qed.

(** ** The sum, for the segments with a sequence number *)

(** The upstream segments of a segment with a sequence number have smaller
    sequence numbers, whether or not the network has a cycle elsewhere. *)
Lemma init_sequenced stack lines net :
  NoDup lines.*1 ->
  init stack lines = Ok net ->
  let seg := segments net in
  index seg = lines.*1
  /\ forall s up u,
       0 < sequence seg !!! s ->
       upstream_segnums net !! s = Some up -> u ∈ up ->
       u ∈ index seg /\ 0 < sequence seg !!! u < sequence seg !!! s.
Proof.
  intros Hnd Hinit seg. subst seg.
  destruct (init_invariant _ _ _ Hnd Hinit)
    as (to & num & hw & st0 & st & Hvalid & Hdef & Helem & Hhw & Hnum & Hinv0
        & Hloop & Hinv & Hn & Hseg & HEND).
  rewrite Hseg, (inv_index _ _ _ _ _ _ Hinv). split; [done|].
  intros s up u Hpos Hup Hu.
  destruct (Helem s up Hup) as [Hs Hmem]. apply Hmem in Hu as [Hui Hto].
  assert (Hsc : s ∈ ss_completed st).
  { destruct (decide (s ∈ ss_completed st)) as [|Hnot]; [done|].
    destruct (inv_zero _ _ _ _ _ _ Hinv s Hs Hnot). lia. }
  destruct (inv_topo _ _ _ _ _ _ Hinv s u Hsc Hui Hto) as [Huc Hlt].
  pose proof (inv_range _ _ _ _ _ _ Hinv u Huc). split; [done|lia].
Qed.

(** One step of the loop keeps the values of the segments not yet visited
    and settles the segment it visits when that has a sequence number. *)
Lemma accumulate_step_sequenced values ups seg accum x accum' l1 l2 :
  NoDup (visit_order seg) ->
  visit_order seg = l1 ++ x :: l2 ->
  series_index values = index seg ->
  (forall s up u, 0 < sequence seg !!! s -> ups !! s = Some up -> u ∈ up ->
     u ∈ index seg /\ sequence seg !!! u < sequence seg !!! s) ->
  accumulate_segment ups accum x = Ok accum' ->
  series_index accum = index seg
  /\ (forall k, k ∉ l1 -> series_get k accum = series_get k values)
  /\ (forall s, s ∈ l1 -> 0 < sequence seg !!! s ->
        settled values ups accum s) ->
  series_index accum' = index seg
  /\ (forall k, k ∉ l1 ++ [x] -> series_get k accum' = series_get k values)
  /\ (forall s, s ∈ l1 ++ [x] -> 0 < sequence seg !!! s ->
        settled values ups accum' s).
Proof.
  intros Hnd Hsplit Hvalues Htopo Hstep (Hidx & Hrest & Hdone).
  destruct (visit_order_sorted _ _ _ _ Hsplit) as (Hx & Hbefore & Hle).
  assert (Hxl1 : x ∉ l1).
  { rewrite Hsplit in Hnd. apply NoDup_app in Hnd as (_ & Hdisj & _).
    intros Hin. apply (Hdisj x Hin). by left. }
  assert (Hupx : forall up u, 0 < sequence seg !!! x ->
                   ups !! x = Some up -> u ∈ up -> u ∈ l1).
  { intros up u Hpos Hup Hu. destruct (Htopo x up u Hpos Hup Hu).
    by apply Hbefore. }
  assert (Hups : forall s, s ∈ l1 -> 0 < sequence seg !!! s ->
                   x ∉ list_of_set (default ∅ (ups !! s))).
  { intros s Hs Hpos Hin%list_of_set_elem.
    destruct (ups !! s) as [up|] eqn:Hup; simpl in Hin;
      [|by apply elem_of_empty in Hin].
    destruct (Htopo s up x Hpos Hup Hin) as [_ Hlt]. specialize (Hle s Hs). lia. }
  destruct (proj1 (series_get_Some x values)) as (v & Hv); [by rewrite Hvalues|].
  assert (Hkeep : accum' = accum ->
            list_of_set (default ∅ (ups !! x)) = [] ->
            series_index accum' = index seg
            /\ (forall k, k ∉ l1 ++ [x] -> series_get k accum' = series_get k values)
            /\ (forall s, s ∈ l1 ++ [x] -> 0 < sequence seg !!! s ->
                  settled values ups accum' s)).
  { intros -> Hnil. split_and!; [done| |].
    - intros k [Hk _]%not_elem_of_app. by apply Hrest.
    - intros s [Hs|Hs%list_elem_of_singleton]%elem_of_app Hpos; [by apply Hdone|].
      subst s. exists v, []. rewrite Hnil, (Hrest x Hxl1).
      split_and!; [done|constructor|done]. }
  unfold accumulate_segment in Hstep.
  destruct (ups !! x) as [up|] eqn:Hup; cycle 1.
  { injection Hstep as <-. apply Hkeep; [done|]. apply list_of_set_empty. }
  destruct (list_of_set up) as [|u0 us] eqn:Hlist.
  { injection Hstep as <-. by apply Hkeep. }
  apply bind_Ok in Hstep as (own & Hown%from_option_Ok & Hstep).
  apply bind_Ok in Hstep as (vals & Hvals%mapM_Ok & [= <-]).
  assert (Hne : vals <> []).
  { intros ->. by apply Forall2_nil_inv_r in Hvals. }
  rewrite <- Hlist in *.
  rewrite (Hrest x Hxl1), Hv in Hown. injection Hown as <-.
  split_and!.
  - by rewrite series_index_set.
  - intros k [Hk Hkx%not_elem_of_cons]%not_elem_of_app.
    rewrite series_get_set, decide_False by (intros ->; by destruct Hkx).
    by apply Hrest.
  - intros s [Hs|Hs%list_elem_of_singleton]%elem_of_app Hpos; [|subst s].
    + destruct (Hdone s Hs Hpos) as (vs & outs & Hvs & Houts & Hos).
      exists vs, outs. split_and!; [done| |].
      * apply Forall2_series_get_set; [by apply Hups|done].
      * rewrite series_get_set, decide_False; [done|]. by intros ->.
    + assert (Hxup : x ∉ list_of_set up).
      { intros Hin%list_of_set_elem. by apply Hxl1, (Hupx up). }
      unfold settled. rewrite Hup. exists v, vals. simpl. split_and!; [done| |].
      * apply Forall2_series_get_set; [done|].
        eapply Forall2_impl; [exact Hvals|]. intros u y Hy. simpl in Hy.
        by apply from_option_Ok in Hy.
      * rewrite series_get_set, decide_True by done.
        rewrite (Hrest x Hxl1), Hv. by destruct vals.
Qed.

(** C3, as the code has it.  The call is given a reference to a Series
    [values] whose index is that of the segments.  It returns the reference
    of a new object: the table [self] and every object there was before the
    call, [values] among them, are left as they were, and the new Series has
    the index of [values] and the name of [values] after ['accumulated_'].
    For every segment with a sequence number, which on a network without
    cycle is every segment, the value returned is the value given plus the
    sum of the values returned for its upstream segments, or the value given
    when it has none.  The segments are visited in ascending [sequence], the
    upstream segments of a segment with a sequence number before it. *)
Theorem accumulate_values_sum stack lines net σ values obj :
  NoDup lines.*1 ->
  init stack lines = Ok net ->
  σ !! values = Some obj ->
  series_index (obj_data obj) = index (segments net) ->
  exists accum out m',
    accumulate_values_call values (mkStore net σ) = Ok (accum, m')
    /\ store_self m' = net
    /\ σ !! accum = None
    /\ store_series m' !! accum = Some out
    /\ (forall r o, σ !! r = Some o -> store_series m' !! r = Some o)
    /\ length (store_series m') = S (length σ)
    /\ obj_name out = accumulated_name (obj_name obj)
    /\ accumulate_values net (obj_data obj) = Ok (obj_data out)
    /\ series_index (obj_data out) = series_index (obj_data obj)
    /\ (forall s, s ∈ index (segments net) ->
         0 < sequence (segments net) !!! s ->
         exists v outs,
           series_get s (obj_data obj) = Some v
           /\ Forall2 (fun u x => series_get u (obj_data out) = Some x)
                (list_of_set (default ∅ (upstream_segnums net !! s))) outs
           /\ (outs <> [] ->
               series_get s (obj_data out) = Some (vadd v (vsum outs)))
           /\ (outs = [] -> series_get s (obj_data out) = Some v)
           /\ ((forall w, vadd w (vsum []) = w) ->
               series_get s (obj_data out) = Some (vadd v (vsum outs))))
    /\ (acyclic (END_SEGNUM net) (segments net) ->
        forall s, s ∈ index (segments net) ->
          0 < sequence (segments net) !!! s)
    /\ Sorted Z.le ((fun k => sequence (segments net) !!! k)
                      <$> visit_order (segments net))
    /\ forall l1 x l2 up u,
         visit_order (segments net) = l1 ++ x :: l2 ->
         0 < sequence (segments net) !!! x ->
         upstream_segnums net !! x = Some up -> u ∈ up -> u ∈ l1.
Proof.
  intros Hnd Hinit Hobj Hvalues.
  destruct (accumulate_values_index_total stack lines net (obj_data obj)
              Hnd Hinit Hvalues) as (d & Hd).
  destruct (init_sequenced _ _ _ Hnd Hinit) as (Hidx & Htopo).
  exists (length σ), (mkSeriesObj (accumulated_name (obj_name obj)) d),
    (mkStore net (σ ++ [mkSeriesObj (accumulated_name (obj_name obj)) d])).
  cbn [store_self store_series obj_name obj_data].
  assert (Hndv : NoDup (visit_order (segments net))).
  { rewrite visit_order_perm, Hidx. done. }
  assert (Hinv :
    series_index d = index (segments net)
    /\ (forall k, k ∉ visit_order (segments net) ->
          series_get k d = series_get k (obj_data obj))
    /\ (forall s, s ∈ visit_order (segments net) ->
          0 < sequence (segments net) !!! s ->
          settled (obj_data obj) (upstream_segnums net) d s)).
  { pose proof Hd as Hfold. unfold accumulate_values in Hfold.
    rewrite (proj2 (index_differs_false _ _) Hvalues) in Hfold.
    revert Hfold.
    apply (foldM_invariant_prefix (fun done accum =>
      series_index accum = index (segments net)
      /\ (forall k, k ∉ done -> series_get k accum = series_get k (obj_data obj))
      /\ (forall s, s ∈ done -> 0 < sequence (segments net) !!! s ->
            settled (obj_data obj) (upstream_segnums net) accum s))).
    - intros l1 x l2 accum accum' Hsplit HP Hstep.
      eapply accumulate_step_sequenced; try done.
      intros s up u Hpos Hup Hu. destruct (Htopo s up u Hpos Hup Hu). split; [done|lia].
    - split_and!; [done|done|by intros ? ?%elem_of_nil]. }
  destruct Hinv as (Hio & _ & Hall).
  split_and!.
  - by rewrite (accumulate_values_call_spec _ _ _ _ Hobj), Hd.
  - done.
  - apply lookup_ge_None. lia.
  - rewrite lookup_app_r by done. by rewrite Nat.sub_diag.
  - intros r o Hr. by apply lookup_app_l_Some.
  - rewrite length_app. simpl. lia.
  - done.
  - done.
  - congruence.
  - intros s Hs Hpos. destruct (Hall s) as (v & outs & Hv & Houts & Hos).
    { by rewrite visit_order_perm. }
    { done. }
    exists v, outs. split_and!; [done|done| | |].
    + intros Hne. by destruct outs.
    + by intros ->.
    + intros Hlaw. destruct outs; [by rewrite Hlaw|done].
  - intros Hacyclic s Hs.
    destruct (init_acyclic _ _ _ Hnd Hinit Hacyclic) as (_ & Hrange & _).
    specialize (Hrange s Hs). lia.
  - apply visit_order_ascending.
  - intros l1 x l2 up u Hsplit Hpos Hup Hu.
    destruct (visit_order_sorted _ _ _ _ Hsplit) as (_ & Hbefore & _).
    destruct (Htopo x up u Hpos Hup Hu) as [Hui Hlt]. apply Hbefore; [done|lia].
Qed.

End SeriesObjects.

(** * The constructor: what it raises and what it returns *)

Section Constructor.
Context {H : Host}.

#[local] Existing Instance F_inhabited.

(** the columns the sequencer does not write *)
Definition same_outlet_columns (seg seg' : Segments) : Prop :=
  geometry seg' = geometry seg /\ to_segnum seg' = to_segnum seg
  /\ cat_group seg' = cat_group seg /\ num_to_outlet seg' = num_to_outlet seg
  /\ length_to_outlet seg' = length_to_outlet seg.

Lemma same_outlet_columns_trans seg1 seg2 seg3 :
  same_outlet_columns seg1 seg2 -> same_outlet_columns seg2 seg3 ->
  same_outlet_columns seg1 seg3.
Proof. unfold same_outlet_columns. intros (?&?&?&?&?) (?&?&?&?&?). split_and!; congruence. Qed.

Lemma sequence_segment_frame ups st segnum st' :
  sequence_segment ups st segnum = Ok st' ->
  same_outlet_columns (ss_segments st) (ss_segments st').
Proof.
  unfold sequence_segment. intros (up & _ & Hrest)%bind_Ok.
  destruct (decide (up ⊆ ss_completed st)); [|by injection Hrest as <-].
  apply bind_Ok in Hrest as (ord & _ & [= <-]). by unfold same_outlet_columns.
Qed.

Lemma sequence_fold_frame ups l st st' :
  foldM (sequence_segment ups) l st = Ok st' ->
  same_outlet_columns (ss_segments st) (ss_segments st').
Proof.
  apply (foldM_invariant
           (fun s => same_outlet_columns (ss_segments st) (ss_segments s))).
  - intros acc x acc' _ Hacc Hstep.
    eapply same_outlet_columns_trans; [exact Hacc|].
    by eapply sequence_segment_frame.
  - by unfold same_outlet_columns.
Qed.

Lemma sequence_loop_frame n END ups :
  forall st st',
    sequence_loop n END ups st = Ok st' ->
    same_outlet_columns (ss_segments st) (ss_segments st').
Proof.
  induction n as [|n IH]; intros st st' Hloop; simpl in Hloop.
  - injection Hloop as <-. by unfold same_outlet_columns.
  - apply bind_Ok in Hloop as (st1 & Hiter & Hrest).
    apply sequence_fold_frame in Hiter.
    destruct (sequence_done (ss_segments st1)).
    + by injection Hrest as <-.
    + eapply same_outlet_columns_trans; [exact Hiter|by apply IH].
Qed.

Lemma number_headwater_frame fu seg :
  same_outlet_columns seg (number_headwater fu seg).
Proof.
  unfold number_headwater.
  assert (forall (l : list (Z * Z)) s,
            same_outlet_columns s
              (foldl (fun seg (r : Z * Z) => set_sequence r.1 r.2 seg) s l)) as Hseq.
  { induction l as [|r l IH]; intros s; simpl; [by unfold same_outlet_columns|].
    eapply same_outlet_columns_trans; [|apply IH]. by unfold same_outlet_columns. }
  assert (forall (l : list Z) s,
            same_outlet_columns s
              (foldl (fun seg k => set_stream_order k 1 seg) s l)) as Hord.
  { induction l as [|r l IH]; intros s; simpl; [by unfold same_outlet_columns|].
    eapply same_outlet_columns_trans; [|apply IH]. by unfold same_outlet_columns. }
  eapply same_outlet_columns_trans; [apply Hseq|apply Hord].
Qed.

Lemma build_upstream_segnums_same seg seg' END :
  geometry seg' = geometry seg -> to_segnum seg' = to_segnum seg ->
  build_upstream_segnums seg' END = build_upstream_segnums seg END.
Proof.
  intros Hg Ht.
  unfold build_upstream_segnums, to_segnum_values, index_where_to, index.
  by rewrite Hg, Ht.
Qed.

(** What a construction that returned has put into the network: the
    geometry given, [to_segnum] from the connectivity pass, the columns of
    the recursion, and [upstream_segnums] built from [to_segnum]. *)
Lemma init_table stack lines net :
  init stack lines = Ok net ->
  let END := end_segnum lines.*1 in
  exists seg_c warns errs seg_t,
    lines <> []
    /\ connect_all (sindex_sub lines) (initial_segments lines END)
       = (seg_c, warns, errs)
    /\ traverse_outlets stack END (with_outlet_columns END seg_c) = Ok seg_t
    /\ END_SEGNUM net = END
    /\ same_outlet_columns seg_t (segments net)
    /\ geometry seg_t = geometry seg_c
    /\ to_segnum seg_t = to_segnum seg_c
    /\ upstream_segnums net = build_upstream_segnums seg_c END
    /\ (forall e, e ∈ errs -> e ∈ errors net).
Proof.
  intros Hinit END.
  destruct (init_Ok _ _ _ Hinit)
    as (seg_c & warns & errs & seg_t & st & Hne & Hconn & Htrav & Hrest).
  fold END in Hconn, Htrav, Hrest. cbv zeta in Hrest.
  destruct Hrest as (Hfu & Hloop & Hn & Hseg & HEND & Hups & Herr).
  exists seg_c, warns, errs, seg_t.
  destruct (traverse_outlets_frame _ _ _ _ Htrav) as (Hg & Ht & _).
  apply sequence_loop_frame in Hloop. simpl in Hloop.
  pose proof (number_headwater_frame
    (sort_values_desc (key_rows (with_sequence_columns seg_t) (headwater seg_t)))
    (with_sequence_columns seg_t)) as Hnum.
  split_and!; try done.
  - rewrite Hseg. eapply same_outlet_columns_trans; [|exact Hloop].
    eapply same_outlet_columns_trans; [|exact Hnum]. by unfold same_outlet_columns.
  - rewrite Hups. destruct Hnum as (Hg' & Ht' & _).
    apply build_upstream_segnums_same.
    + by rewrite Hg'.
    + by rewrite Ht'.
Qed.


Lemma zmax_list_zero (l : list Z) : (forall x, x ∈ l -> x = 0) -> zmax_list l = 0.
Proof.
  intros Hall. destruct l as [|x l]; [done|].
  apply Hall, zmax_list_elem. done.
Qed.

(** The three ways the constructor ends once the recursion has returned. *)
Lemma init_outcome stack lines seg_c warns errs seg_t :
  NoDup lines.*1 -> lines <> [] ->
  let END := end_segnum lines.*1 in
  connect_all (sindex_sub lines) (initial_segments lines END) = (seg_c, warns, errs) ->
  traverse_outlets stack END (with_outlet_columns END seg_c) = Ok seg_t ->
  let n := zmax_list ((fun k => num_to_outlet seg_t !!! k) <$> lines.*1) in
  (headwater seg_c = [] -> init stack lines = Raise ValueError)
  /\ (headwater seg_c <> [] -> n < 1 -> init stack lines = Raise UnboundLocalError)
  /\ (headwater seg_c <> [] -> 1 <= n -> exists net, init stack lines = Ok net).
Proof.
  intros Hnd Hne END Hconn Htrav. unfold init.
  rewrite decide_False by done. fold END. rewrite Hconn.
  destruct (connect_all_graph _ _ _ _ _ Hnd Hconn) as (Hgc & Hvalid).
  pose proof (end_segnum_fresh lines.*1) as Hend. fold END in Hend.
  rewrite Htrav. simpl.
  destruct (common_locations coords_start _ _ _ _ _) as [start_coords warns1].
  destruct (common_locations coords_end _ _ _ _ _) as [end_coords warns2].
  destruct (stage_facts _ _ _ _ _ _ Hnd Hconn Htrav)
    as (_ & Hdef & Helem & Hhw & Hnum & Hinv0 & His & Hns & Hgs & Hperm & Htt).
  fold END in Hdef, Helem, Hhw, Hnum, Hinv0, His, Hns.
  rewrite His, Hns.
  assert (Hsame : headwater seg_t = headwater seg_c).
  { destruct (traverse_outlets_frame _ _ _ _ Htrav) as (Hg & Ht & _).
    by apply headwater_same. }
  rewrite <- Hsame.
  destruct (sequence_loop_inv END lines.*1 _ _ _ _ Hnd Hend Hdef
              (fun k up Hk => proj2 (Helem k up Hk)) Hhw Hvalid
              (Z.to_nat (zmax_list ((fun k => num_to_outlet seg_t !!! k) <$> lines.*1)))
              _ Hinv0)
    as (st & Hst & _).
  split_and!.
  - intros Hnil. rewrite Hnil in Hperm. apply Permutation_nil_r in Hperm.
    rewrite Hnil. by rewrite decide_True.
  - intros Hhwne Hn. rewrite decide_False; cycle 1.
    { intros Hnil. rewrite Hnil in Hperm. symmetry in Hperm.
      by apply Permutation_nil_r in Hperm. }
    simpl. rewrite Hst. simpl. by apply Z.ltb_lt in Hn as ->.
  - intros Hhwne Hn. rewrite decide_False; cycle 1.
    { intros Hnil. rewrite Hnil in Hperm. symmetry in Hperm.
      by apply Permutation_nil_r in Hperm. }
    simpl. rewrite Hst. simpl. apply Z.ltb_ge in Hn as ->. by eexists.
Qed.

(** Without an outlet the recursion is not entered: it returns the table
    with [num_to_outlet] 0 on every segment. *)
Lemma traverse_without_outlet stack END seg :
  outlets seg END = [] ->
  traverse_outlets stack END (with_outlet_columns END seg)
  = Ok (with_outlet_columns END seg)
  /\ forall k, k ∈ index seg ->
       num_to_outlet (with_outlet_columns END seg) !!! k = 0.
Proof.
  intros Hout. split.
  - unfold traverse_outlets, outlets, index_where_to, index in *. simpl.
    by rewrite Hout.
  - intros k Hk. simpl. by apply column_lookup.
Qed.

(** Where every segment has an upstream segment none reaches an outlet. *)
Lemma no_headwater_no_outlet END seg :
  NoDup (index seg) -> END ∉ index seg ->
  headwater seg = [] -> outlets seg END = [].
Proof.
  intros Hnd Hend Hhw.
  assert (Hup : forall k, k ∈ index seg ->
                  exists u, u ∈ index seg /\ to_segnum seg !!! u = k).
  { intros k Hk. apply elem_of_to_segnum_values.
    destruct (decide (k ∈ to_segnum_values seg)) as [|Hnot]; [done|].
    assert (k ∈ headwater seg) as Hin; [|rewrite Hhw in Hin; by apply elem_of_nil in Hin].
    unfold headwater. apply list_elem_of_filter. done. }
  assert (Hdeep : forall n k d,
            drains END (index seg) (to_segnum seg) k d ->
            exists k' d', drains END (index seg) (to_segnum seg) k' d'
                          /\ (n <= d')%nat).
  { induction n as [|n IH]; intros k d Hd.
    - exists k, d. split; [done|lia].
    - destruct (IH k d Hd) as (k' & d' & Hd' & Hle).
      destruct (Hup k' (drains_index _ _ _ _ _ Hd')) as (u & Hu & Hto).
      exists u, (S d'). split; [|lia]. apply drains_step; [done|]. by rewrite Hto. }
  destruct (outlets seg END) as [|o os] eqn:Hout; [done|].
  assert (o ∈ outlets seg END) as Ho by (rewrite Hout; by left).
  apply elem_of_index_where_to in Ho as [Ho Hto].
  destruct (Hdeep (S (length (index seg))) o 1%nat) as (k' & d' & Hd' & Hle).
  { by apply drains_outlet. }
  apply (drains_bound _ _ _ Hend) in Hd'; [lia|done].
Qed.

(** X1: a network in which every segment is the downstream segment of
    another one has no headwater segment: the constructor raises
    [ValueError], as it does for no lines at all. *)
Theorem init_without_headwater stack lines :
  NoDup lines.*1 ->
  headwater (connect_all (sindex_sub lines)
               (initial_segments lines (end_segnum lines.*1))).1.1 = [] ->
  init stack lines = Raise ValueError.
Proof.
  intros Hnd Hhw.
  destruct (decide (lines = [])) as [->|Hne]; [done|].
  destruct (connect_all _ _) as [[seg_c warns] errs] eqn:Hconn. simpl in Hhw.
  destruct (connect_all_graph _ _ _ _ _ Hnd Hconn) as (Hgc & _).
  pose proof (end_segnum_fresh lines.*1) as Hend.
  assert (Hout : outlets seg_c (end_segnum lines.*1) = []).
  { apply no_headwater_no_outlet; unfold index; rewrite ?Hgc; done. }
  destruct (traverse_without_outlet stack _ _ Hout) as [Htrav _].
  destruct (init_outcome _ _ _ _ _ _ Hnd Hne Hconn Htrav) as (Hraise & _).
  by apply Hraise.
Qed.

(** X2: a network with a headwater segment and no outlet (every segment
    drains to another one) makes the constructor raise [UnboundLocalError]:
    the loop of the sequencer runs over an empty range and [numiter] is read
    after it. *)
Theorem init_without_outlet stack lines :
  NoDup lines.*1 ->
  let END := end_segnum lines.*1 in
  let seg_c := (connect_all (sindex_sub lines) (initial_segments lines END)).1.1 in
  headwater seg_c <> [] -> outlets seg_c END = [] ->
  init stack lines = Raise UnboundLocalError.
Proof.
  intros Hnd END seg_c Hhw Hout. subst seg_c.
  destruct (decide (lines = [])) as [->|Hne]; [done|].
  destruct (connect_all _ _) as [[seg_c warns] errs] eqn:Hconn. simpl in Hhw, Hout.
  destruct (connect_all_graph _ _ _ _ _ Hnd Hconn) as (Hgc & _).
  destruct (traverse_without_outlet stack _ _ Hout) as [Htrav Hzero].
  destruct (init_outcome _ _ _ _ _ _ Hnd Hne Hconn Htrav) as (_ & Hraise & _).
  apply Hraise; [done|].
  rewrite zmax_list_zero; [lia|].
  intros x (k & -> & Hk)%list_elem_of_fmap. apply Hzero.
  unfold index. by rewrite Hgc.
Qed.

Lemma init_index stack lines net :
  NoDup lines.*1 -> init stack lines = Ok net ->
  geometry (segments net) = lines.
Proof.
  intros Hnd Hinit.
  destruct (init_table _ _ _ Hinit)
    as (seg_c & warns & errs & seg_t & Hne & Hconn & Htrav & HEND & Hcols & Hg & _).
  destruct Hcols as (-> & _). rewrite Hg.
  by destruct (connect_all_graph _ _ _ _ _ Hnd Hconn).
Qed.

(** X4: a segment drains to [END_SEGNUM] or to another segment of the
    network, never to itself, and the line of that segment starts where its
    own line ends: with equal coordinate tuples, or with equal x and y. *)
Theorem to_segnum_joins_lines stack lines net k g :
  NoDup lines.*1 -> init stack lines = Ok net ->
  (k, g) ∈ lines ->
  to_segnum (segments net) !!! k = END_SEGNUM net
  \/ exists g2,
       (to_segnum (segments net) !!! k, g2) ∈ lines
       /\ to_segnum (segments net) !!! k <> k
       /\ (coord_eqb (coords_end g) (coords_start g2)
           || xy_eqb (coord_xy (coords_end g)) (coord_xy (coords_start g2)))
          = true.
Proof.
  intros Hnd Hinit Hin.
  destruct (init_table _ _ _ Hinit)
    as (seg_c & warns & errs & seg_t & Hne & Hconn & Htrav & -> & Hcols & _ & Ht & _).
  destruct Hcols as (_ & -> & _). rewrite Ht.
  destruct (connect_fold _ _ _ _ _ _ _ _ Hconn Hnd) as (_ & _ & _ & Hrows).
  destruct (Hrows _ Hin) as [Hto _]. cbv zeta in Hto. cbn [fst snd] in Hto.
  rewrite lookup_total_alt, Hto.
  destruct (downstream_matches _ _ _) as [|t ms] eqn:Hms.
  - left. simpl. unfold column. rewrite lookup_gset_to_gmap, option_guard_True; [done|].
    apply elem_of_list_to_set, list_elem_of_fmap. by exists (k, g).
  - right. simpl.
    assert (t ∈ downstream_matches k (coords_end g)
              (candidates (initial_segments lines (end_segnum lines.*1))
                 (sindex_sub lines) (coords_end g))) as Hin2
      by (rewrite Hms; by left).
    unfold downstream_matches in Hin2.
    apply list_elem_of_fmap in Hin2 as ([t' g2] & -> & Hrow).
    apply list_elem_of_filter in Hrow as [Hmatch Hrow]. simpl.
    unfold is_downstream_match in Hmatch. simpl in Hmatch.
    apply Is_true_true, andb_true_iff in Hmatch as [Hne' Hmatch].
    exists g2. split_and!.
    + eapply elem_of_sublist; [exact Hrow|]. apply candidates_sublist.
    + intros ->. by rewrite Z.eqb_refl in Hne'.
    + done.
Qed.

(** X5: [upstream_segnums] is [to_segnum] read backwards.  Its keys are
    the segments some segment drains to; the set under a key is not empty
    and holds the segments that drain to the key.  A headwater segment is no
    key, and neither is [END_SEGNUM]. *)
Theorem upstream_segnums_inverse stack lines net :
  NoDup lines.*1 -> init stack lines = Ok net ->
  (forall s up, upstream_segnums net !! s = Some up ->
     s ∈ index (segments net) /\ up <> ∅
     /\ forall u, u ∈ up <->
          u ∈ index (segments net) /\ to_segnum (segments net) !!! u = s)
  /\ (forall s, s ∈ index (segments net) ->
        upstream_segnums net !! s = None <-> s ∈ headwater (segments net))
  /\ upstream_segnums net !! END_SEGNUM net = None.
Proof.
  intros Hnd Hinit.
  destruct (init_table _ _ _ Hinit)
    as (seg_c & warns & errs & seg_t & Hne & Hconn & Htrav & HEND & Hcols & Hg & Ht & Hups & _).
  destruct Hcols as (Hg' & Ht' & _). rewrite Hg in Hg'. rewrite Ht in Ht'.
  rewrite <- (build_upstream_segnums_same _ _ _ Hg' Ht') in Hups.
  destruct (connect_all_graph _ _ _ _ _ Hnd Hconn) as (Hgc & Hvalid).
  rewrite <- Ht' in Hvalid.
  assert (Hidx : index (segments net) = lines.*1).
  { unfold index. by rewrite Hg', Hgc. }
  rewrite <- Hidx in Hvalid. rewrite Hups, HEND.
  split_and!.
  - intros s up. rewrite build_upstream_segnums_lookup.
    destruct (decide _) as [[Hs Hse]|]; [|done]. intros [= <-].
    apply elem_of_to_segnum_values in Hs as (u & Hu & Hto).
    split_and!.
    + destruct (Hvalid u Hu) as [Hend|Hin]; [congruence|by rewrite <- Hto].
    + intros Hempty. apply (not_elem_of_empty (C := gset Z) u). rewrite <- Hempty.
      by apply elem_of_list_to_set, elem_of_index_where_to.
    + intros u'. by rewrite elem_of_list_to_set, elem_of_index_where_to.
  - intros s Hs. rewrite build_upstream_segnums_lookup. unfold headwater.
    rewrite list_elem_of_filter. destruct (decide _) as [[Hv Hse]|Hn].
    + split; [done|]. by intros [Hnot _].
    + split; [|done]. intros _. split; [|done]. intros Hv. apply Hn. split; [done|].
      intros ->. rewrite Hidx in Hs. by apply (end_segnum_fresh lines.*1).
  - rewrite build_upstream_segnums_lookup. by destruct (decide _) as [[_ ?]|].
Qed.

(** ** The columns written by the recursion *)

Section Stamps.
Variables (END : Z) (geoms : list (Z * LineString F)) (to : gmap Z Z).
Hypothesis END_fresh : END ∉ geoms.*1.

(** [stamps s n c l]: segment [s] is the [n]-th segment on the way up from
    the outlet [c], and [l] is the length of that way, each segment's length
    added to the length below it. *)
Inductive stamps : Z -> Z -> Z -> F -> Prop :=
  | stamps_outlet s g :
      series_get s geoms = Some g -> to !!! s = END ->
      stamps s 1 s (fadd fzero (geom_length g))
  | stamps_step s g n c l :
      series_get s geoms = Some g ->
      stamps (to !!! s) n c l ->
      stamps s (n + 1) c (fadd l (geom_length g)).

Lemma stamps_index s n c l : stamps s n c l -> s ∈ geoms.*1.
Proof.
  intros Hs. apply (series_get_Some s geoms). destruct Hs; by eexists.
Qed.

Lemma stamps_pos s n c l : stamps s n c l -> 1 <= n.
Proof. induction 1; lia. Qed.

Lemma stamps_functional s n c l n' c' l' :
  stamps s n c l -> stamps s n' c' l' -> n = n' /\ c = c' /\ l = l'.
Proof using END_fresh.
  intros Hs. revert n' c' l'.
  induction Hs as [s g Hg Hto|s g n c l Hg Hs IH]; intros n' c' l' Hs'.
  - destruct Hs' as [s g' Hg' _|s g' n' c' l' Hg' Hs'].
    + rewrite Hg in Hg'. by injection Hg' as <-.
    + rewrite Hto in Hs'. by apply stamps_index in Hs'.
  - destruct Hs' as [s g' Hg' Hto|s g' n' c' l' Hg' Hs'].
    + rewrite Hto in Hs. by apply stamps_index in Hs.
    + rewrite Hg in Hg'. injection Hg' as <-.
      by destruct (IH _ _ _ Hs') as (-> & -> & ->).
Qed.

(** a row of the table: as [with_outlet_columns] left it, or stamped *)
Definition row_stamped (seg : Segments) (k : Z) : Prop :=
  (num_to_outlet seg !!! k = 0 /\ cat_group seg !!! k = END
   /\ length_to_outlet seg !!! k = fzero)
  \/ stamps k (num_to_outlet seg !!! k) (cat_group seg !!! k)
       (length_to_outlet seg !!! k).

Definition stamped_table (seg : Segments) : Prop :=
  geometry seg = geoms /\ to_segnum seg = to
  /\ forall k, k ∈ geoms.*1 -> row_stamped seg k.

Lemma resurse_upstream_stamps stack :
  forall seg segnum cat num len seg',
    resurse_upstream stack seg segnum cat num len = Ok seg' ->
    (forall g, series_get segnum geoms = Some g ->
       stamps segnum (num + 1) cat (fadd len (geom_length g))) ->
    stamped_table seg -> stamped_table seg'.
Proof.
  induction stack as [|stack IH];
    intros seg segnum cat num len seg' Hrec Harg (Hg & Ht & Hrows);
    simpl in Hrec; [done|].
  apply bind_Ok in Hrec as (geom & Hgeom & Hfold).
  apply from_option_Ok in Hgeom. simpl in Hgeom. rewrite Hg in Hgeom.
  specialize (Harg geom Hgeom).
  revert Hfold. apply foldM_invariant.
  - intros acc u acc' Hu Hacc Hcall.
    apply elem_of_index_where_to in Hu as [_ Hto]. simpl in Hto.
    apply (IH _ _ _ _ _ _ Hcall); [|done].
    intros gu Hgu. apply stamps_step; [done|]. rewrite Ht in Hto. by rewrite Hto.
  - split_and!; [done|done|]. intros k Hk. unfold row_stamped. simpl.
    destruct (decide (k = segnum)) as [->|Hne].
    + right. by rewrite !lookup_total_insert_eq.
    + rewrite !lookup_total_insert_ne by done. by apply Hrows.
Qed.

Lemma traverse_outlets_stamps stack seg seg' :
  traverse_outlets stack END seg = Ok seg' ->
  stamped_table seg -> stamped_table seg'.
Proof.
  unfold traverse_outlets. intros Hfold Htable.
  assert (Hout : forall o, o ∈ outlets seg END -> to !!! o = END).
  { intros o [_ Ho]%elem_of_index_where_to. destruct Htable as (_ & <- & _). done. }
  revert Hfold. apply (foldM_invariant stamped_table); [|done].
  intros acc o acc' Ho Hacc Hcall.
  apply (resurse_upstream_stamps _ _ _ _ _ _ _ Hcall); [|done].
  intros g Hg. replace (0 + 1) with 1 by lia. apply stamps_outlet; [done|by apply Hout].
Qed.

End Stamps.

(** X6: the columns of the recursion follow [to_segnum].  An outlet has
    [num_to_outlet] 1, itself as [cat_group] and its own length as
    [length_to_outlet]; a segment that drains to a numbered segment has one
    more than its [num_to_outlet], the same [cat_group], and its
    [length_to_outlet] plus its own length; a segment that drains to a
    segment without number keeps 0, [END_SEGNUM] and 0.0. *)
Theorem outlet_columns_follow_to_segnum stack lines net k g :
  NoDup lines.*1 -> init stack lines = Ok net -> (k, g) ∈ lines ->
  let seg := segments net in
  let t := to_segnum seg !!! k in
  (t = END_SEGNUM net ->
     num_to_outlet seg !!! k = 1 /\ cat_group seg !!! k = k
     /\ length_to_outlet seg !!! k = fadd fzero (geom_length g))
  /\ (t <> END_SEGNUM net -> 0 < num_to_outlet seg !!! t ->
      num_to_outlet seg !!! k = num_to_outlet seg !!! t + 1
      /\ cat_group seg !!! k = cat_group seg !!! t
      /\ length_to_outlet seg !!! k
         = fadd (length_to_outlet seg !!! t) (geom_length g))
  /\ (t <> END_SEGNUM net -> num_to_outlet seg !!! t = 0 ->
      num_to_outlet seg !!! k = 0 /\ cat_group seg !!! k = END_SEGNUM net
      /\ length_to_outlet seg !!! k = fzero).
Proof.
  intros Hnd Hinit Hin seg t. subst seg t.
  destruct (init_table _ _ _ Hinit)
    as (seg_c & warns & errs & seg_t & Hne & Hconn & Htrav & -> & Hcols & Hg & Ht & _).
  destruct Hcols as (_ & -> & -> & -> & ->).
  set (END := end_segnum lines.*1) in *.
  destruct (connect_all_graph _ _ _ _ _ Hnd Hconn) as (Hgc & Hvalid).
  pose proof (end_segnum_fresh lines.*1) as Hend. fold END in Hend.
  destruct (stage_facts _ _ _ _ _ _ Hnd Hconn Htrav)
    as (_ & _ & _ & _ & Hnum & _).
  fold END in Hnum. rewrite <- Ht in Hnum, Hvalid.
  assert (Htable : stamped_table END lines (to_segnum seg_t) seg_t).
  { apply (traverse_outlets_stamps _ _ _ _ _ _ Htrav).
    split_and!; [done|by rewrite Ht|]. intros k' Hk'. left. simpl.
    rewrite !column_lookup; [done|unfold index; by rewrite Hgc..]. }
  destruct Htable as (_ & _ & Hrows).
  assert (Hk : k ∈ lines.*1) by (apply list_elem_of_fmap; by exists (k, g)).
  assert (Hgk : series_get k lines = Some g) by by apply series_get_NoDup.
  assert (Hset : forall s, s ∈ lines.*1 -> 0 < num_to_outlet seg_t !!! s ->
            stamps END lines (to_segnum seg_t) s (num_to_outlet seg_t !!! s)
              (cat_group seg_t !!! s) (length_to_outlet seg_t !!! s)).
  { intros s Hs Hpos. destruct (Hrows s Hs) as [(Hz & _)|Hst]; [lia|done]. }
  destruct (Hnum k Hk) as (Hdrain & Hcase & _).
  split_and!.
  - intros Hto.
    assert (Hone : num_to_outlet seg_t !!! k = 1).
    { by rewrite (Hdrain 1%nat) by (by apply drains_outlet). }
    assert (Hsk : 0 < num_to_outlet seg_t !!! k) by lia.
    apply (Hset k Hk) in Hsk.
    by destruct (stamps_functional END lines (to_segnum seg_t) Hend _ _ _ _ _ _ _
                   Hsk (stamps_outlet END lines (to_segnum seg_t) k g Hgk Hto))
      as (_ & -> & ->).
  - intros Hto Hpos.
    destruct (Hvalid k Hk) as [|Ht']; [done|].
    assert (Hk1 : num_to_outlet seg_t !!! k
                  = num_to_outlet seg_t !!! (to_segnum seg_t !!! k) + 1).
    { destruct (Hnum _ Ht') as (_ & [Hz|(d & Hd & Hnd')] & _); [lia|].
      rewrite (Hdrain (S d)) by (by apply drains_step). lia. }
    pose proof (Hset _ Ht' Hpos) as Hst.
    assert (Hsk : 0 < num_to_outlet seg_t !!! k) by lia.
    apply (Hset k Hk) in Hsk.
    pose proof (stamps_step END lines (to_segnum seg_t) k g _ _ _ Hgk Hst) as Hsk'.
    by destruct (stamps_functional END lines (to_segnum seg_t) Hend _ _ _ _ _ _ _
                   Hsk Hsk') as (_ & -> & ->).
  - intros Hto Hzero.
    destruct (Hvalid k Hk) as [|Ht']; [done|].
    assert (Hk0 : num_to_outlet seg_t !!! k = 0).
    { destruct Hcase as [|(d & Hd & _)]; [done|].
      destruct Hd as [k Hki Hout|k d Hki Hd]; [done|].
      destruct (Hnum _ Ht') as (Hdt & _). rewrite (Hdt d Hd) in Hzero.
      apply drains_pos in Hd. lia. }
    destruct (Hrows k Hk) as [(_ & Hc & Hl)|Hst]; [done|].
    apply stamps_pos in Hst. lia.
Qed.

(** ** The sequence numbers of the headwater segments *)

Lemma sequence_segment_other ups st segnum st' :
  sequence_segment ups st segnum = Ok st' ->
  (forall k, k <> segnum ->
     sequence (ss_segments st') !!! k = sequence (ss_segments st) !!! k)
  /\ (forall x, x ∈ ss_completed st -> x ∈ ss_completed st').
Proof.
  unfold sequence_segment. intros (up & _ & Hrest)%bind_Ok.
  destruct (decide (up ⊆ ss_completed st)); [|by injection Hrest as <-].
  apply bind_Ok in Hrest as (ord & _ & [= <-]). simpl. split.
  - intros k Hk. by rewrite lookup_total_insert_ne.
  - intros x Hx. apply elem_of_union. by right.
Qed.

(** the segments that the loop has numbered before it starts keep their
    numbers *)
Definition keeps_numbers (hw : list Z) (f : Z -> Z) (st : SeqState) : Prop :=
  forall h, h ∈ hw ->
    h ∈ ss_completed st /\ sequence (ss_segments st) !!! h = f h.

Lemma sequence_iteration_keeps END ups hw f st st' :
  sequence_iteration END ups st = Ok st' ->
  keeps_numbers hw f st -> keeps_numbers hw f st'.
Proof.
  unfold sequence_iteration. intros Hfold Hkeep. revert Hfold.
  apply (foldM_invariant (keeps_numbers hw f)); [|done].
  intros acc x acc' Hx Hacc Hstep h Hh.
  destruct (sequence_segment_other _ _ _ _ Hstep) as [Hother Hmono].
  destruct (Hacc h Hh) as [Hc Hs]. split; [by apply Hmono|].
  rewrite Hother; [done|]. intros ->.
  rewrite sort_values_desc_perm in Hx. unfold key_rows in Hx.
  rewrite <- list_fmap_compose, list_fmap_id in Hx.
  rewrite (list_of_set_perm (downstream_of END st)) in Hx.
  apply elem_of_elements in Hx. unfold downstream_of in Hx.
  apply elem_of_difference in Hx as [_ Hx].
  apply Hx, elem_of_union. left. by apply Hkeep.
Qed.

Lemma sequence_loop_keeps n END ups hw f :
  forall st st',
    sequence_loop n END ups st = Ok st' ->
    keeps_numbers hw f st -> keeps_numbers hw f st'.
Proof.
  induction n as [|n IH]; intros st st' Hloop Hkeep; simpl in Hloop.
  - by injection Hloop as <-.
  - apply bind_Ok in Hloop as (st1 & Hiter & Hrest).
    apply (sequence_iteration_keeps _ _ _ _ _ _ Hiter) in Hkeep.
    destruct (sequence_done (ss_segments st1)).
    + by injection Hrest as <-.
    + by apply (IH _ _ Hrest).
Qed.

(** X7: the headwater segments are sequenced first: their sequence numbers
    are the numbers from 1 to the number of headwater segments, and every
    other segment with a sequence number has a greater one. *)
Theorem headwater_sequenced_first stack lines net :
  NoDup lines.*1 -> init stack lines = Ok net ->
  let seg := segments net in
  (fun h => sequence seg !!! h) <$> headwater seg
    ≡ₚ seqZ 1 (Z.of_nat (length (headwater seg)))
  /\ forall k, k ∈ index seg -> k ∉ headwater seg -> 0 < sequence seg !!! k ->
       Z.of_nat (length (headwater seg)) < sequence seg !!! k.
Proof.
  intros Hnd Hinit seg. subst seg.
  destruct (init_Ok _ _ _ Hinit)
    as (seg_c & warns & errs & seg_t & st & Hne & Hconn & Htrav & Hrest).
  cbv zeta in Hrest.
  destruct Hrest as (Hfu & Hloop & Hn & Hseg & HEND & Hups & _).
  destruct (stage_facts _ _ _ _ _ _ Hnd Hconn Htrav)
    as (Hvalid & Hdef & Helem & Hhw & Hnum & Hinv0 & His & Hns & Hgs & Hperm & Htt).
  set (END := end_segnum lines.*1) in *. set (idx := lines.*1) in *.
  set (hw := headwater seg_t) in *.
  set (seg_s := number_headwater _ _) in *.
  rewrite His, Hns in Hloop.
  pose proof (end_segnum_fresh idx) as Hend. fold END in Hend.
  destruct (sequence_loop_inv END idx _ _ _ _ Hnd Hend Hdef
              (fun k up Hk => proj2 (Helem k up Hk)) Hhw Hvalid
              (Z.to_nat (zmax_list ((fun k => num_to_outlet seg_t !!! k) <$> idx)))
              _ Hinv0)
    as (st' & Hst' & Hinv & _).
  rewrite Hloop in Hst'. injection Hst' as <-.
  assert (Hkeep : keeps_numbers hw (fun h => sequence seg_s !!! h) st).
  { apply (sequence_loop_keeps _ _ _ _ _ _ _ Hloop). intros h Hh. split; [|done].
    simpl. by apply elem_of_list_to_set. }
  assert (Hgt : geometry seg_t = lines).
  { destruct (traverse_outlets_frame _ _ _ _ Htrav) as (-> & _). simpl.
    by destruct (connect_all_graph _ _ _ _ _ Hnd Hconn) as (-> & _). }
  assert (Hsame : headwater (segments net) = hw).
  { rewrite Hseg. apply headwater_same.
    - destruct (sequence_loop_frame _ _ _ _ _ Hloop) as (-> & _). simpl.
      by rewrite Hgs, Hgt.
    - rewrite (inv_to _ _ _ _ _ _ Hinv). by rewrite Htt. }
  rewrite Hsame, Hseg.
  assert (Hhwnd : NoDup hw).
  { unfold hw, headwater. apply NoDup_filter. unfold index. by rewrite Hgt. }
  assert (Hlen : length (sort_values_desc
                   (key_rows (with_sequence_columns seg_t) hw)) = length hw)
    by by rewrite Hperm.
  assert (Hfirst : (fun h => sequence (ss_segments st) !!! h) <$> hw
                   ≡ₚ seqZ 1 (Z.of_nat (length hw))).
  { apply NoDup_range_seqZ.
    - apply NoDup_fmap_2_strong; [|done]. intros h h' Hh Hh' Heq.
      destruct (Hkeep h Hh) as [_ Hs]. destruct (Hkeep h' Hh') as [_ Hs'].
      rewrite Hs, Hs' in Heq.
      apply (inv_inj _ _ _ _ _ _ Hinv0); simpl; [by apply elem_of_list_to_set..|done].
    - intros x (h & -> & Hh)%list_elem_of_fmap.
      destruct (Hkeep h Hh) as [_ ->].
      pose proof (inv_range _ _ _ _ _ _ Hinv0 h) as Hr. simpl in Hr.
      rewrite Hlen in Hr. apply Hr. by apply elem_of_list_to_set.
    - by rewrite length_fmap. }
  split; [done|].
  intros k Hk Hnot Hpos.
  rewrite (inv_index _ _ _ _ _ _ Hinv) in Hk.
  assert (Hc : k ∈ ss_completed st).
  { destruct (decide (k ∈ ss_completed st)) as [|Hn']; [done|].
    destruct (inv_zero _ _ _ _ _ _ Hinv k Hk Hn'). lia. }
  assert (Hout : sequence (ss_segments st) !!! k
                 ∉ seqZ 1 (Z.of_nat (length hw))).
  { rewrite <- Hfirst. intros (h & Heq & Hh)%list_elem_of_fmap.
    apply Hnot. destruct (Hkeep h Hh) as [Hch _].
    by rewrite (inv_inj _ _ _ _ _ _ Hinv k h Hc Hch Heq). }
  rewrite elem_of_seqZ in Hout. lia.
Qed.

(** ** Headwater and outlet segments with common locations *)

(** segment [k] is in the set of some entry of the dict *)
Definition reported (d : coord_dict) (k : Z) : Prop :=
  exists e, e ∈ d /\ k ∈ e.2.

Lemma coord_dict_add_reported key s d k :
  reported (coord_dict_add key s d) k <-> k = s \/ reported d k.
Proof.
  unfold coord_dict_add, reported.
  destruct (existsb (fun e => xy_eqb e.1 key) d) eqn:Hex; split.
  - intros (e & (e0 & -> & He0)%list_elem_of_fmap & Hk).
    destruct (xy_eqb e0.1 key); simpl in Hk.
    + apply elem_of_union in Hk as [Hk%elem_of_singleton|Hk]; [by left|].
      right. by exists e0.
    + right. by exists e0.
  - intros [->|(e & He & Hk)].
    + apply existsb_exists in Hex as (e & He%list_elem_of_In & Hkey).
      exists (e.1, {[s]} ∪ e.2). split.
      * apply list_elem_of_fmap. exists e. by rewrite Hkey.
      * simpl. apply elem_of_union. left. by apply elem_of_singleton.
    + exists (if xy_eqb e.1 key then (e.1, {[s]} ∪ e.2) else e). split.
      * apply list_elem_of_fmap. by exists e.
      * destruct (xy_eqb e.1 key); [|done]. simpl. apply elem_of_union. by right.
  - intros (e & [He|He%list_elem_of_singleton]%elem_of_app & Hk).
    + right. by exists e.
    + subst e. simpl in Hk. left. by apply elem_of_singleton in Hk.
  - intros [->|(e & He & Hk)].
    + exists (key, {[s]}). split; [apply elem_of_app; right; by left|].
      by apply elem_of_singleton.
    + exists e. split; [apply elem_of_app; by left|done].
Qed.

(** the test of [common_step]: another segment whose coordinate is the
    same tuple, or has the same x and y *)
Definition is_common (pick : LineString F -> Coord F) (segnum1 : Z)
    (coord1 : Coord F) (row2 : Z * LineString F) : bool :=
  negb (segnum1 =? row2.1)
  && (coord_eqb coord1 (pick row2.2)
      || xy_eqb (coord_xy coord1) (coord_xy (pick row2.2))).

Lemma common_step_reported pick warn segnum1 coord1 acc row2 k :
  reported (common_step pick warn segnum1 coord1 acc row2).1 k
  <-> (is_common pick segnum1 coord1 row2 = true /\ k = row2.1)
      \/ reported acc.1 k.
Proof.
  unfold common_step, is_common. destruct acc as [d warns]. simpl.
  destruct (segnum1 =? row2.1); simpl.
  { split; [by right|]. by intros [[? _]|]. }
  destruct (coord_eqb coord1 (pick row2.2)); simpl.
  { rewrite coord_dict_add_reported. split.
    - intros [->|?]; [by left|by right].
    - intros [[_ ->]|?]; [by left|by right]. }
  destruct (xy_eqb _ _); simpl.
  { rewrite coord_dict_add_reported. split.
    - intros [->|?]; [by left|by right].
    - intros [[_ ->]|?]; [by left|by right]. }
  split; [by right|]. by intros [[? _]|].
Qed.

Lemma common_fold_reported pick warn segnum1 coord1 sub k :
  forall acc,
    reported (foldl (common_step pick warn segnum1 coord1) acc sub).1 k
    <-> (exists row2, row2 ∈ sub /\ is_common pick segnum1 coord1 row2 = true
                      /\ k = row2.1)
        \/ reported acc.1 k.
Proof.
  induction sub as [|row2 sub IH]; intros acc; simpl.
  - split; [by right|]. intros [(r & Hr%elem_of_nil & _)|]; done.
  - rewrite IH, common_step_reported. split.
    + intros [(r & Hr & Hc)|[[Hc ->]|Hacc]].
      * left. exists r. split; [by right|done].
      * left. exists row2. split; [by left|done].
      * by right.
    + intros [(r & [->|Hr]%elem_of_cons & Hc & ->)|Hacc].
      * right. by left.
      * left. by exists r.
      * right. by right.
Qed.

Lemma common_locations_reported pick warn seg sindex labels warns k :
  reported (common_locations pick warn seg sindex labels warns).1 k
  <-> exists row1 row2,
        row1 ∈ rows_at seg labels
        /\ row2 ∈ candidates seg sindex (pick row1.2)
        /\ is_common pick row1.1 (pick row1.2) row2 = true
        /\ k = row2.1.
Proof.
  unfold common_locations.
  assert (forall rows acc,
    reported (foldl (fun acc row1 =>
                foldl (common_step pick warn row1.1 (pick row1.2)) acc
                  (candidates seg sindex (pick row1.2))) acc rows).1 k
    <-> (exists row1 row2,
           row1 ∈ rows /\ row2 ∈ candidates seg sindex (pick row1.2)
           /\ is_common pick row1.1 (pick row1.2) row2 = true /\ k = row2.1)
        \/ reported acc.1 k) as Hfold.
  { induction rows as [|row1 rows IH]; intros acc; simpl.
    - split; [by right|]. intros [(r & ? & Hr%elem_of_nil & _)|]; done.
    - rewrite IH, common_fold_reported. split.
      + intros [(r1 & r2 & Hr1 & Hc)|[(r2 & Hc)|Hacc]].
        * left. exists r1, r2. split; [by right|done].
        * left. exists row1, r2. split; [by left|done].
        * by right.
      + intros [(r1 & r2 & [->|Hr1]%elem_of_cons & Hc)|Hacc].
        * right. left. by exists r2.
        * left. by exists r1, r2.
        * right. by right. }
  rewrite Hfold. split; [|by left].
  intros [|(e & He%elem_of_nil & _)]; done.
Qed.

(** the messages of the connectivity pass and the warnings about a match in
    2D are no report of a common coordinate *)
Definition is_report (m : Message F) : bool :=
  match m with
  | StartCoordinateMatches _ _ | EndCoordinateMatches _ _ => true
  | _ => false
  end.

Lemma connect_all_no_report sindex seg seg' warns errs :
  connect_all sindex seg = (seg', warns, errs) ->
  Forall (fun m => is_report m = false) warns
  /\ Forall (fun m => is_report m = false) errs.
Proof.
  unfold connect_all.
  set (P := fun st : Segments * list (Message F) * list (Message F) =>
              Forall (fun m => is_report m = false) st.1.2
              /\ Forall (fun m => is_report m = false) st.2).
  assert (Hstep : forall segnum1 c sub acc,
            Forall (fun m => is_report m = false) acc.1.2
            /\ Forall (fun m => is_report m = false) acc.2 ->
            Forall (fun m => is_report m = false)
              (foldl (connect_step segnum1 c) acc sub).1.2
            /\ Forall (fun m => is_report m = false)
                 (foldl (connect_step segnum1 c) acc sub).2).
  { intros segnum1 c sub. induction sub as [|row2 sub IH]; intros acc Hacc; [done|].
    simpl. apply IH. destruct acc as [[ms ws] es]. destruct Hacc as [Hw He].
    unfold connect_step. simpl in *.
    destruct (segnum1 =? row2.1); [done|].
    destruct (coord_eqb _ _); [done|].
    destruct (xy_eqb _ _).
    { simpl. split; [|done]. apply Forall_app. split; [done|]. by constructor. }
    destruct (_ && _); [|done].
    simpl. split; [done|]. apply Forall_app. split; [done|]. by constructor. }
  assert (Hfold : forall rows st, P st -> P (foldl (connect_segment sindex) st rows)).
  { induction rows as [|row1 rows IH]; intros st Hst; [done|].
    simpl. apply IH. destruct st as [[s ws] es]. unfold connect_segment.
    destruct Hst as [Hw He]. simpl in Hw, He.
    pose proof (Hstep row1.1 (coords_end row1.2)
                  (candidates s sindex (coords_end row1.2)) ([], ws, es)
                  (conj Hw He)) as [Hw' He'].
    destruct (foldl _ _ _) as [[ms ws'] es']. simpl in Hw', He'.
    split; simpl; [done|].
    destruct (1 <? _); [|done]. apply Forall_app. split; [done|]. by constructor. }
  intros Hconn. specialize (Hfold (geometry seg) (seg, [], [])).
  rewrite Hconn in Hfold. apply Hfold. by split.
Qed.

Lemma common_locations_no_report pick warn seg sindex labels warns :
  (forall a b, is_report (warn a b) = false) ->
  Forall (fun m => is_report m = false) warns ->
  Forall (fun m => is_report m = false)
    (common_locations pick warn seg sindex labels warns).2.
Proof.
  intros Hwarn. unfold common_locations.
  assert (Hstep : forall segnum1 c sub acc,
            Forall (fun m => is_report m = false) acc.2 ->
            Forall (fun m => is_report m = false)
              (foldl (common_step pick warn segnum1 c) acc sub).2).
  { intros segnum1 c sub. induction sub as [|row2 sub IH]; intros acc Hacc; [done|].
    simpl. apply IH. destruct acc as [d ws]. unfold common_step. simpl in *.
    destruct (segnum1 =? row2.1); [done|].
    destruct (coord_eqb _ _); [done|].
    destruct (xy_eqb _ _); [|done].
    simpl. apply Forall_app. split; [done|]. constructor; [apply Hwarn|constructor]. }
  generalize (rows_at seg labels). intros rows.
  generalize (@nil (F * F * gset Z)). revert warns.
  induction rows as [|row1 rows IH]; intros warns d Hw; [done|].
  simpl.
  pose proof (Hstep row1.1 (pick row1.2) (candidates seg sindex (pick row1.2))
                (d, warns) Hw) as Hw'.
  destruct (foldl (common_step _ _ _ _) _ _) as [d' ws']. by apply IH.
Qed.

Lemma elem_of_rows_at seg labels row :
  row ∈ rows_at seg labels
  <-> row.1 ∈ labels /\ series_get row.1 (geometry seg) = Some row.2.
Proof.
  unfold rows_at. rewrite list_elem_of_omap. split.
  - intros (k & Hk & Hrow). destruct (series_get k (geometry seg)) as [g|] eqn:Hg; [|done].
    simpl in Hrow. injection Hrow as <-. done.
  - intros [Hk Hg]. exists row.1. split; [done|]. rewrite Hg. by destruct row.
Qed.

(** The messages of a network that [init] returned: the errors are those of
    the connectivity pass and then one per entry of [start_coords]; the
    warnings end with one per entry of [end_coords]. *)
Lemma init_messages stack lines net :
  init stack lines = Ok net ->
  let END := end_segnum lines.*1 in
  exists seg_c warns errs seg_t,
    connect_all (sindex_sub lines) (initial_segments lines END)
    = (seg_c, warns, errs)
    /\ traverse_outlets stack END (with_outlet_columns END seg_c) = Ok seg_t
    /\ let sc := common_locations coords_start StartMatchesStart2D seg_t
                   (sindex_sub lines) (headwater seg_t) warns in
       let ec := common_locations coords_end EndMatchesEnd2D seg_t
                   (sindex_sub lines) (outlets seg_c END) sc.2 in
       errors net = errs ++ ((fun e => StartCoordinateMatches e.1 e.2) <$> sc.1)
       /\ warnings net
          = ec.2 ++ ((fun e => EndCoordinateMatches e.1 e.2) <$> ec.1).
Proof.
  unfold init. destruct (decide (lines = [])) as [|Hne]; [done|].
  destruct (connect_all _ _) as [[seg_c warns] errs] eqn:Hconn.
  intros (seg_t & Htrav & Hrest)%bind_Ok.
  exists seg_c, warns, errs, seg_t. split; [done|]. split; [done|].
  cbv zeta.
  destruct (common_locations coords_start _ _ _ _ _) as [start_coords warns1].
  simpl.
  destruct (common_locations coords_end _ _ _ _ _) as [end_coords warns2].
  apply bind_Ok in Hrest as (sq & Hsq & Hrest).
  apply bind_Ok in Hrest as (st & Hloop & Hrest).
  destruct (_ <? 1); [done|]. by injection Hrest as <-.
Qed.

(** [shares_location pick rows sub h k]: among the rows scanned for
    segment [h], segment [k] is another segment whose [pick] coordinate is
    the one of [h], as a tuple or in x and y. *)
Definition shares_location (pick : LineString F -> Coord F)
    (rows : list (Z * LineString F))
    (sub : Coord F -> list (Z * LineString F)) (h k : Z) : Prop :=
  exists g g2,
    (h, g) ∈ rows /\ (k, g2) ∈ sub (pick g) /\ k <> h
    /\ (coord_eqb (pick g) (pick g2)
        || xy_eqb (coord_xy (pick g)) (coord_xy (pick g2))) = true.

Lemma common_locations_shares pick warn seg sindex labels warns k :
  NoDup (index seg) ->
  reported (common_locations pick warn seg sindex labels warns).1 k
  <-> exists h, h ∈ labels
        /\ shares_location pick (geometry seg) (candidates seg sindex) h k.
Proof.
  intros Hnd. rewrite common_locations_reported. split.
  - intros ([h g] & [k' g2] & [Hh Hg]%elem_of_rows_at & Hsub & Hc & ->).
    simpl in *. unfold is_common in Hc. simpl in Hc.
    apply andb_true_iff in Hc as [Hne Hc].
    exists h. split; [done|]. exists g, g2. split_and!; try done.
    + by apply series_get_elem_of.
    + intros ->. by rewrite Z.eqb_refl in Hne.
  - intros (h & Hh & g & g2 & Hg & Hsub & Hne & Hc).
    exists (h, g), (k, g2). split_and!; try done.
    + apply elem_of_rows_at. split; [done|]. by apply series_get_NoDup.
    + unfold is_common. simpl. rewrite Hc, andb_true_r.
      apply negb_true_iff, Z.eqb_neq. congruence.
Qed.

(** X8: a headwater segment that starts where another segment starts is an
    error of the network: the errors hold a message [StartCoordinateMatches]
    with the other segment in its set, and every segment in the set of such
    a message starts where some headwater segment starts. *)
Theorem headwater_common_start stack lines net :
  NoDup lines.*1 -> init stack lines = Ok net ->
  let seg := segments net in
  let sub := candidates seg (sindex_sub lines) in
  (forall h k, h ∈ headwater seg ->
     shares_location coords_start lines sub h k ->
     exists key v, StartCoordinateMatches key v ∈ errors net /\ k ∈ v)
  /\ (forall key v k, StartCoordinateMatches key v ∈ errors net -> k ∈ v ->
        exists h, h ∈ headwater seg
                  /\ shares_location coords_start lines sub h k).
Proof.
  intros Hnd Hinit seg sub. subst seg sub.
  destruct (init_table _ _ _ Hinit)
    as (seg_c & warns & errs & seg_t & Hne & Hconn & Htrav & HEND & Hcols & Hg & Ht & _).
  destruct (init_messages _ _ _ Hinit)
    as (seg_c' & warns' & errs' & seg_t' & Hconn' & Htrav' & Hmsg).
  rewrite Hconn in Hconn'. injection Hconn' as <- <- <-.
  rewrite Htrav in Htrav'. injection Htrav' as <-.
  cbv zeta in Hmsg. destruct Hmsg as [Herr _].
  destruct Hcols as (Hg' & Ht' & _).
  destruct (connect_all_graph _ _ _ _ _ Hnd Hconn) as (Hgc & _).
  assert (Hgt : geometry seg_t = lines) by by rewrite Hg.
  assert (Hndt : NoDup (index seg_t)) by (unfold index; by rewrite Hgt).
  rewrite (headwater_same seg_t (segments net) Hg' Ht').
  assert (Hsub : candidates (segments net) (sindex_sub lines)
                 = candidates seg_t (sindex_sub lines)).
  { unfold candidates. by rewrite Hg'. }
  rewrite Hsub, Herr.
  pose proof (common_locations_shares coords_start StartMatchesStart2D seg_t
                (sindex_sub lines) (headwater seg_t) warns) as Hrep.
  rewrite Hgt in Hrep.
  split.
  - intros h k Hh Hshare.
    destruct (proj2 (Hrep k Hndt)) as (e & He & Hk); [by exists h|].
    exists e.1, e.2. split; [|done]. apply elem_of_app. right.
    apply list_elem_of_fmap. by exists e.
  - intros key v k [Hin|Hin]%elem_of_app Hk.
    + destruct (connect_all_no_report _ _ _ _ _ Hconn) as [_ Hno].
      rewrite Forall_forall in Hno. by specialize (Hno _ Hin).
    + apply list_elem_of_fmap in Hin as (e & [= -> ->] & He).
      apply (Hrep k Hndt). by exists e.
Qed.

(** X9: an outlet that ends where another segment ends is a warning of the
    network: the warnings hold a message [EndCoordinateMatches] with the
    other segment in its set, and every segment in the set of such a message
    ends where some outlet ends. *)
Theorem outlet_common_end stack lines net :
  NoDup lines.*1 -> init stack lines = Ok net ->
  let seg := segments net in
  let sub := candidates seg (sindex_sub lines) in
  (forall o k, o ∈ outlets seg (END_SEGNUM net) ->
     shares_location coords_end lines sub o k ->
     exists key v, EndCoordinateMatches key v ∈ warnings net /\ k ∈ v)
  /\ (forall key v k, EndCoordinateMatches key v ∈ warnings net -> k ∈ v ->
        exists o, o ∈ outlets seg (END_SEGNUM net)
                  /\ shares_location coords_end lines sub o k).
Proof.
  intros Hnd Hinit seg sub. subst seg sub.
  destruct (init_table _ _ _ Hinit)
    as (seg_c & warns & errs & seg_t & Hne & Hconn & Htrav & HEND & Hcols & Hg & Ht & _).
  destruct (init_messages _ _ _ Hinit)
    as (seg_c' & warns' & errs' & seg_t' & Hconn' & Htrav' & Hmsg).
  rewrite Hconn in Hconn'. injection Hconn' as <- <- <-.
  rewrite Htrav in Htrav'. injection Htrav' as <-.
  cbv zeta in Hmsg. destruct Hmsg as [_ Hwarn].
  destruct Hcols as (Hg' & Ht' & _).
  destruct (connect_all_graph _ _ _ _ _ Hnd Hconn) as (Hgc & _).
  assert (Hgt : geometry seg_t = lines) by by rewrite Hg.
  assert (Hndt : NoDup (index seg_t)) by (unfold index; by rewrite Hgt).
  assert (Hout : outlets (segments net) (END_SEGNUM net)
                 = outlets seg_c (end_segnum lines.*1)).
  { unfold outlets, index_where_to, index. by rewrite HEND, Hg', Ht', Hg, Ht. }
  assert (Hsub : candidates (segments net) (sindex_sub lines)
                 = candidates seg_t (sindex_sub lines)).
  { unfold candidates. by rewrite Hg'. }
  rewrite Hout, Hsub, Hwarn.
  set (sc := common_locations coords_start _ _ _ _ _).
  pose proof (common_locations_shares coords_end EndMatchesEnd2D seg_t
                (sindex_sub lines) (outlets seg_c (end_segnum lines.*1)) sc.2)
    as Hrep.
  rewrite Hgt in Hrep.
  split.
  - intros o k Ho Hshare.
    destruct (proj2 (Hrep k Hndt)) as (e & He & Hk); [by exists o|].
    exists e.1, e.2. split; [|done]. apply elem_of_app. right.
    apply list_elem_of_fmap. by exists e.
  - intros key v k [Hin|Hin]%elem_of_app Hk.
    + destruct (connect_all_no_report _ _ _ _ _ Hconn) as [Hno _].
      pose proof (common_locations_no_report coords_end EndMatchesEnd2D seg_t
                    (sindex_sub lines) (outlets seg_c (end_segnum lines.*1)) sc.2
                    (fun _ _ => eq_refl)
                    (common_locations_no_report coords_start StartMatchesStart2D
                       seg_t (sindex_sub lines) (headwater seg_t) warns
                       (fun _ _ => eq_refl) Hno)) as Hall.
      rewrite Forall_forall in Hall. by specialize (Hall _ Hin).
    + apply list_elem_of_fmap in Hin as (e & [= -> ->] & He).
      apply (Hrep k Hndt). by exists e.
Qed.

(** [__len__] *)
Definition len (net : SurfaceWaterNetwork) : nat := length (index (segments net)).

(** X14: a network has as many segments as lines were given, and at least
    one. *)
Theorem len_constructed stack lines net :
  NoDup lines.*1 -> init stack lines = Ok net ->
  len net = length lines /\ (1 <= len net)%nat.
Proof.
  intros Hnd Hinit. unfold len, index.
  rewrite (init_index _ _ _ Hnd Hinit), length_fmap.
  destruct (init_table _ _ _ Hinit) as (_ & _ & _ & _ & Hne & _).
  split; [done|]. destruct lines; [done|simpl; lia].
Qed.

End Constructor.

(** * Further properties of [adjust_elevation_profile] *)

Section Elevation.
Context {H : Host}.

#[local] Existing Instance F_inhabited.









(** ** A second call *)






(** ** The elevation profiles *)






End Elevation.

(** * [accumulate_values]: the sum over the catchment *)

Section Catchment.
Context {H : Host}.

(** On a network without cycle the call returns, and every segment is
    settled in what it returns: its value there is its own value and the
    sum of the values returned for its upstream segments. *)
Lemma accumulate_values_settled stack lines net values :
  NoDup lines.*1 ->
  init stack lines = Ok net ->
  acyclic (END_SEGNUM net) (segments net) ->
  series_index values = index (segments net) ->
  exists out,
    accumulate_values net values = Ok out
    /\ series_index out = index (segments net)
    /\ forall s, s ∈ index (segments net) ->
         settled values (upstream_segnums net) out s.
Proof.
  intros Hnd Hinit Hacyclic Hvalues.
  destruct (accumulate_values_index_total stack lines net values Hnd Hinit Hvalues)
    as (out & Hout).
  exists out. split; [done|].
  destruct (init_acyclic _ _ _ Hnd Hinit Hacyclic) as (Hidx & _ & _ & Htopo).
  unfold accumulate_values in Hout.
  rewrite (proj2 (index_differs_false _ _) Hvalues) in Hout.
  assert (Hndv : NoDup (visit_order (segments net))).
  { rewrite visit_order_perm, Hidx. done. }
  assert (Hinv :
    series_index out = index (segments net)
    /\ (forall k, k ∉ visit_order (segments net) ->
          series_get k out = series_get k values)
    /\ (forall s, s ∈ visit_order (segments net) ->
          settled values (upstream_segnums net) out s)).
  { revert Hout.
    apply (foldM_invariant_prefix (fun done accum =>
      series_index accum = index (segments net)
      /\ (forall k, k ∉ done -> series_get k accum = series_get k values)
      /\ (forall s, s ∈ done -> settled values (upstream_segnums net) accum s))).
    - intros l1 x l2 accum accum' Hsplit HP Hstep.
      eapply accumulate_step; try done.
      intros s up u Hup Hu. destruct (Htopo s up Hup) as [_ Hlt]. by apply Hlt.
    - split_and!; [done|done|by intros ? ?%elem_of_nil]. }
  destruct Hinv as (Hio & _ & Hall). split; [done|].
  intros s Hs. apply Hall. by rewrite visit_order_perm.
Qed.

(** ** Sums in [V] *)

Section Sums.
Variable vzero : V.
Hypothesis vsum_foldr : forall l, vsum l = foldr vadd vzero l.
Hypothesis vadd_comm : forall a b, vadd a b = vadd b a.
Hypothesis vadd_assoc : forall a b c, vadd a (vadd b c) = vadd (vadd a b) c.
Hypothesis vadd_zero : forall a, vadd a vzero = a.

Definition total (l : list V) : V := foldr vadd vzero l.

Lemma total_app l1 l2 : total (l1 ++ l2) = vadd (total l1) (total l2).
Proof using vadd_comm vadd_assoc vadd_zero.
  induction l1 as [|x l1 IH]; simpl.
  - by rewrite vadd_comm, vadd_zero.
  - by rewrite IH, vadd_assoc.
Qed.

Lemma total_perm l1 l2 : l1 ≡ₚ l2 -> total l1 = total l2.
Proof using vadd_comm vadd_assoc.
  induction 1 as [|x l1 l2 _ IH|x y l|l1 l2 l3 _ IH1 _ IH2]; simpl.
  - done.
  - by rewrite IH.
  - by rewrite !vadd_assoc, (vadd_comm x y).
  - by rewrite IH1.
Qed.

Lemma total_bind {A} (val : Z -> V) (f : A -> list Z) (l : list A) :
  total (val <$> (l ≫= f)) = total ((fun u => total (val <$> f u)) <$> l).
Proof using vadd_comm vadd_assoc vadd_zero.
  induction l as [|x l IH]; [done|].
  change ((x :: l) ≫= f) with (f x ++ (l ≫= f)).
  rewrite fmap_app, total_app, IH. done.
Qed.

(** ** The segments that drain through a segment *)

Section Reach.
Variables (idx : list Z) (to : gmap Z Z) (ups : gmap Z (gset Z)) (seq : gmap Z Z).
Hypothesis idx_NoDup : NoDup idx.
Hypothesis ups_elem : forall s up, ups !! s = Some up ->
  forall u, u ∈ up <-> u ∈ idx /\ to !!! u = s.
Hypothesis ups_defined : forall u, u ∈ idx -> to !!! u ∈ idx ->
  exists up, ups !! (to !!! u) = Some up.
Hypothesis seq_grows : forall u, u ∈ idx -> to !!! u ∈ idx ->
  seq !!! u < seq !!! (to !!! u).

(** [reaches k s]: following [to_segnum] from segment [k] comes to [s] *)
Inductive reaches : Z -> Z -> Prop :=
  | reaches_here s : reaches s s
  | reaches_step k s : k ∈ idx -> reaches (to !!! k) s -> reaches k s.

(** the upstream segments of [s], as [accumulate_values] lists them *)
Definition upstream_list (s : Z) : list Z :=
  list_of_set (default ∅ (ups !! s)).

Lemma elem_of_upstream_list s u :
  s ∈ idx -> u ∈ upstream_list s <-> u ∈ idx /\ to !!! u = s.
Proof using ups_elem ups_defined.
  intros Hs. unfold upstream_list. rewrite list_of_set_elem.
  destruct (ups !! s) as [up|] eqn:Hup; simpl.
  - by apply ups_elem.
  - split; [by intros ?%elem_of_empty|]. intros [Hu Hto]. subst s.
    destruct (ups_defined u Hu Hs) as (up & Hup'). congruence.
Qed.

Lemma reaches_index k s : s ∈ idx -> reaches k s -> k ∈ idx.
Proof. intros Hs Hr. by destruct Hr. Qed.

Lemma reaches_seq k s : s ∈ idx -> reaches k s -> seq !!! k <= seq !!! s.
Proof using seq_grows.
  intros Hs. induction 1 as [s|k s Hk Hr IH]; [lia|].
  specialize (IH Hs). pose proof (reaches_index _ _ Hs Hr) as Hto.
  specialize (seq_grows k Hk Hto). lia.
Qed.

Lemma reaches_last k u s :
  reaches k u -> u ∈ idx -> to !!! u = s -> reaches k s.
Proof.
  induction 1 as [u|k u Hk Hr IH]; intros Hu Hto.
  - apply reaches_step; [done|]. rewrite Hto. constructor.
  - apply reaches_step; [done|]. by apply IH.
Qed.

Lemma reaches_cases k s :
  reaches k s -> k = s \/ exists u, u ∈ idx /\ to !!! u = s /\ reaches k u.
Proof.
  induction 1 as [s|k s Hk Hr [Heq|(u & Hu & Hto & Hru)]].
  - by left.
  - right. exists k. split_and!; [done|done|constructor].
  - right. exists u. split_and!; [done|done|]. by apply reaches_step.
Qed.

Lemma reaches_linear k u u' :
  reaches k u -> reaches k u' -> reaches u u' \/ reaches u' u.
Proof.
  induction 1 as [u|k u Hk Hr IH]; intros Hr'.
  - by left.
  - destruct Hr' as [k|k u' _ Hr'].
    + right. by apply reaches_step.
    + by apply IH.
Qed.

(** the segments that reach [s], from [s] upstream; [n] bounds the number
    of segments on a way *)
Fixpoint catchment (n : nat) (s : Z) : list Z :=
  match n with
  | O => []
  | S n' => s :: (upstream_list s ≫= catchment n')
  end.

Lemma catchment_spec n :
  forall s, s ∈ idx -> 0 <= seq !!! s < Z.of_nat n ->
    (forall u, u ∈ idx -> 0 <= seq !!! u) ->
    NoDup (catchment n s) /\ forall k, k ∈ catchment n s <-> reaches k s.
Proof using idx_NoDup ups_elem ups_defined seq_grows.
  induction n as [|n IH]; intros s Hs Hn Hpos; [lia|].
  assert (Hup : forall u, u ∈ upstream_list s ->
            u ∈ idx /\ to !!! u = s
            /\ NoDup (catchment n u)
            /\ forall k, k ∈ catchment n u <-> reaches k u).
  { intros u Hu. apply (elem_of_upstream_list s u Hs) in Hu as [Hu Hto].
    split; [done|]. split; [done|]. apply IH; [done| |done].
    assert (seq !!! u < seq !!! s).
    { rewrite <- Hto. apply seq_grows; [done|]. by rewrite Hto. }
    specialize (Hpos u Hu). lia. }
  assert (Hmem : forall k, k ∈ catchment (S n) s <-> reaches k s).
  { intros k. simpl. rewrite elem_of_cons, list_elem_of_bind. split.
    - intros [->|(u & Hk & Hu)]; [constructor|].
      destruct (Hup u Hu) as (Hui & Hto & _ & Hspec).
      apply (reaches_last k u s); [by apply Hspec|done..].
    - intros [->|(u & Hu & Hto & Hr)]%reaches_cases; [by left|].
      right. exists u.
      assert (u ∈ upstream_list s) as Hul by by apply elem_of_upstream_list.
      split; [|done]. by apply (Hup u Hul). }
  split; [|done]. simpl. apply NoDup_cons. split.
  - intros (u & Hk & Hu)%list_elem_of_bind.
    destruct (Hup u Hu) as (Hui & Hto & _ & Hspec).
    apply Hspec, (reaches_seq s u Hui) in Hk.
    assert (seq !!! u < seq !!! s); [|lia].
    rewrite <- Hto. apply seq_grows; [done|]. by rewrite Hto.
  - apply NoDup_bind.
    + intros u u' k Hu Hu' Hk Hk'.
      destruct (Hup u Hu) as (Hui & Hto & _ & Hspec).
      destruct (Hup u' Hu') as (Hui' & Hto' & _ & Hspec').
      apply Hspec in Hk. apply Hspec' in Hk'.
      assert (Hstep : forall a b, a ∈ idx -> b ∈ idx -> to !!! a = s ->
                to !!! b = s -> reaches a b -> a = b).
      { intros a b Ha Hb Hta Htb Hab.
        destruct Hab as [a|a b _ Hab]; [done|].
        rewrite Hta in Hab. apply (reaches_seq s b Hb) in Hab.
        assert (seq !!! b < seq !!! s); [|lia].
        rewrite <- Htb. apply seq_grows; [done|]. by rewrite Htb. }
      destruct (reaches_linear k u u' Hk Hk') as [Hr|Hr].
      * by apply Hstep.
      * symmetry. by apply Hstep.
    + intros u Hu. by apply (Hup u Hu).
    + apply list_of_set_NoDup.
Qed.

(** ** The values returned *)

Variables (val outv : Z -> V).
Hypothesis outv_local : forall s, s ∈ idx ->
  outv s = vadd (val s) (total (outv <$> upstream_list s)).

Lemma catchment_total n :
  forall s, s ∈ idx -> 0 <= seq !!! s < Z.of_nat n ->
    (forall u, u ∈ idx -> 0 <= seq !!! u) ->
    outv s = total (val <$> catchment n s).
Proof using vadd_comm vadd_assoc vadd_zero ups_elem ups_defined seq_grows outv_local.
  induction n as [|n IH]; intros s Hs Hn Hpos; [lia|].
  rewrite (outv_local s Hs). simpl. f_equal.
  rewrite total_bind. f_equal. apply list_fmap_ext.
  intros _ u Hu%list_elem_of_lookup_2.
  apply (elem_of_upstream_list s u Hs) in Hu as [Hu Hto].
  apply IH; [done| |done].
  assert (seq !!! u < seq !!! s).
  { rewrite <- Hto. apply seq_grows; [done|]. by rewrite Hto. }
  specialize (Hpos u Hu). lia.
Qed.

Lemma catchment_sum s l :
  s ∈ idx -> (forall u, u ∈ idx -> 0 <= seq !!! u) ->
  NoDup l -> (forall k, k ∈ l <-> reaches k s) ->
  outv s = total (val <$> l).
Proof using vadd_comm vadd_assoc vadd_zero idx_NoDup ups_elem ups_defined seq_grows outv_local.
  intros Hs Hpos Hnd Hl.
  set (n := S (Z.to_nat (seq !!! s))).
  assert (Hn : 0 <= seq !!! s < Z.of_nat n) by (specialize (Hpos s Hs); lia).
  destruct (catchment_spec n s Hs Hn Hpos) as [Hndc Hspec].
  rewrite (catchment_total n s Hs Hn Hpos).
  apply total_perm, fmap_Permutation, NoDup_Permutation; [done|done|].
  intros k. by rewrite Hspec, Hl.
Qed.

End Reach.

Lemma Forall2_series_get_default (out : Series V) (l : list Z) (outs : list V) :
  Forall2 (fun u x => series_get u out = Some x) l outs ->
  outs = (fun u => default vzero (series_get u out)) <$> l.
Proof.
  induction 1 as [|u x l outs Hu _ IH]; [done|].
  by rewrite fmap_cons, Hu, IH.
Qed.

(** X19: on a network without cycle, and for values whose [+] is
    associative and commutative with a zero that [sum()] starts from, the
    value that [accumulate_values] returns for a segment is the sum of the
    values given for the segments that reach it along [to_segnum], the
    segment itself among them. *)
Theorem accumulate_values_catchment stack lines net values :
  NoDup lines.*1 ->
  init stack lines = Ok net ->
  acyclic (END_SEGNUM net) (segments net) ->
  series_index values = index (segments net) ->
  exists out,
    accumulate_values net values = Ok out
    /\ forall s l,
         s ∈ index (segments net) ->
         NoDup l ->
         (forall k, k ∈ l <->
            reaches (index (segments net)) (to_segnum (segments net)) k s) ->
         exists vs,
           Forall2 (fun k v => series_get k values = Some v) l vs
           /\ series_get s out = Some (foldr vadd vzero vs).
Proof using vsum_foldr vadd_comm vadd_assoc vadd_zero.
  intros Hnd Hinit Hacyclic Hvalues.
  destruct (accumulate_values_settled _ _ _ _ Hnd Hinit Hacyclic Hvalues)
    as (out & Hout & Hio & Hset).
  exists out. split; [done|]. intros s l Hs Hndl Hl.
  destruct (init_acyclic _ _ _ Hnd Hinit Hacyclic) as (Hidx & Hrange & _ & Htopo).
  destruct (init_invariant _ _ _ Hnd Hinit)
    as (to & num & hw & st0 & st & Hvalid & Hdef & Helem & Hhw & Hnum & Hinv0
        & Hloop & Hinv & Hn & Hseg & HEND).
  cbv zeta in Htopo, Hrange, Hidx.
  assert (Hto : to_segnum (segments net) = to).
  { rewrite Hseg. apply (inv_to _ _ _ _ _ _ Hinv). }
  rewrite <- Hto, <- Hidx in Hdef, Helem.
  set (val := fun k => default vzero (series_get k values)).
  set (outv := fun k => default vzero (series_get k out)).
  assert (Hlocal : forall s0, s0 ∈ index (segments net) ->
            outv s0 = vadd (val s0)
                        (total (outv <$> upstream_list (upstream_segnums net) s0))).
  { intros s0 Hs0. destruct (Hset s0 Hs0) as (v & outs & Hv & Houts & Hos).
    unfold outv at 1, val. rewrite Hos, Hv. simpl.
    apply Forall2_series_get_default in Houts. fold outv in Houts.
    unfold upstream_list. rewrite <- Houts.
    destruct outs; simpl; [by rewrite vadd_zero|]. by rewrite vsum_foldr. }
  exists (val <$> l). split.
  - apply Forall2_fmap_r, Forall_Forall2_diag, Forall_forall. intros k Hk.
    apply Hl in Hk.
    assert (k ∈ index (segments net)) as Hki by (by destruct Hk).
    rewrite <- Hvalues in Hki. apply series_get_Some in Hki as (v & Hv).
    unfold compose, val. by rewrite Hv.
  - assert (Hs' : s ∈ series_index out) by by rewrite Hio.
    apply series_get_Some in Hs' as (x & Hx). rewrite Hx. f_equal.
    replace x with (outv s) by (unfold outv; by rewrite Hx).
    apply (catchment_sum (index (segments net)) (to_segnum (segments net))
             (upstream_segnums net) (sequence (segments net))); try done.
    + rewrite Hidx. done.
    + intros s0 up Hup. by apply (Helem s0 up Hup).
    + intros u Hu Htu. destruct (Hdef u Hu Htu) as (up & Hup).
      destruct (Htopo _ up Hup) as [_ Hlt]. apply Hlt.
      by apply (Helem _ up Hup).
    + intros u Hu. specialize (Hrange u Hu). lia.
Qed.

End Sums.

End Catchment.

(** * [process_flopy]: the numbers ISEG and IREACH of the reaches *)

Section Reaches.

(** The variables of the loop of lines 601-609, with the columns [iseg] and
    [ireach] of [self.reaches]. *)
Record Numbering := mkNumbering {
  nb_iseg : Z;
  nb_ireach : Z;
  nb_prev_seg : Z;
  col_iseg : Series Z;
  col_ireach : Series Z
}.

(** the body of the loop over [self.reaches.iterrows()]: [row] is the label
    [idx] of a row with its [segnum] *)
Definition number_reach (st : Numbering) (row : Z * Z) : Numbering :=
  let idx := row.1 in
  let segnum := row.2 in
  let changed := negb (segnum =? nb_prev_seg st) in
  let iseg := if changed then nb_iseg st + 1 else nb_iseg st in
  let ireach := if changed then 0 else nb_ireach st in
  let ireach := ireach + 1 in
  mkNumbering iseg ireach segnum
    (series_set idx iseg (col_iseg st)) (series_set idx ireach (col_ireach st)).

(** lines 598-609, on the rows (label, segnum) of the sorted reaches: the
    two columns are created with 0 and filled row by row *)
Definition number_reaches (reaches : Series Z) : Numbering :=
  let zeros := (fun r : Z * Z => (r.1, 0)) <$> reaches in
  foldl number_reach (mkNumbering 0 0 0 zeros zeros) reaches.

(** The pairs (ISEG, IREACH) that the loop computes, row after row. *)
Fixpoint numbers_from (iseg ireach prev_seg : Z) (segnums : list Z) : list (Z * Z) :=
  match segnums with
  | [] => []
  | segnum :: rest =>
      let changed := negb (segnum =? prev_seg) in
      let iseg' := if changed then iseg + 1 else iseg in
      let ireach' := (if changed then 0 else ireach) + 1 in
      (iseg', ireach') :: numbers_from iseg' ireach' segnum rest
  end.

Lemma zero_rows_index (l : list (Z * Z)) :
  ((fun r : Z * Z => (r.1, 0)) <$> l).*1 = l.*1.
Proof. induction l as [|r l IH]; [done|]. rewrite !fmap_cons, IH. done. Qed.

Lemma number_reaches_fold todo :
  forall st d1 d2,
    NoDup (d1.*1 ++ todo.*1) ->
    d2.*1 = d1.*1 ->
    col_iseg st = d1 ++ ((fun r : Z * Z => (r.1, 0)) <$> todo) ->
    col_ireach st = d2 ++ ((fun r : Z * Z => (r.1, 0)) <$> todo) ->
    let st' := foldl number_reach st todo in
    let more := numbers_from (nb_iseg st) (nb_ireach st) (nb_prev_seg st) todo.*2 in
    col_iseg st' = d1 ++ zip todo.*1 more.*1
    /\ col_ireach st' = d2 ++ zip todo.*1 more.*2.
Proof.
  induction todo as [|[idx segnum] todo IH]; intros st d1 d2 Hnd Hd Hi Hr.
  - simpl. by rewrite Hi, Hr.
  - rewrite fmap_cons in Hi. rewrite fmap_cons in Hr. rewrite fmap_cons in Hnd.
    cbn [fst] in Hi, Hr, Hnd.
    set (changed := negb (segnum =? nb_prev_seg st)).
    set (iseg := if changed then nb_iseg st + 1 else nb_iseg st).
    set (ireach := (if changed then 0 else nb_ireach st) + 1).
    assert (Hnd1 : NoDup (series_index
                     (d1 ++ (idx, 0) :: ((fun r : Z * Z => (r.1, 0)) <$> todo)))).
    { unfold series_index. by rewrite fmap_app, fmap_cons, zero_rows_index. }
    assert (Hnd2 : NoDup (series_index
                     (d2 ++ (idx, 0) :: ((fun r : Z * Z => (r.1, 0)) <$> todo)))).
    { unfold series_index. by rewrite fmap_app, fmap_cons, zero_rows_index, Hd. }
    destruct (IH (number_reach st (idx, segnum)) (d1 ++ [(idx, iseg)])
                (d2 ++ [(idx, ireach)])) as [Hi' Hr'].
    + rewrite fmap_app, <- app_assoc. done.
    + by rewrite !fmap_app, Hd.
    + cbn [number_reach col_iseg fst snd]. fold changed iseg.
      rewrite Hi, <- app_assoc. by apply series_set_middle.
    + cbn [number_reach col_ireach fst snd]. fold changed ireach.
      rewrite Hr, <- app_assoc. by apply series_set_middle.
    + cbn [number_reach nb_iseg nb_ireach nb_prev_seg fst snd] in Hi', Hr'.
      fold changed iseg ireach in Hi', Hr'.
      rewrite <- app_assoc in Hi', Hr'. done.
Qed.

(** With labels that are distinct, the columns hold the numbers of
    [numbers_from], started as the loop starts. *)
Lemma number_reaches_columns reaches :
  NoDup (series_index reaches) ->
  let numbers := numbers_from 0 0 0 reaches.*2 in
  col_iseg (number_reaches reaches) = zip reaches.*1 numbers.*1
  /\ col_ireach (number_reaches reaches) = zip reaches.*1 numbers.*2.
Proof.
  intros Hnd. unfold number_reaches.
  by apply (number_reaches_fold reaches
              (mkNumbering 0 0 0 ((fun r : Z * Z => (r.1, 0)) <$> reaches)
                 ((fun r : Z * Z => (r.1, 0)) <$> reaches)) [] []).
Qed.

(** ** Reaches that come segment by segment *)

(** [segnum] of a run of [S n] rows, run after run *)
Definition expand (runs : list (Z * nat)) : list Z :=
  runs ≫= fun r => replicate (S r.2) r.1.

(** the numbers of a run of [n] rows with ISEG [iseg], and of the runs *)
Definition run_numbers (iseg : Z) (n : nat) : list (Z * Z) :=
  (fun j => (iseg, j)) <$> seqZ 1 (Z.of_nat n).
Fixpoint runs_numbers (iseg : Z) (runs : list (Z * nat)) : list (Z * Z) :=
  match runs with
  | [] => []
  | r :: rs => run_numbers iseg (S r.2) ++ runs_numbers (iseg + 1) rs
  end.

(** each run is of another segment than the run before it *)
Fixpoint runs_change (prev_seg : Z) (runs : list (Z * nat)) : Prop :=
  match runs with
  | [] => True
  | r :: rs => r.1 <> prev_seg /\ runs_change r.1 rs
  end.

Lemma seqZ_succ_fmap {A} (f : Z -> A) (n : nat) :
  f <$> seqZ 1 (Z.of_nat (S n))
  = f 1 :: ((fun j => f (1 + j)) <$> seqZ 1 (Z.of_nat n)).
Proof.
  rewrite Nat2Z.inj_succ, seqZ_cons by lia. rewrite Z.pred_succ, fmap_cons.
  f_equal. change (Z.succ 1) with (1 + 1).
  by rewrite <- (fmap_add_seqZ 1 1), <- list_fmap_compose.
Qed.

Lemma numbers_same_run iseg s rest n :
  forall ireach,
    numbers_from iseg ireach s (replicate n s ++ rest)
    = ((fun j => (iseg, ireach + j)) <$> seqZ 1 (Z.of_nat n))
      ++ numbers_from iseg (ireach + Z.of_nat n) s rest.
Proof.
  induction n as [|n IH]; intros ireach.
  - simpl. by rewrite Z.add_0_r.
  - rewrite seqZ_succ_fmap. simpl. rewrite Z.eqb_refl. simpl.
    f_equal. rewrite IH.
    replace (ireach + 1 + Z.of_nat n) with (ireach + Z.pos (Pos.of_succ_nat n)) by lia.
    f_equal. apply list_fmap_ext. intros _ j _. f_equal. lia.
Qed.

Lemma numbers_first_run iseg s n rest :
  numbers_from iseg 1 s (replicate n s ++ rest)
  = ((fun j => (iseg, 1 + j)) <$> seqZ 1 (Z.of_nat n))
    ++ numbers_from iseg (1 + Z.of_nat n) s rest.
Proof. apply numbers_same_run. Qed.

Lemma numbers_runs runs :
  forall iseg ireach prev_seg,
    runs_change prev_seg runs ->
    numbers_from iseg ireach prev_seg (expand runs) = runs_numbers (iseg + 1) runs.
Proof.
  induction runs as [|[s n] runs IH]; intros iseg ireach prev_seg Hch; [done|].
  destruct Hch as [Hne Hch]. simpl in Hne, Hch.
  unfold expand. simpl. fold (expand runs).
  replace (s =? prev_seg) with false by (symmetry; by apply Z.eqb_neq). simpl.
  rewrite numbers_first_run, (IH _ _ _ Hch).
  unfold run_numbers. by rewrite seqZ_succ_fmap.
Qed.

(** X15: when the rows of the reaches come run by run, each run of another
    segment than the one before and the first of a segment other than 0,
    the loop numbers the runs 1, 2, ... in ISEG and the rows of each run
    1, 2, ... in IREACH. *)
Theorem number_reaches_runs reaches runs :
  NoDup (series_index reaches) ->
  reaches.*2 = expand runs ->
  runs_change 0 runs ->
  col_iseg (number_reaches reaches) = zip reaches.*1 (runs_numbers 1 runs).*1
  /\ col_ireach (number_reaches reaches) = zip reaches.*1 (runs_numbers 1 runs).*2.
Proof.
  intros Hnd Hruns Hch.
  destruct (number_reaches_columns reaches Hnd) as [Hi Hr].
  cbv zeta in Hi, Hr. rewrite Hruns, (numbers_runs _ 0 0 0 Hch) in Hi, Hr.
  done.
Qed.

(** X16: when the first run is of segment 0, the value that [prev_seg]
    starts with, the loop does not count it: its rows have ISEG 0, and the
    runs after it are numbered from 1. *)
Theorem number_reaches_first_zero reaches n runs :
  NoDup (series_index reaches) ->
  reaches.*2 = expand ((0, n) :: runs) ->
  runs_change 0 runs ->
  col_iseg (number_reaches reaches)
    = zip reaches.*1 (runs_numbers 0 ((0, n) :: runs)).*1
  /\ col_ireach (number_reaches reaches)
     = zip reaches.*1 (runs_numbers 0 ((0, n) :: runs)).*2.
Proof.
  intros Hnd Hruns Hch.
  destruct (number_reaches_columns reaches Hnd) as [Hi Hr].
  cbv zeta in Hi, Hr. rewrite Hruns in Hi, Hr.
  assert (Hnum : numbers_from 0 0 0 (expand ((0, n) :: runs))
                 = runs_numbers 0 ((0, n) :: runs)).
  { unfold expand. simpl. fold (expand runs).
    rewrite numbers_first_run, (numbers_runs _ _ _ _ Hch).
    unfold run_numbers. by rewrite seqZ_succ_fmap. }
  by rewrite Hnum in Hi, Hr.
Qed.

End Reaches.

(** * [util.abbr_str] *)

Module Util.
Import Stdlib.Strings.String.

(** The argument of [abbr_str], by the two tests [isinstance(lst, list)] and
    [isinstance(lst, set)]; a set is given by [list(lst)], its elements in
    the order in which the set lists them. *)
Inductive Arg (A : Type) :=
  | ArgList (lst : list A)
  | ArgSet (elems : list A)
  | ArgOther.
Arguments ArgList {A} lst.
Arguments ArgSet {A} elems.
Arguments ArgOther {A}.

Inductive outcome (A : Type) :=
  | Returns (a : A)
  | RaisesTypeError.
Arguments Returns {A} a.
Arguments RaisesTypeError {A}.

(** the slices [lst[:stop]] and [lst[start:]] *)
Definition slice_to {A} (stop : Z) (lst : list A) : list A :=
  if stop <? 0 then take (Z.to_nat (Z.of_nat (List.length lst) + stop)) lst
  else take (Z.to_nat stop) lst.
Definition slice_from {A} (start : Z) (lst : list A) : list A :=
  if start <? 0 then drop (Z.to_nat (Z.of_nat (List.length lst) + start)) lst
  else drop (Z.to_nat start) lst.

(** the strings that [', '.join] receives *)
Definition abbr_items {A} (str : A -> string) (lst : list A) (limit : Z)
    : list string :=
  if Z.of_nat (List.length lst) <=? limit then str <$> lst
  else
    let left := limit / 2 in
    let right := left in
    let left := if left + right =? limit then left else left + 1 in
    (str <$> slice_to left lst) ++ ["..."%string]
      ++ (str <$> slice_from (- right) lst).

Definition abbr_str {A} (str : A -> string) (lst : Arg A) (limit : Z)
    : outcome string :=
  match lst with
  | ArgList l =>
      Returns ("[" ++ concat ", " (abbr_items str l limit) ++ "]")%string
  | ArgSet l =>
      Returns ("{" ++ concat ", " (abbr_items str l limit) ++ "}")%string
  | ArgOther => RaisesTypeError
  end.

Lemma abbr_items_long {A} (str : A -> string) (lst : list A) (limit : Z) :
  2 <= limit < Z.of_nat (List.length lst) ->
  abbr_items str lst limit
  = (str <$> take (Z.to_nat ((limit + 1) / 2)) lst) ++ ["..."%string]
      ++ (str <$> drop (List.length lst - Z.to_nat (limit / 2)) lst).
Proof.
  intros [Hlo Hhi]. unfold abbr_items.
  destruct (Z.leb_spec (Z.of_nat (List.length lst)) limit) as [|_]; [lia|].
  pose proof (Z.div_mod limit 2 ltac:(lia)) as Hdm.
  pose proof (Z.mod_pos_bound limit 2 ltac:(lia)) as Hb.
  assert (Hleft : (if limit / 2 + limit / 2 =? limit then limit / 2
                   else limit / 2 + 1) = (limit + 1) / 2).
  { destruct (Z.eqb_spec (limit / 2 + limit / 2) limit) as [He|Hne].
    - apply Z.div_unique with (r := 1); lia.
    - apply Z.div_unique with (r := 0); lia. }
  rewrite Hleft.
  assert (H1 : 1 <= limit / 2) by (apply Z.div_le_lower_bound; lia).
  assert (H2 : 1 <= (limit + 1) / 2) by (apply Z.div_le_lower_bound; lia).
  unfold slice_to, slice_from.
  destruct (Z.ltb_spec ((limit + 1) / 2) 0) as [|_]; [lia|].
  destruct (Z.ltb_spec (- (limit / 2)) 0) as [_|]; [|lia].
  by replace (Z.to_nat (Z.of_nat (List.length lst) + - (limit / 2)))
    with (List.length lst - Z.to_nat (limit / 2))%nat by lia.
Qed.

(** X17: a list or set of more elements than a [limit] of two or more is
    shown by [limit] of its elements: the first half of them, rounded up,
    then ['...'], then the last half, rounded down; a list between brackets
    and a set between braces. *)
Theorem abbr_str_halves {A} (str : A -> string) (lst : list A) (limit : Z) :
  2 <= limit < Z.of_nat (List.length lst) ->
  let first := take (Z.to_nat ((limit + 1) / 2)) lst in
  let last := drop (List.length lst - Z.to_nat (limit / 2)) lst in
  let items := (str <$> first) ++ ["..."%string] ++ (str <$> last) in
  abbr_str str (ArgList lst) limit
    = Returns ("[" ++ concat ", " items ++ "]")%string
  /\ abbr_str str (ArgSet lst) limit
     = Returns ("{" ++ concat ", " items ++ "}")%string
  /\ Z.of_nat (List.length first + List.length last) = limit.
Proof.
  intros Hlim first last items. unfold abbr_str.
  rewrite (abbr_items_long _ _ _ Hlim). split_and!; [done|done|].
  unfold first, last. rewrite length_take, length_drop.
  pose proof (Z.div_mod limit 2 ltac:(lia)) as Hdm.
  pose proof (Z.mod_pos_bound limit 2 ltac:(lia)) as Hb.
  assert (H1 : 1 <= limit / 2) by (apply Z.div_le_lower_bound; lia).
  assert (H2 : 1 <= (limit + 1) / 2) by (apply Z.div_le_lower_bound; lia).
  assert (H3 : (limit + 1) / 2 + limit / 2 = limit).
  { assert (limit mod 2 = 0 \/ limit mod 2 = 1) as [He|He] by lia.
    - assert (limit / 2 = (limit + 1) / 2); [|lia].
      apply Z.div_unique with (r := 1); lia.
    - assert (limit / 2 + 1 = (limit + 1) / 2); [|lia].
      apply Z.div_unique with (r := 0); lia. }
  lia.
Qed.

(** X18: with a [limit] of 0 or 1 the slice [lst[-right:]] is [lst[-0:]],
    the whole list: a list of more elements than [limit] is shown by its
    first [limit] elements, ['...'], and then every element. *)
Theorem abbr_str_whole {A} (str : A -> string) (lst : list A) (limit : Z) :
  0 <= limit <= 1 -> limit < Z.of_nat (List.length lst) ->
  let items := (str <$> take (Z.to_nat limit) lst) ++ ["..."%string]
                 ++ (str <$> lst) in
  abbr_str str (ArgList lst) limit
    = Returns ("[" ++ concat ", " items ++ "]")%string
  /\ abbr_str str (ArgSet lst) limit
     = Returns ("{" ++ concat ", " items ++ "}")%string.
Proof.
  intros Hlim Hlen items. unfold abbr_str, abbr_items.
  destruct (Z.leb_spec (Z.of_nat (List.length lst)) limit) as [|_]; [lia|].
  assert (limit = 0 \/ limit = 1) as [->| ->] by lia; done.
Qed.

(** [str] of an integer between 0 and 9 *)
Definition digit (n : Z) : string :=
  String (Ascii.ascii_of_nat (48 + Z.to_nat n)) EmptyString.

Lemma abbr_str_halves_witness :
  let first := take (Z.to_nat ((3 + 1) / 2)) [1; 2; 3; 4; 5] in
  let last := drop (List.length [1; 2; 3; 4; 5] - Z.to_nat (3 / 2)) [1; 2; 3; 4; 5] in
  let items := (digit <$> first) ++ ["..."%string] ++ (digit <$> last) in
  abbr_str digit (ArgList [1; 2; 3; 4; 5]) 3
    = Returns ("[" ++ concat ", " items ++ "]")%string
  /\ abbr_str digit (ArgSet [1; 2; 3; 4; 5]) 3
     = Returns ("{" ++ concat ", " items ++ "}")%string
  /\ Z.of_nat (List.length first + List.length last) = 3.
Proof.
  apply (abbr_str_halves digit [1; 2; 3; 4; 5] 3). simpl. lia.
Defined.

Lemma abbr_str_whole_witness :
  let items := (digit <$> take (Z.to_nat 1) [1; 2; 3]) ++ ["..."%string]
                 ++ (digit <$> [1; 2; 3]) in
  abbr_str digit (ArgList [1; 2; 3]) 1
    = Returns ("[" ++ concat ", " items ++ "]")%string
  /\ abbr_str digit (ArgSet [1; 2; 3]) 1
     = Returns ("{" ++ concat ", " items ++ "}")%string.
Proof.
  apply (abbr_str_whole digit [1; 2; 3] 1); simpl; lia.
Defined.

End Util.

(** * The stream order along [to_segnum] *)

Section StreamOrder.
Context {H : Host}.

Lemma stream_order_of_ge l o x :
  stream_order_of l = Ok o -> x ∈ l -> x <= o.
Proof.
  unfold stream_order_of. destruct l as [|y l]; [done|]. intros Ho Hx.
  apply zmax_list_ge in Hx. simpl in Hx.
  destruct (1 <? _); injection Ho as <-; lia.
Qed.

Lemma stream_order_of_elem l o :
  stream_order_of l = Ok o -> exists x, x ∈ l.
Proof.
  unfold stream_order_of. destruct l as [|y l]; [done|].
  intros _. exists y. by left.
Qed.

(** X20: the stream order does not decrease downstream.  A segment with a
    sequence number that another segment drains to has a stream order at
    least that of the other, which has a sequence number too and a stream
    order of 1 or more. *)
Theorem stream_order_downstream stack lines net u :
  NoDup lines.*1 -> init stack lines = Ok net ->
  let seg := segments net in
  let s := to_segnum seg !!! u in
  u ∈ index seg -> s ∈ index seg -> 0 < sequence seg !!! s ->
  0 < sequence seg !!! u < sequence seg !!! s
  /\ 1 <= stream_order seg !!! u <= stream_order seg !!! s.
Proof.
  intros Hnd Hinit seg s. subst seg s.
  destruct (init_invariant _ _ _ Hnd Hinit)
    as (to & num & hw & st0 & st & Hvalid & Hdef & Helem & Hhw & Hnum & Hinv0
        & Hloop & Hinv & Hn & Hseg & HEND).
  rewrite Hseg, (inv_index _ _ _ _ _ _ Hinv), (inv_to _ _ _ _ _ _ Hinv).
  set (idx := lines.*1) in *.
  intros Hu Hs Hpos.
  assert (Hdone : forall k, k ∈ idx -> 0 < sequence (ss_segments st) !!! k ->
                    k ∈ ss_completed st).
  { intros k Hk Hp. destruct (decide (k ∈ ss_completed st)) as [|Hnot]; [done|].
    destruct (inv_zero _ _ _ _ _ _ Hinv k Hk Hnot). lia. }
  assert (Hone : forall n k, k ∈ ss_completed st ->
                   sequence (ss_segments st) !!! k < Z.of_nat n ->
                   1 <= stream_order (ss_segments st) !!! k).
  { induction n as [|n IH]; intros k Hk Hlt.
    - pose proof (inv_range _ _ _ _ _ _ Hinv k Hk). lia.
    - destruct (decide (k ∈ hw)) as [Hh|Hh].
      + by rewrite (inv_hw_order _ _ _ _ _ _ Hinv k Hh).
      + destruct (inv_order _ _ _ _ _ _ Hinv k Hk Hh) as (up & Hup & Hord).
        destruct (stream_order_of_elem _ _ Hord) as (x & Hx).
        pose proof (stream_order_of_ge _ _ _ Hord Hx) as Hle.
        apply list_elem_of_fmap in Hx as (u' & -> & Hu'%list_of_set_elem).
        destruct (Helem k up Hup) as [Hki Hmem].
        apply Hmem in Hu' as [Hui Hto].
        destruct (inv_topo _ _ _ _ _ _ Hinv k u' Hk Hui Hto) as [Hc Hlt'].
        specialize (IH u' Hc ltac:(lia)). lia. }
  pose proof (Hdone _ Hs Hpos) as Hsc.
  destruct (inv_topo _ _ _ _ _ _ Hinv _ u Hsc Hu eq_refl) as [Huc Hlt].
  pose proof (inv_range _ _ _ _ _ _ Hinv u Huc) as Hr.
  split; [lia|]. split.
  - apply (Hone (Z.to_nat (sequence (ss_segments st) !!! u + 1)) u Huc). lia.
  - assert (Hnh : to !!! u ∉ hw).
    { intros [_ Hh]%Hhw. by apply (Hh u Hu). }
    destruct (inv_order _ _ _ _ _ _ Hinv _ Hsc Hnh) as (up & Hup & Hord).
    apply (stream_order_of_ge _ _ _ Hord). apply list_elem_of_fmap.
    exists u. split; [done|]. apply list_of_set_elem.
    by apply (Helem _ up Hup).
Qed.

End StreamOrder.

(** * The messages of the connectivity pass *)

Section ConnectivityMessages.
Context {H : Host}.

(** the second and the third test of [connect_step], each with the tests
    before it failed *)
Definition matches_2d (segnum1 : Z) (end1_coord : Coord F)
    (row2 : Z * LineString F) : bool :=
  negb (segnum1 =? row2.1)
  && negb (coord_eqb end1_coord (coords_start row2.2))
  && xy_eqb (coord_xy end1_coord) (coord_xy (coords_start row2.2)).

Definition touches_middle (segnum1 : Z) (end1_coord : Coord F)
    (row2 : Z * LineString F) : bool :=
  negb (segnum1 =? row2.1)
  && negb (coord_eqb end1_coord (coords_start row2.2))
  && negb (xy_eqb (coord_xy end1_coord) (coord_xy (coords_start row2.2)))
  && (flt (geom_distance row2.2 end1_coord) ftol
      && flt ftol (point_distance (coords_end row2.2) end1_coord)).

Definition warnings_of (sub : list (Z * LineString F)) (segnum1 : Z)
    (end1_coord : Coord F) : list (Message F) :=
  (fun r : Z * LineString F => EndMatchesStart2D segnum1 r.1)
    <$> filter (fun r => matches_2d segnum1 end1_coord r) sub.

Definition errors_of (sub : list (Z * LineString F)) (segnum1 : Z)
    (end1_coord : Coord F) : list (Message F) :=
  (fun r : Z * LineString F => ConnectsToMiddle segnum1 r.1)
    <$> filter (fun r => touches_middle segnum1 end1_coord r) sub.

Lemma connect_step_snd segnum1 end1_coord acc row2 :
  (connect_step segnum1 end1_coord acc row2).1.2
  = acc.1.2 ++ (if matches_2d segnum1 end1_coord row2
                then [EndMatchesStart2D segnum1 row2.1] else [])
  /\ (connect_step segnum1 end1_coord acc row2).2
     = acc.2 ++ (if touches_middle segnum1 end1_coord row2
                 then [ConnectsToMiddle segnum1 row2.1] else []).
Proof.
  destruct acc as [[ts ws] es]. unfold connect_step, matches_2d, touches_middle.
  destruct (segnum1 =? row2.1); simpl; [by rewrite !app_nil_r|].
  destruct (coord_eqb _ _); simpl; [by rewrite !app_nil_r|].
  destruct (xy_eqb _ _); simpl; [by rewrite !app_nil_r|].
  destruct (_ && _); simpl; by rewrite !app_nil_r.
Qed.

Lemma connect_step_messages segnum1 end1_coord sub :
  forall acc,
    (foldl (connect_step segnum1 end1_coord) acc sub).1.2
    = acc.1.2 ++ warnings_of sub segnum1 end1_coord
    /\ (foldl (connect_step segnum1 end1_coord) acc sub).2
       = acc.2 ++ errors_of sub segnum1 end1_coord.
Proof.
  unfold warnings_of, errors_of.
  induction sub as [|row2 sub IH]; intros acc.
  - simpl. by rewrite !app_nil_r.
  - cbn [foldl]. destruct (IH (connect_step segnum1 end1_coord acc row2))
      as [-> ->]. clear IH.
    destruct (connect_step_snd segnum1 end1_coord acc row2) as [-> ->].
    rewrite !filter_cons. split.
    + destruct (matches_2d segnum1 end1_coord row2) eqn:E.
      * rewrite decide_True by done. by rewrite <- app_assoc.
      * rewrite decide_False by (by intros []). by rewrite app_nil_r.
    + destruct (touches_middle segnum1 end1_coord row2) eqn:E.
      * rewrite decide_True by done. by rewrite <- app_assoc.
      * rewrite decide_False by (by intros []). by rewrite app_nil_r.
Qed.

(** the messages of the connectivity pass, segment after segment *)
Lemma connect_all_messages sindex rows :
  forall seg warns errs seg' warns' errs',
    foldl (connect_segment sindex) (seg, warns, errs) rows = (seg', warns', errs') ->
    warns' = warns ++ (rows ≫= fun row1 =>
               warnings_of (candidates seg sindex (coords_end row1.2))
                 row1.1 (coords_end row1.2))
    /\ forall a b,
         ConnectsToMiddle a b ∈ errs'
         <-> ConnectsToMiddle a b ∈ errs
             \/ exists row1, row1 ∈ rows
                  /\ ConnectsToMiddle a b
                     ∈ errors_of (candidates seg sindex (coords_end row1.2))
                         row1.1 (coords_end row1.2).
Proof.
  induction rows as [|row1 rows IH]; intros seg warns errs seg' warns' errs' Hfold.
  - injection Hfold as <- <- <-. split; [by rewrite app_nil_r|].
    intros a b. split; [by left|]. by intros [|(r & ?%elem_of_nil & _)].
  - cbn [foldl] in Hfold.
    destruct (connect_segment sindex (seg, warns, errs) row1)
      as [[seg1 warns1] errs1] eqn:Hseg.
    destruct (connect_segment_spec _ _ _ _ _ _ _ _ Hseg) as (Hg & _).
    assert (Hcand : forall c, candidates seg1 sindex c = candidates seg sindex c).
    { intros c. by apply candidates_geometry. }
    destruct (IH _ _ _ _ _ _ Hfold) as [-> Herr]. clear IH Hg.
    unfold connect_segment in Hseg.
    pose proof (connect_step_messages row1.1 (coords_end row1.2)
                  (candidates seg sindex (coords_end row1.2)) ([], warns, errs))
      as [Hw He].
    destruct (foldl _ _ _) as [[ms ws] es]. simpl in Hw, He.
    injection Hseg as Hs1 <- <-. subst ws es. clear Hs1.
    split.
    + change ((row1 :: rows) ≫= ?f) with (f row1 ++ (rows ≫= f)).
      rewrite <- !app_assoc. f_equal. f_equal.
      apply list_bind_ext; [|done]. intros r. by rewrite Hcand.
    + intros a b. rewrite Herr. split.
      * intros [Hin|(r & Hr & Hin)].
        -- destruct (1 <? _).
           ++ apply elem_of_app in Hin as [Hin|Hin%list_elem_of_singleton]; [|done].
              apply elem_of_app in Hin as [Hin|Hin]; [by left|].
              right. exists row1. split; [by left|done].
           ++ apply elem_of_app in Hin as [Hin|Hin]; [by left|].
              right. exists row1. split; [by left|done].
        -- right. exists r. split; [by right|]. by rewrite <- Hcand.
      * intros [Hin|(r & [->|Hr]%elem_of_cons & Hin)].
        -- left. destruct (1 <? _); rewrite ?elem_of_app; tauto.
        -- left. destruct (1 <? _); rewrite ?elem_of_app; tauto.
        -- right. exists r. split; [done|]. by rewrite Hcand.
Qed.

Definition is_common_warning (m : Message F) : bool :=
  match m with
  | StartMatchesStart2D _ _ | EndMatchesEnd2D _ _ => true
  | _ => false
  end.

(** [common_locations] keeps the warnings it is given and adds warnings of
    its own kind only *)
Lemma common_locations_warnings pick warn seg sindex labels warns m :
  (forall a b, is_common_warning (warn a b) = true) ->
  is_common_warning m = false ->
  m ∈ (common_locations pick warn seg sindex labels warns).2 <-> m ∈ warns.
Proof.
  intros Hwarn Hm. unfold common_locations.
  assert (Hstep : forall segnum1 c sub acc,
            m ∈ (foldl (common_step pick warn segnum1 c) acc sub).2 <-> m ∈ acc.2).
  { intros segnum1 c sub. induction sub as [|row2 sub IH]; intros acc; [done|].
    simpl. rewrite IH. destruct acc as [d ws]. unfold common_step. simpl.
    destruct (segnum1 =? row2.1); [done|].
    destruct (coord_eqb _ _); [done|].
    destruct (xy_eqb _ _); [|done].
    simpl. rewrite elem_of_app, list_elem_of_singleton. split; [|by left].
    intros [Hin | ->]; [done|]. by rewrite Hwarn in Hm. }
  generalize (rows_at seg labels). intros rows.
  generalize (@nil (F * F * gset Z)). revert warns.
  induction rows as [|row1 rows IH]; intros warns d; [done|].
  simpl.
  pose proof (Hstep row1.1 (pick row1.2) (candidates seg sindex (pick row1.2))
                (d, warns)) as Hw.
  destruct (foldl (common_step _ _ _ _) _ _) as [d' ws']. by rewrite IH.
Qed.

(** X21: the diagnostics of the connectivity pass.  A warning
    [EndMatchesStart2D a b] is in the warnings of the network exactly when
    segment [b] is among the rows scanned for [a], is another segment, and
    starts at the x and y of the end of [a] with a coordinate tuple that is
    not equal to it.  An error [ConnectsToMiddle a b] is in the errors exactly
    when [b] is such a row that matches in neither way, passes within 1e-6 of
    the end of [a], and ends farther than 1e-6 from it. *)
Theorem connectivity_diagnostics stack lines net a b :
  NoDup lines.*1 -> init stack lines = Ok net ->
  let sub := candidates (segments net) (sindex_sub lines) in
  (EndMatchesStart2D a b ∈ warnings net
   <-> exists g g2, (a, g) ∈ lines /\ (b, g2) ∈ sub (coords_end g)
         /\ matches_2d a (coords_end g) (b, g2) = true)
  /\ (ConnectsToMiddle a b ∈ errors net
      <-> exists g g2, (a, g) ∈ lines /\ (b, g2) ∈ sub (coords_end g)
            /\ touches_middle a (coords_end g) (b, g2) = true).
Proof.
  intros Hnd Hinit sub. subst sub.
  destruct (init_table _ _ _ Hinit)
    as (seg_c & warns & errs & seg_t & Hne & Hconn & Htrav & HEND & Hcols & Hg & Ht & _).
  destruct (init_messages _ _ _ Hinit)
    as (seg_c' & warns' & errs' & seg_t' & Hconn' & Htrav' & Hmsg).
  rewrite Hconn in Hconn'. injection Hconn' as <- <- <-.
  rewrite Htrav in Htrav'. injection Htrav' as <-.
  cbv zeta in Hmsg. destruct Hmsg as [Herr Hwarn].
  destruct Hcols as (Hg' & _).
  destruct (connect_all_graph _ _ _ _ _ Hnd Hconn) as (Hgc & _).
  assert (Hsub : forall c, candidates (segments net) (sindex_sub lines) c
                   = candidates (initial_segments lines (end_segnum lines.*1))
                       (sindex_sub lines) c).
  { intros c. apply candidates_geometry. simpl. by rewrite Hg', Hg, Hgc. }
  unfold connect_all in Hconn. simpl in Hconn.
  destruct (connect_all_messages _ _ _ _ _ _ _ _ Hconn) as [Hw He].
  simpl in Hw. split.
  - rewrite Hwarn, elem_of_app.
    rewrite (common_locations_warnings coords_end EndMatchesEnd2D) by done.
    rewrite (common_locations_warnings coords_start StartMatchesStart2D) by done.
    rewrite Hw, list_elem_of_bind. split.
    + intros [([a' g] & Hin & Hrow)|Hin].
      * unfold warnings_of in Hin. simpl in Hin.
        apply list_elem_of_fmap in Hin as ([b' g2] & [= <- <-] & Hf).
        apply list_elem_of_filter in Hf as [Hm Hsubm].
        exists g, g2. rewrite Hsub. split_and!; [done|done|]. by apply Is_true_true.
      * by apply list_elem_of_fmap in Hin as (e & ? & _).
    + intros (g & g2 & Hin & Hsubm & Hm). left. exists (a, g). split; [|done].
      unfold warnings_of. simpl. apply list_elem_of_fmap. exists (b, g2).
      split; [done|]. apply list_elem_of_filter. rewrite <- Hsub.
      split; [by apply Is_true_true|done].
  - rewrite Herr, elem_of_app, He. split.
    + intros [[?%elem_of_nil|([a' g] & Hrow & Hin)]|Hin]; [done| |].
      * unfold errors_of in Hin. simpl in Hin.
        apply list_elem_of_fmap in Hin as ([b' g2] & [= <- <-] & Hf).
        apply list_elem_of_filter in Hf as [Hm Hsubm].
        exists g, g2. rewrite Hsub. split_and!; [done|done|]. by apply Is_true_true.
      * by apply list_elem_of_fmap in Hin as (e & ? & _).
    + intros (g & g2 & Hin & Hsubm & Hm). left. right. exists (a, g).
      split; [done|]. unfold errors_of. simpl. apply list_elem_of_fmap.
      exists (b, g2). split; [done|]. apply list_elem_of_filter. rewrite <- Hsub.
      split; [by apply Is_true_true|done].
Qed.

End ConnectivityMessages.

(** * Concrete networks on [PyHost.pyhost] *)

#[local] Existing Instance PyHost.pyhost.

Definition pt3 (x y z : float) : Coord float := Coord3 x y z.
Definition line2 (x0 y0 x1 y1 : float) : LineString float :=
  mkLineString (Coord2 x0 y0) [Coord2 x1 y1].
Arguments pt3 (x y z)%_float.
Arguments line2 (x0 y0 x1 y1)%_float.

(** Segment 1 ends where segments 2 and 3 both start. *)
Definition fork_network : list (Z * LineString float) :=
  [(1, line2 0 1 1 1); (2, line2 1 1 2 2); (3, line2 1 1 2 0)].

(** A line from (0,0,10) by (100,0,9.99) to (200,0,5), and a second line
    that is steep enough. *)
Definition profile_network : list (Z * LineString float) :=
  [(1, mkLineString (pt3 0 0 10) [pt3 100 0 0x1.3fae147ae147bp+3; pt3 200 0 5]);
   (2, mkLineString (pt3 200 0 5) [pt3 300 0 1])].


(** the table of a network as [init] builds it, without the passes that
    need no geometry *)
Definition table_of (lines : list (Z * LineString float)) : SurfaceWaterNetwork (H := PyHost.pyhost) :=
  mkNetwork (initial_segments lines 0) 0 ∅ [] [] [] [].

Lemma connectivity_pass_witness :
  NoDup fork_network.*1
  /\ forall segnum1 geom1, (segnum1, geom1) ∈ fork_network ->
       let r := connect_all (H := PyHost.pyhost)
                  (sindex_sub fork_network) (initial_segments fork_network 0) in
       let ms := downstream_matches segnum1 (coords_end geom1)
                   (candidates (initial_segments fork_network 0)
                      (sindex_sub fork_network) (coords_end geom1)) in
       NoDup ms
       /\ (ms = [] -> to_segnum r.1.1 !!! segnum1 = 0)
       /\ (forall t, ms = [t] -> to_segnum r.1.1 !!! segnum1 = t)
       /\ ((1 < length ms)%nat ->
           MoreThanOneDownstream segnum1 ms ∈ r.2
           /\ head ms = Some (to_segnum r.1.1 !!! segnum1)).
Proof.
  assert (Hnd : NoDup fork_network.*1).
  { compute_done. }
  split; [exact Hnd|]. intros segnum1 geom1 Hin r.
  apply (connectivity_pass (H := PyHost.pyhost) fork_network 0 r.1.1 r.1.2 r.2 Hnd);
    [subst r; by destruct (connect_all _ _) as [[? ?] ?]|exact Hin].
Defined.

(** the default [min_slope], 1./1000 *)
Definition default_slope : float := 0x1.0624dd2f1a9fcp-10%float.
Definition default_min_slope : MinSlope (H := PyHost.pyhost) :=
  GlobalSlope (H := PyHost.pyhost) default_slope.

(** membership in a list that is written out *)
Ltac elem_cases H :=
  repeat (apply elem_of_cons in H as [->|H]); [..|by apply elem_of_nil in H].

Lemma adjust_elevation_profile_enforces_witness :
  exists net',
    adjust_elevation_profile (table_of profile_network)
      default_min_slope = Ok net'
    /\ index (segments net') = index (segments (table_of profile_network))
    /\ forall k g, (k, g) ∈ geometry (segments (table_of profile_network)) ->
         exists m g',
           series_get k [(1, default_slope); (2, default_slope)] = Some m
           /\ series_get k (geometry (segments net')) = Some g'
           /\ enforces_min_slope m g g'
           /\ (meets_min_slope m g ->
                 g' = g /\ forall n, AdjustingElevations n k ∉ messages net').
Proof.
  apply (adjust_elevation_profile_enforces (H := PyHost.pyhost)
           (table_of profile_network) default_min_slope).
  - compute_done.
  - reflexivity.
  - intros r Hr. elem_cases Hr; by vm_compute.
  - intros r Hr. elem_cases Hr; by vm_compute.
  - intros r Hr. apply runs_nonzerob_spec. elem_cases Hr; by vm_compute.
Defined.


(** Segments 1 and 2 meet where segment 3 starts. *)
Definition confluence_network : list (Z * LineString float) :=
  [(1, line2 0 2 1 1); (2, line2 2 2 1 1); (3, line2 1 1 1 0)].

(** Five segments in a row, each ending where the next starts. *)
Definition chain_network : list (Z * LineString float) :=
  [(1, line2 0 0 1 0); (2, line2 1 0 2 0); (3, line2 2 0 3 0);
   (4, line2 3 0 4 0); (5, line2 4 0 5 0)].

(** Segments 1 and 2 each end where the other starts; segment 3 is apart
    from both. *)
Definition cycle_network : list (Z * LineString float) :=
  [(1, line2 0 0 1 0); (2, line2 1 0 0 0); (3, line2 5 5 6 6)].

(** the network [init] returns, for a construction that returns *)
Definition constructed (stack : nat) (lines : list (Z * LineString float))
    : SurfaceWaterNetwork (H := PyHost.pyhost) :=
  match init stack lines with
  | Ok net => net
  | Raise _ => table_of lines
  end.

Definition confluence_built : SurfaceWaterNetwork (H := PyHost.pyhost) :=
  constructed 10 confluence_network.
Definition chain_built : SurfaceWaterNetwork (H := PyHost.pyhost) :=
  constructed 10 chain_network.
Definition cycle_built : SurfaceWaterNetwork (H := PyHost.pyhost) :=
  constructed 10 cycle_network.

(** one unit on each of the segments 1, 2 and 3 *)
Definition unit_values : Series Z := [(1, 1); (2, 1); (3, 1)].
(** the same, with the labels 1 and 2 in the other order *)
Definition swapped_values : Series Z := [(2, 1); (1, 1); (3, 1)].

Lemma sequence_topological_permutation_witness :
  (fun k => sequence (segments confluence_built) !!! k)
      <$> index (segments confluence_built)
    ≡ₚ seqZ 1 (Z.of_nat (length (index (segments confluence_built))))
  /\ forall s up u,
       upstream_segnums confluence_built !! s = Some up -> u ∈ up ->
       sequence (segments confluence_built) !!! s
       > sequence (segments confluence_built) !!! u.
Proof.
  apply (sequence_topological_permutation (H := PyHost.pyhost)
           10 confluence_network confluence_built).
  - compute_done.
  - by vm_compute.
  - apply acyclicb_spec. by vm_compute.
Defined.

Lemma stream_order_confluence_witness :
  exists up max_ord,
    upstream_segnums confluence_built !! 3 = Some up
    /\ (exists u, u ∈ up
                  /\ stream_order (segments confluence_built) !!! u = max_ord)
    /\ (forall u, u ∈ up ->
          stream_order (segments confluence_built) !!! u <= max_ord)
    /\ let attain :=
         length (filter (fun u => stream_order (segments confluence_built) !!! u
                                  = max_ord)
                        (list_of_set up)) in
       (attain = 1%nat ->
        stream_order (segments confluence_built) !!! 3 = max_ord)
       /\ ((2 <= attain)%nat ->
           stream_order (segments confluence_built) !!! 3 = max_ord + 1).
Proof.
  apply (stream_order_confluence (H := PyHost.pyhost)
           10 confluence_network confluence_built 3).
  - compute_done.
  - by vm_compute.
  - compute_done.
  - compute_done.
  - by vm_compute.
Defined.

Lemma headwater_order_outlet_number_witness :
  (forall h, h ∈ headwater (segments chain_built) ->
     stream_order (segments chain_built) !!! h = 1)
  /\ (forall k, k ∈ index (segments chain_built) ->
        num_to_outlet (segments chain_built) !!! k = 1
        <-> to_segnum (segments chain_built) !!! k = END_SEGNUM chain_built).
Proof.
  apply (headwater_order_outlet_number (H := PyHost.pyhost)
           10 chain_network chain_built).
  - compute_done.
  - by vm_compute.
Defined.

(** C7 fails on the chain: its headwater, segment 1, is five segments away
    from the outlet and [num_to_outlet] says so. *)
Lemma headwater_num_to_outlet_counterexample :
  init 10 chain_network = Ok chain_built
  /\ headwater (segments chain_built) = [1]
  /\ stream_order (segments chain_built) !!! 1 = 1
  /\ num_to_outlet (segments chain_built) !!! 1 = 5
  /\ num_to_outlet (segments chain_built) !!! 1 <> 1.
Proof. split_and!; by vm_compute. Qed.

Lemma traversal_recursion_depth_witness :
  init 4 chain_network = Raise RecursionError
  /\ (forall net, init 10 chain_network = Ok net ->
        forall k d,
          drains (END_SEGNUM net) (index (segments net))
                 (to_segnum (segments net)) k d ->
          num_to_outlet (segments net) !!! k = Z.of_nat d /\ (d <= 10)%nat).
Proof.
  split.
  - apply (proj2 (traversal_recursion_depth (H := PyHost.pyhost) 4 chain_network
                    ltac:(compute_done)) 1 5%nat); [|lia].
    do 4 (apply drains_step; [compute_done|]).
    apply drains_outlet; [compute_done|by vm_compute].
  - apply (traversal_recursion_depth (H := PyHost.pyhost) 10 chain_network).
    compute_done.
Defined.

(** C9 fails on the chain: its headwater lies five segments above the
    outlet, and whenever fewer than five nested activations are allowed the
    construction raises [RecursionError]; what the traversal needs grows
    with the depth of the network. *)
Lemma traversal_recursion_depth_counterexample :
  num_to_outlet (segments chain_built) !!! 1 = 5
  /\ forall stack, (stack < 5)%nat ->
       init stack chain_network = Raise RecursionError.
Proof.
  split; [by vm_compute|].
  intros stack Hs. do 5 (destruct stack as [|stack]; [by vm_compute|]). lia.
Qed.

Lemma sequencer_without_progress_witness :
  exists net,
    init 10 cycle_network = Ok net
    /\ ((exists k, k ∈ index (segments net)
                   /\ forall d, ~ drains (end_segnum cycle_network.*1)
                                   (index (segments net))
                                   (to_segnum (segments net)) k d) ->
        exists k, k ∈ index (segments net)
                  /\ sequence (segments net) !!! k = 0
                  /\ stream_order (segments net) !!! k = 0).
Proof.
  apply (sequencer_without_progress (H := PyHost.pyhost) 10 cycle_network).
  - compute_done.
  - compute_done.
  - by vm_compute.
  - by vm_compute.
Defined.

(** C8 fails on the cycle: segments 1 and 2 drain into each other and are
    never sequenced, and the construction returns the network with nothing
    raised and with no error and no warning recorded. *)
Lemma sequencer_without_progress_counterexample :
  init 10 cycle_network = Ok cycle_built
  /\ errors cycle_built = []
  /\ warnings cycle_built = []
  /\ to_segnum (segments cycle_built) !!! 1 = 2
  /\ to_segnum (segments cycle_built) !!! 2 = 1
  /\ sequence (segments cycle_built) !!! 1 = 0
  /\ sequence (segments cycle_built) !!! 2 = 0
  /\ sequence (segments cycle_built) !!! 3 = 1.
Proof. split_and!; by vm_compute. Qed.

Lemma accumulate_values_index_witness :
  (series_index unit_values <> index (segments confluence_built) ->
   accumulate_values confluence_built unit_values = Raise ValueError)
  /\ (series_index unit_values = index (segments confluence_built) ->
      exists out, accumulate_values confluence_built unit_values = Ok out).
Proof.
  apply (accumulate_values_index (H := PyHost.pyhost)
           10 confluence_network confluence_built unit_values).
  - compute_done.
  - by vm_compute.
Defined.

(** C4 fails on values labelled 2, 1, 3 for the segments 1, 2, 3: the labels
    are those of the segments, and the call raises. *)
Lemma accumulate_values_index_counterexample :
  init 10 confluence_network = Ok confluence_built
  /\ (list_to_set (series_index swapped_values) : gset Z)
     = list_to_set (index (segments confluence_built))
  /\ accumulate_values confluence_built swapped_values = Raise ValueError
  /\ accumulate_values confluence_built unit_values
     = Ok [(1, 1); (2, 1); (3, 3)].
Proof. split_and!; by vm_compute. Qed.

Section NamedValues.
Import Stdlib.Strings.String.

(** a Series named ['area'] with one unit on each of the segments 1, 2
    and 3 *)
Definition area_values : SeriesObj (H := PyHost.pyhost) :=
  mkSeriesObj (StrName "area") unit_values.

End NamedValues.

Lemma accumulate_values_sum_witness :
  exists accum out m',
    accumulate_values_call 0 (mkStore confluence_built [area_values])
      = Ok (accum, m')
    /\ store_self m' = confluence_built
    /\ [area_values] !! accum = None
    /\ store_series m' !! accum = Some out
    /\ (forall r o, [area_values] !! r = Some o -> store_series m' !! r = Some o)
    /\ length (store_series m') = S (length [area_values])
    /\ obj_name out = accumulated_name (obj_name area_values)
    /\ accumulate_values confluence_built (obj_data area_values)
       = Ok (obj_data out)
    /\ series_index (obj_data out) = series_index (obj_data area_values)
    /\ (forall s, s ∈ index (segments confluence_built) ->
         0 < sequence (segments confluence_built) !!! s ->
         exists v outs,
           series_get s (obj_data area_values) = Some v
           /\ Forall2 (fun u x => series_get u (obj_data out) = Some x)
                (list_of_set (default ∅ (upstream_segnums confluence_built !! s)))
                outs
           /\ (outs <> [] ->
               series_get s (obj_data out) = Some (vadd v (vsum outs)))
           /\ (outs = [] -> series_get s (obj_data out) = Some v)
           /\ ((forall w, vadd w (vsum []) = w) ->
               series_get s (obj_data out) = Some (vadd v (vsum outs))))
    /\ (acyclic (END_SEGNUM confluence_built) (segments confluence_built) ->
        forall s, s ∈ index (segments confluence_built) ->
          0 < sequence (segments confluence_built) !!! s)
    /\ Sorted Z.le ((fun k => sequence (segments confluence_built) !!! k)
                      <$> visit_order (segments confluence_built))
    /\ forall l1 x l2 up u,
         visit_order (segments confluence_built) = l1 ++ x :: l2 ->
         0 < sequence (segments confluence_built) !!! x ->
         upstream_segnums confluence_built !! x = Some up -> u ∈ up -> u ∈ l1.
Proof.
  apply (accumulate_values_sum (H := PyHost.pyhost)
           10 confluence_network confluence_built [area_values] 0%nat area_values).
  - compute_done.
  - by vm_compute.
  - done.
  - by vm_compute.
Defined.

(** C3 fails on the cycle: segment 2 is the upstream segment of segment 1,
    the call returns 2 for segment 1 and 3 for segment 2, and 2 is not
    1 + 3. *)
Lemma accumulate_values_sum_counterexample :
  init 10 cycle_network = Ok cycle_built
  /\ series_index unit_values = index (segments cycle_built)
  /\ upstream_segnums cycle_built !! 1 = Some {[2]}
  /\ series_get 1 unit_values = Some 1
  /\ exists out,
       accumulate_values cycle_built unit_values = Ok out
       /\ series_get 2 out = Some 3
       /\ series_get 1 out = Some 2
       /\ series_get 1 out <> Some (vadd 1 (vsum [3])).
Proof.
  split_and!; try by vm_compute.
  exists [(1, 2); (2, 3); (3, 1)]. split_and!; by vm_compute.
Qed.

(** * The further properties on concrete inputs *)

#[local] Existing Instance F_inhabited.

(** Segments 1 and 2 each end where the other starts. *)
Definition loop_network : list (Z * LineString float) :=
  [(1, line2 0 0 1 0); (2, line2 1 0 0 0)].

(** Segments 1 and 2 each end where the other starts, and segment 3 ends
    where segment 1 starts. *)
Definition fed_loop_network : list (Z * LineString float) :=
  [(1, line2 0 0 1 0); (2, line2 1 0 0 0); (3, line2 5 5 0 0)].

(** Two segments that start at the same point and end apart. *)
Definition shared_start_network : list (Z * LineString float) :=
  [(1, line2 0 0 1 0); (2, line2 0 0 0 1)].
Definition shared_start_built : SurfaceWaterNetwork (H := PyHost.pyhost) :=
  constructed 10 shared_start_network.

(** Two segments that start apart and end at the same point. *)
Definition shared_end_network : list (Z * LineString float) :=
  [(1, line2 0 0 1 1); (2, line2 2 0 1 1)].
Definition shared_end_built : SurfaceWaterNetwork (H := PyHost.pyhost) :=
  constructed 10 shared_end_network.

Lemma init_without_headwater_witness :
  init (H := PyHost.pyhost) 10 loop_network = Raise ValueError.
Proof.
  apply (init_without_headwater (H := PyHost.pyhost) 10 loop_network).
  - compute_done.
  - by vm_compute.
Defined.

Lemma init_without_outlet_witness :
  init (H := PyHost.pyhost) 10 fed_loop_network = Raise UnboundLocalError.
Proof.
  apply (init_without_outlet (H := PyHost.pyhost) 10 fed_loop_network).
  - compute_done.
  - by vm_compute.
  - by vm_compute.
Defined.

Lemma to_segnum_joins_lines_witness :
  to_segnum (segments confluence_built) !!! 1 = END_SEGNUM confluence_built
  \/ exists g2,
       (to_segnum (segments confluence_built) !!! 1, g2) ∈ confluence_network
       /\ to_segnum (segments confluence_built) !!! 1 <> 1
       /\ (coord_eqb (coords_end (line2 0 2 1 1)) (coords_start g2)
           || xy_eqb (coord_xy (coords_end (line2 0 2 1 1)))
                (coord_xy (coords_start g2)))
          = true.
Proof.
  apply (to_segnum_joins_lines (H := PyHost.pyhost) 10 confluence_network
           confluence_built 1 (line2 0 2 1 1)).
  - compute_done.
  - by vm_compute.
  - by left.
Defined.

Lemma upstream_segnums_inverse_witness :
  (forall s up, upstream_segnums confluence_built !! s = Some up ->
     s ∈ index (segments confluence_built) /\ up <> ∅
     /\ forall u, u ∈ up <->
          u ∈ index (segments confluence_built)
          /\ to_segnum (segments confluence_built) !!! u = s)
  /\ (forall s, s ∈ index (segments confluence_built) ->
        upstream_segnums confluence_built !! s = None
        <-> s ∈ headwater (segments confluence_built))
  /\ upstream_segnums confluence_built !! END_SEGNUM confluence_built = None.
Proof.
  apply (upstream_segnums_inverse (H := PyHost.pyhost) 10 confluence_network).
  - compute_done.
  - by vm_compute.
Defined.

Lemma outlet_columns_follow_to_segnum_witness :
  let seg := segments confluence_built in
  let t := to_segnum seg !!! 1 in
  (t = END_SEGNUM confluence_built ->
     num_to_outlet seg !!! 1 = 1 /\ cat_group seg !!! 1 = 1
     /\ length_to_outlet seg !!! 1 = fadd fzero (geom_length (line2 0 2 1 1)))
  /\ (t <> END_SEGNUM confluence_built -> 0 < num_to_outlet seg !!! t ->
      num_to_outlet seg !!! 1 = num_to_outlet seg !!! t + 1
      /\ cat_group seg !!! 1 = cat_group seg !!! t
      /\ length_to_outlet seg !!! 1
         = fadd (length_to_outlet seg !!! t) (geom_length (line2 0 2 1 1)))
  /\ (t <> END_SEGNUM confluence_built -> num_to_outlet seg !!! t = 0 ->
      num_to_outlet seg !!! 1 = 0
      /\ cat_group seg !!! 1 = END_SEGNUM confluence_built
      /\ length_to_outlet seg !!! 1 = fzero).
Proof.
  apply (outlet_columns_follow_to_segnum (H := PyHost.pyhost) 10
           confluence_network confluence_built 1 (line2 0 2 1 1)).
  - compute_done.
  - by vm_compute.
  - by left.
Defined.

Lemma headwater_sequenced_first_witness :
  let seg := segments confluence_built in
  (fun h => sequence seg !!! h) <$> headwater seg
    ≡ₚ seqZ 1 (Z.of_nat (length (headwater seg)))
  /\ forall k, k ∈ index seg -> k ∉ headwater seg -> 0 < sequence seg !!! k ->
       Z.of_nat (length (headwater seg)) < sequence seg !!! k.
Proof.
  apply (headwater_sequenced_first (H := PyHost.pyhost) 10 confluence_network).
  - compute_done.
  - by vm_compute.
Defined.

Lemma headwater_common_start_witness :
  let seg := segments shared_start_built in
  let sub := candidates seg (sindex_sub shared_start_network) in
  (forall h k, h ∈ headwater seg ->
     shares_location coords_start shared_start_network sub h k ->
     exists key v, StartCoordinateMatches key v ∈ errors shared_start_built
                   /\ k ∈ v)
  /\ (forall key v k,
        StartCoordinateMatches key v ∈ errors shared_start_built -> k ∈ v ->
        exists h, h ∈ headwater seg
                  /\ shares_location coords_start shared_start_network sub h k).
Proof.
  apply (headwater_common_start (H := PyHost.pyhost) 10 shared_start_network).
  - compute_done.
  - by vm_compute.
Defined.

Lemma outlet_common_end_witness :
  let seg := segments shared_end_built in
  let sub := candidates seg (sindex_sub shared_end_network) in
  (forall o k, o ∈ outlets seg (END_SEGNUM shared_end_built) ->
     shares_location coords_end shared_end_network sub o k ->
     exists key v, EndCoordinateMatches key v ∈ warnings shared_end_built
                   /\ k ∈ v)
  /\ (forall key v k,
        EndCoordinateMatches key v ∈ warnings shared_end_built -> k ∈ v ->
        exists o, o ∈ outlets seg (END_SEGNUM shared_end_built)
                  /\ shares_location coords_end shared_end_network sub o k).
Proof.
  apply (outlet_common_end (H := PyHost.pyhost) 10 shared_end_network).
  - compute_done.
  - by vm_compute.
Defined.

Lemma len_constructed_witness :
  len confluence_built = length confluence_network
  /\ (1 <= len confluence_built)%nat.
Proof.
  apply (len_constructed (H := PyHost.pyhost) 10 confluence_network).
  - compute_done.
  - by vm_compute.
Defined.





Lemma accumulate_values_catchment_witness :
  exists out,
    accumulate_values confluence_built unit_values = Ok out
    /\ forall s l,
         s ∈ index (segments confluence_built) ->
         NoDup l ->
         (forall k, k ∈ l <->
            reaches (index (segments confluence_built))
              (to_segnum (segments confluence_built)) k s) ->
         exists vs,
           Forall2 (fun k v => series_get k unit_values = Some v) l vs
           /\ series_get s out = Some (foldr Z.add 0 vs).
Proof.
  apply (accumulate_values_catchment (H := PyHost.pyhost) 0
           (fun _ => eq_refl) Z.add_comm Z.add_assoc Z.add_0_r
           10 confluence_network confluence_built unit_values).
  - compute_done.
  - by vm_compute.
  - apply acyclicb_spec. by vm_compute.
  - by vm_compute.
Defined.

(** three reaches of segment 5 and then one of segment 7; two reaches of
    segment 0 and then one of segment 7 *)
Definition sorted_reaches : Series Z := [(1, 5); (2, 5); (3, 5); (4, 7)].
Definition zero_reaches : Series Z := [(1, 0); (2, 0); (3, 7)].

Lemma number_reaches_runs_witness :
  col_iseg (number_reaches sorted_reaches)
    = zip sorted_reaches.*1 (runs_numbers 1 [(5, 2%nat); (7, 0%nat)]).*1
  /\ col_ireach (number_reaches sorted_reaches)
     = zip sorted_reaches.*1 (runs_numbers 1 [(5, 2%nat); (7, 0%nat)]).*2.
Proof.
  apply (number_reaches_runs sorted_reaches [(5, 2%nat); (7, 0%nat)]).
  - compute_done.
  - reflexivity.
  - simpl. split_and!; done.
Defined.

Lemma number_reaches_first_zero_witness :
  col_iseg (number_reaches zero_reaches)
    = zip zero_reaches.*1 (runs_numbers 0 [(0, 1%nat); (7, 0%nat)]).*1
  /\ col_ireach (number_reaches zero_reaches)
     = zip zero_reaches.*1 (runs_numbers 0 [(0, 1%nat); (7, 0%nat)]).*2.
Proof.
  apply (number_reaches_first_zero zero_reaches 1 [(7, 0%nat)]).
  - compute_done.
  - reflexivity.
  - simpl. split_and!; done.
Defined.

(** Segment 1 ends on segment 2, between its two ends. *)
Definition middle_network : list (Z * LineString float) :=
  [(1, line2 1 1 1 0); (2, line2 0 0 2 0)].
Definition middle_built : SurfaceWaterNetwork (H := PyHost.pyhost) :=
  constructed 10 middle_network.

Lemma stream_order_downstream_witness :
  let seg := segments confluence_built in
  let s := to_segnum seg !!! 1 in
  0 < sequence seg !!! 1 < sequence seg !!! s
  /\ 1 <= stream_order seg !!! 1 <= stream_order seg !!! s.
Proof.
  apply (stream_order_downstream (H := PyHost.pyhost) 10 confluence_network
           confluence_built 1).
  - compute_done.
  - by vm_compute.
  - compute_done.
  - compute_done.
  - by vm_compute.
Defined.

Lemma connectivity_diagnostics_witness :
  let sub := candidates (segments middle_built) (sindex_sub middle_network) in
  (EndMatchesStart2D 1 2 ∈ warnings middle_built
   <-> exists g g2, (1, g) ∈ middle_network /\ (2, g2) ∈ sub (coords_end g)
         /\ matches_2d 1 (coords_end g) (2, g2) = true)
  /\ (ConnectsToMiddle 1 2 ∈ errors middle_built
      <-> exists g g2, (1, g) ∈ middle_network /\ (2, g2) ∈ sub (coords_end g)
            /\ touches_middle 1 (coords_end g) (2, g2) = true).
Proof.
  apply (connectivity_diagnostics (H := PyHost.pyhost) 10 middle_network
           middle_built 1 2).
  - compute_done.
  - by vm_compute.
Defined.
